(** * In-place dense kernels of gauss_solve.c

    A shallow embedding of the four kernels of [src/gauss_solve.c]
    ([gauss_solve_in_place], [lu_in_place], [lu_in_place_reconstruct], [plu])
    and the properties their specification states about them.

    The kernels are written once, over an arbitrary scalar type carrying the
    operations the C code applies to a [double].  They are then read in three
    arithmetics: an arbitrary field (the exact arithmetic of the algebraic
    properties), the canonical rationals [Qc] (an executable exact instance) and
    the kernel's binary64 floats (the arithmetic the C code really runs).

    The kernels are written a second time as C runs them, with [int]
    counters, loops that may not end and accesses that may leave a buffer;
    these are proved to return what the first ones compute. *)

From Stdlib Require Import List Arith Lia Bool Permutation.
From Stdlib Require Import Field.
From Stdlib Require Import ZArith QArith Qcanon Qcabs.
From Stdlib Require Import PrimFloat.
From Stdlib Require SpecFloat FloatOps FloatAxioms.
Import ListNotations.

Close Scope Qc_scope.
Close Scope Q_scope.
Close Scope Z_scope.
Open Scope nat_scope.

Set Implicit Arguments.

(** ** Scalars *)

(** The operations of the C code on a [double]: [+ - * /], [fabs] and [>].
    [zero], [one], [opp] and [inv] complete the signature of a field. *)
Class Scalar (F : Type) : Type := {
  zero : F;
  one : F;
  add : F -> F -> F;
  sub : F -> F -> F;
  mul : F -> F -> F;
  div : F -> F -> F;
  opp : F -> F;
  inv : F -> F;
  fabs : F -> F;
  fgt : F -> F -> bool
}.

Declare Scope scalar_scope.
Delimit Scope scalar_scope with sc.
Infix "+" := add : scalar_scope.
Infix "-" := sub : scalar_scope.
Infix "*" := mul : scalar_scope.
Infix "/" := div : scalar_scope.
Notation "- x" := (opp x) : scalar_scope.

(** ** Loops *)

(** [for (i = lo; i < hi; ++i) body]: the loop variable is read, never
    written, by every loop body of the file, and [hi <= n] where [n] is an
    [int], so [++i] never overflows. *)
Fixpoint for_up_from (S : Type) (len i : nat) (body : nat -> S -> S) (s : S) : S :=
  match len with
  | O => s
  | Datatypes.S len' => for_up_from len' (Datatypes.S i) body (body i s)
  end.

Definition for_up (S : Type) (lo hi : nat) (body : nat -> S -> S) (s : S) : S :=
  for_up_from (hi - lo) lo body s.

(** [for (i = hi - 1; i >= 0; --i) body]. *)
Fixpoint for_down (S : Type) (hi : nat) (body : nat -> S -> S) (s : S) : S :=
  match hi with
  | O => s
  | Datatypes.S i => for_down i body (body i s)
  end.

(** ** Buffers *)

(** [l[i] = v]; the kernels only write inside the buffer, where this is the
    C assignment (outside it the list is left as it is). *)
Fixpoint upd (T : Type) (i : nat) (v : T) (l : list T) : list T :=
  match l, i with
  | [], _ => []
  | _ :: t, O => v :: t
  | h :: t, Datatypes.S i' => h :: upd i' v t
  end.

Section Kernels.

Context {F : Type} {SF : Scalar F}.
Local Open Scope scalar_scope.

(** [double b[n]] and [double A[n][n]] (row major). *)
Definition vec : Type := list F.
Definition matrix : Type := list (list F).

Definition vget (b : vec) (i : nat) : F := nth i b zero.
Definition vset (b : vec) (i : nat) (v : F) : vec := upd i v b.

Definition get (A : matrix) (i j : nat) : F := nth j (nth i A []) zero.
Definition set (A : matrix) (i j : nat) (v : F) : matrix :=
  upd i (upd j v (nth i A [])) A.

(** An [n]-by-[n] buffer. *)
Definition square (n : nat) (A : matrix) : Prop :=
  length A = n /\ Forall (fun row => length row = n) A.

(** *** gauss_solve_in_place (lines 12-31) *)

(** Lines 18-22: the body of the loop over the rows [i > k]. *)
Definition gauss_eliminate_row (n k i : nat) (Ab : matrix * vec) : matrix * vec :=
  let '(A, b) := Ab in
  let A := set A i k (get A i k / get A k k) in
  let A := for_up (S k) n
             (fun j A => set A i j (get A i j - get A i k * get A k j)) A in
  let b := vset b i (vget b i - get A i k * vget b k) in
  (A, b).

(** Lines 15-23: one pivot [k]. *)
Definition gauss_eliminate_step (n k : nat) (Ab : matrix * vec) : matrix * vec :=
  for_up (S k) n (gauss_eliminate_row n k) Ab.

(** Lines 14-24: forward elimination. *)
Definition gauss_forward (n : nat) (Ab : matrix * vec) : matrix * vec :=
  for_up 0 n (gauss_eliminate_step n) Ab.

(** Lines 26-29: one row of the back-substitution; [A] is only read. *)
Definition back_substitute_row (n : nat) (A : matrix) (i : nat) (b : vec) : vec :=
  let b := for_up (S i) n
             (fun j b => vset b i (vget b i - get A i j * vget b j)) b in
  vset b i (vget b i / get A i i).

(** Lines 25-30. *)
Definition back_substitute (n : nat) (A : matrix) (b : vec) : vec :=
  for_down n (back_substitute_row n A) b.

Definition gauss_solve_in_place (n : nat) (A : matrix) (b : vec) : matrix * vec :=
  let '(A, b) := gauss_forward n (A, b) in
  (A, back_substitute n A b).

(** *** lu_in_place (lines 33-51) *)

(** Lines 37-40: [A[k][i] -= A[k][j] * A[j][i]] for [j < k]. *)
Definition lu_row_entry (k i : nat) (A : matrix) : matrix :=
  for_up 0 k (fun j A => set A k i (get A k i - get A k j * get A j i)) A.

(** Lines 36-41. *)
Definition lu_row_phase (n k : nat) (A : matrix) : matrix :=
  for_up k n (lu_row_entry k) A.

(** Lines 43-48. *)
Definition lu_col_entry (k i : nat) (A : matrix) : matrix :=
  let A := for_up 0 k
             (fun j A => set A i k (get A i k - get A i j * get A j k)) A in
  set A i k (get A i k / get A k k).

(** Lines 42-49. *)
Definition lu_col_phase (n k : nat) (A : matrix) : matrix :=
  for_up (S k) n (lu_col_entry k) A.

Definition lu_step (n k : nat) (A : matrix) : matrix :=
  lu_col_phase n k (lu_row_phase n k A).

Definition lu_in_place (n : nat) (A : matrix) : matrix :=
  for_up 0 n (lu_step n) A.

(** *** lu_in_place_reconstruct (lines 53-68) *)

(** Lines 57-60. *)
Definition reconstruct_col_entry (k i : nat) (A : matrix) : matrix :=
  let A := set A i k (get A i k * get A k k) in
  for_up 0 k (fun j A => set A i k (get A i k + get A i j * get A j k)) A.

(** Lines 56-61. *)
Definition reconstruct_col_phase (n k : nat) (A : matrix) : matrix :=
  for_up (S k) n (reconstruct_col_entry k) A.

(** Lines 63-65. *)
Definition reconstruct_row_entry (k i : nat) (A : matrix) : matrix :=
  for_up 0 k (fun j A => set A k i (get A k i + get A k j * get A j i)) A.

(** Lines 62-66. *)
Definition reconstruct_row_phase (n k : nat) (A : matrix) : matrix :=
  for_up k n (reconstruct_row_entry k) A.

Definition reconstruct_step (n k : nat) (A : matrix) : matrix :=
  reconstruct_row_phase n k (reconstruct_col_phase n k A).

Definition lu_in_place_reconstruct (n : nat) (A : matrix) : matrix :=
  for_down n (reconstruct_step n) A.

(** *** plu (lines 70-110) *)

(** Lines 72-74: [P[i] = i]. *)
Definition plu_init (n : nat) (P : list nat) : list nat :=
  for_up 0 n (fun i P => upd i i P) P.

(** Lines 79-84: the search for the pivot row of column [k]. *)
Definition plu_max_row (n k : nat) (A : matrix) : nat :=
  for_up (S k) n
    (fun i max_row =>
       if fgt (fabs (get A i k)) (fabs (get A max_row k)) then i else max_row)
    k.

(** Lines 89-93: rows [k] and [max_row] of [A] change places. *)
Definition plu_swap_rows (n k max_row : nat) (A : matrix) : matrix :=
  for_up 0 n
    (fun j A =>
       let temp := get A k j in
       let A := set A k j (get A max_row j) in
       set A max_row j temp)
    A.

(** Lines 96-98. *)
Definition plu_swap_perm (k max_row : nat) (P : list nat) : list nat :=
  let temp := nth k P 0 in
  let P := upd k (nth max_row P 0) P in
  upd max_row temp P.

(** Lines 79-99: pivot search and the guarded swap. *)
Definition plu_pivot (n k : nat) (AP : matrix * list nat) : matrix * list nat :=
  let '(A, P) := AP in
  let max_row := plu_max_row n k A in
  if negb (max_row =? k)
  then (plu_swap_rows n k max_row A, plu_swap_perm k max_row P)
  else (A, P).

(** Lines 103-107. *)
Definition plu_eliminate_row (n k i : nat) (A : matrix) : matrix :=
  let A := set A i k (get A i k / get A k k) in
  for_up (S k) n (fun j A => set A i j (get A i j - get A i k * get A k j)) A.

(** Lines 102-108. *)
Definition plu_eliminate (n k : nat) (A : matrix) : matrix :=
  for_up (S k) n (plu_eliminate_row n k) A.

(** Lines 77-109: one pivot column. *)
Definition plu_step (n k : nat) (AP : matrix * list nat) : matrix * list nat :=
  let '(A, P) := plu_pivot n k AP in
  (plu_eliminate n k A, P).

Definition plu (n : nat) (A : matrix) (P : list nat) : matrix * list nat :=
  for_up 0 n (plu_step n) (A, plu_init n P).

(** *** The buffers between two iterations of an outer loop *)

(** The buffers of gauss_solve_in_place when the iteration [k] of the loop
    of line 14 starts, and the pivot [A[k][k]] that iteration divides by. *)
Definition gauss_state (n : nat) (A : matrix) (b : vec) (k : nat) : matrix * vec :=
  for_up 0 k (gauss_eliminate_step n) (A, b).
Definition gauss_pivot (n : nat) (A : matrix) (b : vec) (k : nat) : F :=
  get (fst (gauss_state n A b k)) k k.

(** The buffer of lu_in_place when the iteration [k] of the loop of line 35
    starts, and the [A[k][k]] that line 48 divides by in that iteration. *)
Definition lu_state (n : nat) (A : matrix) (k : nat) : matrix :=
  for_up 0 k (lu_step n) A.
Definition lu_divisor (n : nat) (A : matrix) (k : nat) : F :=
  get (lu_row_phase n k (lu_state n A k)) k k.

(** The buffers of plu when the iteration [k] of the loop of line 77 starts,
    and the [A[k][k]] that line 103 divides by in that iteration (read after
    the swap). *)
Definition plu_state (n : nat) (A : matrix) (P : list nat) (k : nat)
    : matrix * list nat :=
  for_up 0 k (plu_step n) (A, plu_init n P).
Definition plu_divisor (n : nat) (A : matrix) (P : list nat) (k : nat) : F :=
  get (fst (plu_pivot n k (plu_state n A P k))) k k.

End Kernels.

Arguments vec F : clear implicits.
Arguments matrix F : clear implicits.

(** ** The kernels as C runs them *)

(** The kernels once more, statement by statement, with what the functions
    above leave out: the loop counters are [int]s, every loop tests its
    counter before each iteration and steps it after, and every [A[i][j]],
    [b[i]] and [P[i]] is an access to a buffer of a given size.  Nothing
    here is known to end or to stay inside the buffers: that is proved
    below. *)

(** What a call does: it returns, or it reads or writes outside a buffer, or
    an [int] leaves the range of [int], or it is still in a loop when the
    fuel is spent. *)
Inductive run (T : Type) : Type :=
| Returns (t : T)
| OutOfBounds
| Overflow
| OutOfFuel.

Arguments OutOfBounds {T}.
Arguments Overflow {T}.
Arguments OutOfFuel {T}.

Definition run_bind (T U : Type) (c : run T) (f : T -> run U) : run U :=
  match c with
  | Returns t => f t
  | OutOfBounds => OutOfBounds
  | Overflow => Overflow
  | OutOfFuel => OutOfFuel
  end.

Declare Scope run_scope.
Delimit Scope run_scope with run.
Notation "x <- c ;; k" := (run_bind c (fun x => k))
  (at level 61, c at next level, right associativity) : run_scope.
Notation "' p <- c ;; k" := (run_bind c (fun x => let 'p := x in k))
  (at level 61, p pattern, c at next level, right associativity) : run_scope.

(** [int], of 32 bits: a result outside its range is undefined in C. *)
Definition int_max : Z := 2147483647.
Definition int_min : Z := (-2147483648)%Z.

Definition int_add (a b : Z) : run Z :=
  if ((int_min <=? a + b) && (a + b <=? int_max))%Z then Returns (a + b)%Z
  else Overflow.

(** [++i] and [--i]. *)
Definition incr (i : Z) : run Z := int_add i 1.
Definition decr (i : Z) : run Z := int_add i (-1).

(** [for (i = ...; test; next) body], started at [i]: the test before each
    iteration, the step after it.  [fuel] bounds the number of tests. *)
Fixpoint c_for (S : Type) (fuel : nat) (test : Z -> bool) (next : Z -> run Z)
    (body : Z -> S -> run S) (i : Z) (s : S) : run S :=
  match fuel with
  | O => OutOfFuel
  | Datatypes.S fuel' =>
      if test i
      then (s' <- body i s ;; i' <- next i ;; c_for fuel' test next body i' s')%run
      else Returns s
  end.

(** [l[i]] and [l[i] = v], checked against the buffer itself. *)
Definition read1 (T : Type) (l : list T) (i : Z) : run T :=
  if (i <? 0)%Z then OutOfBounds
  else match nth_error l (Z.to_nat i) with
       | Some x => Returns x
       | None => OutOfBounds
       end.

Definition write1 (T : Type) (l : list T) (i : Z) (v : T) : run (list T) :=
  if (i <? 0)%Z then OutOfBounds
  else if Z.to_nat i <? length l then Returns (upd (Z.to_nat i) v l)
       else OutOfBounds.

Section CheckedKernels.

Context {F : Type} {SF : Scalar F}.
Local Open Scope run_scope.

(** [A[i][j]] and [A[i][j] = v]. *)
Definition read2 (A : matrix F) (i j : Z) : run F :=
  row <- read1 A i ;; read1 row j.

Definition write2 (A : matrix F) (i j : Z) (v : F) : run (matrix F) :=
  row <- read1 A i ;; row' <- write1 row j v ;; write1 A i row'.

(** *** gauss_solve_in_place *)

(** Lines 18-22. *)
Definition gauss_eliminate_row_run (fuel : nat) (n k i : Z) (Ab : matrix F * vec F)
    : run (matrix F * vec F) :=
  let '(A, b) := Ab in
  x <- read2 A i k ;; p <- read2 A k k ;;
  A <- write2 A i k (x / p)%sc ;;
  j0 <- int_add k 1 ;;
  A <- c_for fuel (fun j => (j <? n)%Z) incr
         (fun j A =>
            x <- read2 A i j ;; m <- read2 A i k ;; y <- read2 A k j ;;
            write2 A i j (x - m * y)%sc)
         j0 A ;;
  x <- read1 b i ;; m <- read2 A i k ;; y <- read1 b k ;;
  b <- write1 b i (x - m * y)%sc ;;
  Returns (A, b).

(** Lines 15-23. *)
Definition gauss_eliminate_step_run (fuel : nat) (n k : Z) (Ab : matrix F * vec F)
    : run (matrix F * vec F) :=
  i0 <- int_add k 1 ;;
  c_for fuel (fun i => (i <? n)%Z) incr (gauss_eliminate_row_run fuel n k) i0 Ab.

(** Lines 14-24. *)
Definition gauss_forward_run (fuel : nat) (n : Z) (Ab : matrix F * vec F)
    : run (matrix F * vec F) :=
  c_for fuel (fun k => (k <? n)%Z) incr (gauss_eliminate_step_run fuel n) 0%Z Ab.

(** Lines 26-29. *)
Definition back_substitute_row_run (fuel : nat) (n : Z) (A : matrix F) (i : Z)
    (b : vec F) : run (vec F) :=
  j0 <- int_add i 1 ;;
  b <- c_for fuel (fun j => (j <? n)%Z) incr
         (fun j b =>
            x <- read1 b i ;; a <- read2 A i j ;; y <- read1 b j ;;
            write1 b i (x - a * y)%sc)
         j0 b ;;
  x <- read1 b i ;; d <- read2 A i i ;;
  write1 b i (x / d)%sc.

(** Lines 25-30. *)
Definition back_substitute_run (fuel : nat) (n : Z) (A : matrix F) (b : vec F)
    : run (vec F) :=
  i0 <- int_add n (-1) ;;
  c_for fuel (fun i => (0 <=? i)%Z) decr (back_substitute_row_run fuel n A) i0 b.

Definition gauss_solve_in_place_run (fuel : nat) (n : Z) (A : matrix F) (b : vec F)
    : run (matrix F * vec F) :=
  ' (A, b) <- gauss_forward_run fuel n (A, b) ;;
  b <- back_substitute_run fuel n A b ;;
  Returns (A, b).

(** *** lu_in_place *)

(** Lines 37-40. *)
Definition lu_row_entry_run (fuel : nat) (k i : Z) (A : matrix F) : run (matrix F) :=
  c_for fuel (fun j => (j <? k)%Z) incr
    (fun j A =>
       x <- read2 A k i ;; l <- read2 A k j ;; u <- read2 A j i ;;
       write2 A k i (x - l * u)%sc)
    0%Z A.

(** Lines 36-41. *)
Definition lu_row_phase_run (fuel : nat) (n k : Z) (A : matrix F) : run (matrix F) :=
  c_for fuel (fun i => (i <? n)%Z) incr (lu_row_entry_run fuel k) k A.

(** Lines 43-48. *)
Definition lu_col_entry_run (fuel : nat) (k i : Z) (A : matrix F) : run (matrix F) :=
  A <- c_for fuel (fun j => (j <? k)%Z) incr
         (fun j A =>
            x <- read2 A i k ;; l <- read2 A i j ;; u <- read2 A j k ;;
            write2 A i k (x - l * u)%sc)
         0%Z A ;;
  x <- read2 A i k ;; d <- read2 A k k ;;
  write2 A i k (x / d)%sc.

(** Lines 42-49. *)
Definition lu_col_phase_run (fuel : nat) (n k : Z) (A : matrix F) : run (matrix F) :=
  i0 <- int_add k 1 ;;
  c_for fuel (fun i => (i <? n)%Z) incr (lu_col_entry_run fuel k) i0 A.

Definition lu_step_run (fuel : nat) (n k : Z) (A : matrix F) : run (matrix F) :=
  A <- lu_row_phase_run fuel n k A ;; lu_col_phase_run fuel n k A.

Definition lu_in_place_run (fuel : nat) (n : Z) (A : matrix F) : run (matrix F) :=
  c_for fuel (fun k => (k <? n)%Z) incr (lu_step_run fuel n) 0%Z A.

(** *** lu_in_place_reconstruct *)

(** Lines 57-60. *)
Definition reconstruct_col_entry_run (fuel : nat) (k i : Z) (A : matrix F)
    : run (matrix F) :=
  x <- read2 A i k ;; d <- read2 A k k ;;
  A <- write2 A i k (x * d)%sc ;;
  c_for fuel (fun j => (j <? k)%Z) incr
    (fun j A =>
       x <- read2 A i k ;; l <- read2 A i j ;; u <- read2 A j k ;;
       write2 A i k (x + l * u)%sc)
    0%Z A.

(** Lines 56-61. *)
Definition reconstruct_col_phase_run (fuel : nat) (n k : Z) (A : matrix F)
    : run (matrix F) :=
  i0 <- int_add k 1 ;;
  c_for fuel (fun i => (i <? n)%Z) incr (reconstruct_col_entry_run fuel k) i0 A.

(** Lines 63-65. *)
Definition reconstruct_row_entry_run (fuel : nat) (k i : Z) (A : matrix F)
    : run (matrix F) :=
  c_for fuel (fun j => (j <? k)%Z) incr
    (fun j A =>
       x <- read2 A k i ;; l <- read2 A k j ;; u <- read2 A j i ;;
       write2 A k i (x + l * u)%sc)
    0%Z A.

(** Lines 62-66. *)
Definition reconstruct_row_phase_run (fuel : nat) (n k : Z) (A : matrix F)
    : run (matrix F) :=
  c_for fuel (fun i => (i <? n)%Z) incr (reconstruct_row_entry_run fuel k) k A.

Definition reconstruct_step_run (fuel : nat) (n k : Z) (A : matrix F) : run (matrix F) :=
  A <- reconstruct_col_phase_run fuel n k A ;; reconstruct_row_phase_run fuel n k A.

Definition lu_in_place_reconstruct_run (fuel : nat) (n : Z) (A : matrix F)
    : run (matrix F) :=
  k0 <- int_add n (-1) ;;
  c_for fuel (fun k => (0 <=? k)%Z) decr (reconstruct_step_run fuel n) k0 A.

(** *** plu *)

(** Lines 72-74; [i] is not negative, and stored as the natural number it
    is. *)
Definition plu_init_run (fuel : nat) (n : Z) (P : list nat) : run (list nat) :=
  c_for fuel (fun i => (i <? n)%Z) incr (fun i P => write1 P i (Z.to_nat i)) 0%Z P.

(** Lines 79-84. *)
Definition plu_max_row_run (fuel : nat) (n k : Z) (A : matrix F) : run Z :=
  i0 <- int_add k 1 ;;
  c_for fuel (fun i => (i <? n)%Z) incr
    (fun i max_row =>
       x <- read2 A i k ;; y <- read2 A max_row k ;;
       Returns (if fgt (fabs x) (fabs y) then i else max_row))
    i0 k.

(** Lines 89-93. *)
Definition plu_swap_rows_run (fuel : nat) (n k max_row : Z) (A : matrix F)
    : run (matrix F) :=
  c_for fuel (fun j => (j <? n)%Z) incr
    (fun j A =>
       temp <- read2 A k j ;;
       x <- read2 A max_row j ;;
       A <- write2 A k j x ;;
       write2 A max_row j temp)
    0%Z A.

(** Lines 96-98. *)
Definition plu_swap_perm_run (k max_row : Z) (P : list nat) : run (list nat) :=
  temp <- read1 P k ;;
  x <- read1 P max_row ;;
  P <- write1 P k x ;;
  write1 P max_row temp.

(** Lines 79-99. *)
Definition plu_pivot_run (fuel : nat) (n k : Z) (AP : matrix F * list nat)
    : run (matrix F * list nat) :=
  let '(A, P) := AP in
  max_row <- plu_max_row_run fuel n k A ;;
  if negb (max_row =? k)%Z
  then A <- plu_swap_rows_run fuel n k max_row A ;;
       P <- plu_swap_perm_run k max_row P ;;
       Returns (A, P)
  else Returns (A, P).

(** Lines 103-107. *)
Definition plu_eliminate_row_run (fuel : nat) (n k i : Z) (A : matrix F)
    : run (matrix F) :=
  x <- read2 A i k ;; p <- read2 A k k ;;
  A <- write2 A i k (x / p)%sc ;;
  j0 <- int_add k 1 ;;
  c_for fuel (fun j => (j <? n)%Z) incr
    (fun j A =>
       x <- read2 A i j ;; m <- read2 A i k ;; y <- read2 A k j ;;
       write2 A i j (x - m * y)%sc)
    j0 A.

(** Lines 102-108. *)
Definition plu_eliminate_run (fuel : nat) (n k : Z) (A : matrix F) : run (matrix F) :=
  i0 <- int_add k 1 ;;
  c_for fuel (fun i => (i <? n)%Z) incr (plu_eliminate_row_run fuel n k) i0 A.

(** Lines 77-109. *)
Definition plu_step_run (fuel : nat) (n k : Z) (AP : matrix F * list nat)
    : run (matrix F * list nat) :=
  ' (A, P) <- plu_pivot_run fuel n k AP ;;
  A <- plu_eliminate_run fuel n k A ;;
  Returns (A, P).

Definition plu_run (fuel : nat) (n : Z) (A : matrix F) (P : list nat)
    : run (matrix F * list nat) :=
  P <- plu_init_run fuel n P ;;
  c_for fuel (fun k => (k <? n)%Z) incr (plu_step_run fuel n) 0%Z (A, P).

End CheckedKernels.

(** A matrix buffer and a second buffer of the dimension [n]. *)
Definition shaped (F T : Type) (n : nat) (AV : matrix F * list T) : Prop :=
  square n (fst AV) /\ length (snd AV) = n.

(** ** The arithmetics the kernels are read in *)

(** Exact rationals in canonical form. *)
#[export] Instance Qc_scalar : Scalar Qc := {|
  zero := 0%Qc;
  one := 1%Qc;
  add := Qcplus;
  sub := Qcminus;
  mul := Qcmult;
  div := Qcdiv;
  opp := Qcopp;
  inv := Qcinv;
  fabs := Qcabs;
  fgt := fun x y => match (y ?= x)%Qc with Lt => true | _ => false end
|}.

(** IEEE 754 binary64, the [double] of the C code, rounding to nearest. *)
#[export] Instance float_scalar : Scalar float := {|
  zero := 0%float;
  one := 1%float;
  add := PrimFloat.add;
  sub := PrimFloat.sub;
  mul := PrimFloat.mul;
  div := PrimFloat.div;
  opp := PrimFloat.opp;
  inv := fun x => PrimFloat.div 1%float x;
  fabs := PrimFloat.abs;
  fgt := fun x y => PrimFloat.ltb y x
|}.


(** [z] as a rational. *)
Definition Qc_of_Z (z : Z) : Qc := Q2Qc (inject_Z z).

(** A zero of either sign. *)
Definition float_zero (x : float) : Prop := x = 0%float \/ x = (-0)%float.

(** NaN or an infinity. *)
Definition non_finite (x : float) : bool := PrimFloat.is_nan x || PrimFloat.is_infinity x.

(** * The vocabulary of the specification *)

(** The row that is at place [r] once rows [k] and [m] changed places. *)
Definition swap_index (k m r : nat) : nat :=
  if r =? k then m else if r =? m then k else r.

(** [P] sends the places [0 .. n-1] to themselves, without repetition. *)
Definition injection_on (n : nat) (P : list nat) : Prop :=
  length P = n /\
  (forall i, i < n -> nth i P 0 < n) /\
  (forall i j, i < n -> j < n -> nth i P 0 = nth j P 0 -> i = j).

Section Specification.

Context {F : Type} {SF : Scalar F}.
Local Open Scope scalar_scope.

(** [x -= f j] and [x += f j] for [j] from [lo] to [hi - 1], on a scalar. *)
Definition sub_loop (lo hi : nat) (f : nat -> F) (x : F) : F :=
  for_up lo hi (fun j x => x - f j) x.
Definition add_loop (lo hi : nat) (f : nat -> F) (x : F) : F :=
  for_up lo hi (fun j x => x + f j) x.

(** The sum of [f j] for [lo <= j < hi], added in the order of the loop. *)
Definition sum_range (lo hi : nat) (f : nat -> F) : F :=
  add_loop lo hi f zero.

(** The entry [(r, c)] after the rows below [k] were eliminated with pivot
    [A[k][k]]: the multiplier in column [k], the updated entry right of it. *)
Definition eliminated (A : matrix F) (k r c : nat) : F :=
  if k <? r
  then if c =? k then get A r k / get A k k
       else if k <? c then get A r c - (get A r k / get A k k) * get A k c
       else get A r c
  else get A r c.

(** The [n]-by-[n] buffer whose entry [(i, j)] is [f i j]. *)
Definition build (n : nat) (f : nat -> nat -> F) : matrix F :=
  map (fun i => map (fun j => f i j) (seq 0 n)) (seq 0 n).

(** L: the strict lower part of [A], a diagonal of ones, zeros above. *)
Definition unit_lower (n : nat) (A : matrix F) : matrix F :=
  build n (fun i j => if j <? i then get A i j else if j =? i then one else zero).

(** U: the diagonal of [A] and what is above it, zeros below. *)
Definition upper (n : nat) (A : matrix F) : matrix F :=
  build n (fun i j => if i <=? j then get A i j else zero).

Definition mat_mul (n : nat) (X Y : matrix F) : matrix F :=
  build n (fun i j => sum_range 0 n (fun t => get X i t * get Y t j)).

Definition mat_vec (n : nat) (A : matrix F) (x : vec F) : vec F :=
  map (fun i => sum_range 0 n (fun j => get A i j * vget x j)) (seq 0 n).

(** [permute_matrix] of the driver: [PA[i][j] = A[P[i]][j]]. *)
Definition permute_matrix (n : nat) (P : list nat) (A : matrix F) : matrix F :=
  build n (fun i j => get A (nth i P 0) j).

(** The comparison of the plu driver, inner loop, for row [i]: at the first
    entry where the two matrices differ by more than [tol], [is_equal] is
    cleared and the loop is left by [break]; the second component of the
    state records that the loop was left. *)
Definition driver_compare_row (n : nat) (tol : F) (PL AU : matrix F) (i : nat)
    (is_equal : bool) : bool :=
  fst (for_up 0 n
         (fun j (st : bool * bool) =>
            if snd st then st
            else if fgt (fabs (get PL i j - get AU i j)) tol then (false, true)
            else st)
         (is_equal, false)).

(** The comparison of the plu driver: [is_equal] starts at 1 and every row
    is visited. *)
Definition driver_compare (n : nat) (tol : F) (PL AU : matrix F) : bool :=
  for_up 0 n (driver_compare_row n tol PL AU) true.

(** What the plu driver decides for a matrix: it runs plu, permutes the
    rows of the buffer plu left ([PL]), multiplies that buffer by itself
    ([AU], the sum started at 0 and accumulated over [k]), and compares. *)
Definition plu_driver_verdict (n : nat) (tol : F) (A0 : matrix F) (P0 : list nat)
    : bool :=
  let '(A, P) := plu n A0 P0 in
  driver_compare n tol (permute_matrix n P A) (mat_mul n A A).

(** The original entry [(r, c)] is row [r] of L times column [c] of U, both
    read from [A]: only the terms up to [min r c] are there. *)
Definition lu_rel (a0 : nat -> nat -> F) (A : matrix F) (r c : nat) : Prop :=
  a0 r c =
    sum_range 0 (min r c) (fun j => get A r j * get A j c) +
    (if r <=? c then get A r c else get A r c * get A c c).

(** The entry [(r, c)] holds what is left of the original one after the
    pivots before [k] were eliminated. *)
Definition schur_rel (a0 : nat -> nat -> F) (A : matrix F) (k r c : nat) : Prop :=
  get A r c = a0 r c - sum_range 0 k (fun j => get A r j * get A j c).

(** The buffer before pivot [k] of a right-looking elimination
    (gauss_solve_in_place, plu). *)
Definition elim_inv (n : nat) (a0 : nat -> nat -> F) (k : nat) (A : matrix F) : Prop :=
  square n A /\
  forall r c, r < n -> c < n ->
    if min r c <? k then lu_rel a0 A r c else schur_rel a0 A k r c.

(** The buffer before step [k] of lu_in_place, and after step [k] of
    lu_in_place_reconstruct. *)
Definition lu_inv (n : nat) (a0 : nat -> nat -> F) (k : nat) (A : matrix F) : Prop :=
  square n A /\
  forall r c, r < n -> c < n ->
    if min r c <? k then lu_rel a0 A r c else get A r c = a0 r c.

(** [b] before pivot [k] of the forward elimination. *)
Definition forward_inv (n : nat) (b0 : vec F) (k : nat) (A : matrix F) (b : vec F) : Prop :=
  length b = n /\
  forall i, i < n ->
    vget b i = vget b0 i - sum_range 0 (min i k) (fun j => get A i j * vget b j).

End Specification.

(** ** The driver's inputs *)

(** [A0] and [b0] of test_gauss_solve and test_lu_in_place. *)
Definition A_driver : matrix Qc :=
  map (map Qc_of_Z) [[2; 3; -1]; [4; 1; 2]; [-2; 7; 2]]%Z.
Definition b_driver : vec Qc := map Qc_of_Z [5; 6; 3]%Z.

(** The same in binary64. *)
Definition A_driver_float : matrix float := [[2; 3; -1]; [4; 1; 2]; [-2; 7; 2]]%float.
Definition b_driver_float : vec float := [5; 6; 3]%float.

(** The matrix of the plu driver. *)
Definition A_plu_driver : matrix Qc :=
  map (map Qc_of_Z) [[2; -1; -2]; [-4; 6; 3]; [-4; -2; 8]]%Z.

(** The same in binary64. *)
Definition A_plu_driver_float : matrix float :=
  [[2; -1; -2]; [-4; 6; 3]; [-4; -2; 8]]%float.

(** A matrix whose diagonal entries win every pivot search. *)
Definition A_dominant : matrix Qc := map (map Qc_of_Z) [[4; 1]; [2; 3]]%Z.

(** A matrix whose natural pivot is zero, with a 5 below it. *)
Definition A_zero_pivot : matrix Qc := map (map Qc_of_Z) [[0; 1]; [5; 2]]%Z.

(** A binary64 matrix whose column 0 is zero. *)
Definition A_zero_column : matrix float := [[0; 1; 2]; [-0; 3; 4]; [0; 5; 6]]%float.

(** [A] of test_gauss_solve_with_zero_pivot, in binary64. *)
Definition A_singular_float : matrix float := [[0; 3; -1]; [4; 1; 2]; [-2; 7; 2]]%float.

(** A binary64 matrix whose factors are not exact: 3/7 and 1/7 are rounded. *)
Definition A_rounding : matrix float := [[7; 1; 3]; [3; 5; 1]; [1; 3; 11]]%float.

(** A binary64 matrix whose natural pivot is zero, with a 5 below it, and one
    whose natural pivot is NaN. *)
Definition A_zero_pivot_float : matrix float :=
  [[0; 1; 2]; [5; 2; 1]; [-3; 4; 6]]%float.
Definition A_nan_pivot : matrix float := [[nan; 1]; [5; 2]]%float.

(** [eps] of the driver: the [double] nearest to [1e-6]. *)
Definition eps : float := 0x1.0c6f7a0b5ed8dp-20%float.

(** Modelled from the spec: [norm_dist] of the driver's helpers, whose file
    is not among the sources; the distance of two vectors, the square root
    of the sum of the squared differences of their entries. *)
Definition norm_dist (n : nat) (x y : vec float) : float :=
  PrimFloat.sqrt
    (sum_range 0 n (fun i => ((vget x i - vget y i) * (vget x i - vget y i))%sc)).

(** Modelled from the spec: [frobenius_norm_dist] of the driver's helpers,
    the square root of the sum of the squared elementwise differences of two
    matrices. *)
Definition frobenius_norm_dist (n : nat) (A B : matrix float) : float :=
  PrimFloat.sqrt
    (sum_range 0 n (fun i =>
       sum_range 0 n (fun j =>
         ((get A i j - get B i j) * (get A i j - get B i j))%sc))).

Ltac square_literal := split; [reflexivity | repeat constructor].

(** A rational is not zero when its numerator is not. *)
Ltac Qc_nonzero :=
  let H := fresh in
  intro H; apply (f_equal (fun x : Qc => Qnum (this x))) in H;
  vm_compute in H; discriminate H.

(** Boolean tests on indices, decided in one go. *)
Ltac index_cases :=
  repeat match goal with
    | |- context [?a =? ?b] => destruct (Nat.eqb_spec a b)
    | |- context [?a <? ?b] => destruct (Nat.ltb_spec a b)
    | |- context [?a <=? ?b] => destruct (Nat.leb_spec a b)
    end;
  simpl; try subst; try lia; try congruence.


(** * Loops, lists and buffers *)

Section LoopFacts.

Variable S : Type.
Variable body : nat -> S -> S.

Lemma for_up_from_last (len i : nat) (s : S) :
  for_up_from (Datatypes.S len) i body s = body (i + len) (for_up_from len i body s).
Proof.
  revert i s. induction len as [|len IH]; intros i s.
  - simpl. now rewrite Nat.add_0_r.
  - change (for_up_from (Datatypes.S (Datatypes.S len)) i body s)
      with (for_up_from (Datatypes.S len) (Datatypes.S i) body (body i s)).
    rewrite IH. simpl. now rewrite Nat.add_succ_r.
Qed.

Lemma for_up_nil (lo hi : nat) (s : S) : hi <= lo -> for_up lo hi body s = s.
Proof.
  intros Hle. unfold for_up. now replace (hi - lo) with 0 by lia.
Qed.

Lemma for_up_last (lo hi : nat) (s : S) :
  lo <= hi -> for_up lo (Datatypes.S hi) body s = body hi (for_up lo hi body s).
Proof.
  intros Hle. unfold for_up.
  replace (Datatypes.S hi - lo) with (Datatypes.S (hi - lo)) by lia.
  rewrite for_up_from_last. now replace (lo + (hi - lo)) with hi by lia.
Qed.

Lemma for_up_first (lo hi : nat) (s : S) :
  lo < hi -> for_up lo hi body s = for_up (Datatypes.S lo) hi body (body lo s).
Proof.
  intros Hlt. unfold for_up.
  now replace (hi - lo) with (Datatypes.S (hi - Datatypes.S lo)) by lia.
Qed.

(** The invariant rule of the ascending loop. *)
Lemma for_up_ind (Inv : nat -> S -> Prop) (lo hi : nat) (s : S) :
  lo <= hi ->
  Inv lo s ->
  (forall i t, lo <= i < hi -> Inv i t -> Inv (Datatypes.S i) (body i t)) ->
  Inv hi (for_up lo hi body s).
Proof.
  intros Hle H0 Hstep. induction hi as [|hi IH].
  - rewrite for_up_nil by lia. now replace 0 with lo by lia.
  - destruct (Nat.eq_dec lo (Datatypes.S hi)) as [->|Hne].
    + now rewrite for_up_nil by lia.
    + rewrite for_up_last by lia. apply Hstep; [lia|].
      apply IH; [lia|]. intros i t Hi. apply Hstep. lia.
Qed.

(** The same for a property that does not mention the loop variable. *)
Lemma for_up_preserves (P : S -> Prop) (lo hi : nat) (s : S) :
  P s ->
  (forall i t, lo <= i < hi -> P t -> P (body i t)) ->
  P (for_up lo hi body s).
Proof.
  intros H0 Hstep. destruct (Nat.le_gt_cases lo hi) as [Hle|Hgt].
  - now apply (for_up_ind (fun _ => P)).
  - now rewrite for_up_nil by lia.
Qed.

(** The invariant rule of the descending loop. *)
Lemma for_down_ind (Inv : nat -> S -> Prop) (hi : nat) (s : S) :
  Inv hi s ->
  (forall i t, i < hi -> Inv (Datatypes.S i) t -> Inv i (body i t)) ->
  Inv 0 (for_down hi body s).
Proof.
  revert s. induction hi as [|hi IH]; intros s H0 Hstep; simpl.
  - exact H0.
  - apply IH.
    + apply Hstep; [lia | exact H0].
    + intros i t Hi. apply Hstep. lia.
Qed.

End LoopFacts.

(** Two bodies that agree on the range of the loop give the same loop. *)
Lemma for_up_ext (S : Type) (body body' : nat -> S -> S) (lo hi : nat) (s : S) :
  (forall i t, lo <= i < hi -> body i t = body' i t) ->
  for_up lo hi body s = for_up lo hi body' s.
Proof.
  intros Hext. destruct (Nat.le_gt_cases lo hi) as [Hle|Hgt].
  - induction hi as [|hi IH].
    + now rewrite !for_up_nil by lia.
    + destruct (Nat.eq_dec lo (Datatypes.S hi)) as [->|Hne].
      * now rewrite !for_up_nil by lia.
      * rewrite !for_up_last by lia. rewrite IH; [|intros; apply Hext; lia|lia].
        apply Hext. lia.
  - now rewrite !for_up_nil by lia.
Qed.

Section ListFacts.

Variable T : Type.

Lemma length_upd (i : nat) (v : T) (l : list T) : length (upd i v l) = length l.
Proof.
  revert i. induction l as [|h t IH]; intros [|i]; simpl; auto.
Qed.

Lemma nth_upd_eq (i : nat) (v d : T) (l : list T) :
  i < length l -> nth i (upd i v l) d = v.
Proof.
  revert i. induction l as [|h t IH]; intros [|i] Hi; simpl in *; try lia; auto.
  apply IH. lia.
Qed.

Lemma nth_upd_neq (i j : nat) (v d : T) (l : list T) :
  j <> i -> nth j (upd i v l) d = nth j l d.
Proof.
  revert i j. induction l as [|h t IH]; intros [|i] [|j] Hne; simpl; auto; try lia.
Qed.

Lemma nth_upd (i j : nat) (v d : T) (l : list T) :
  i < length l -> nth j (upd i v l) d = if j =? i then v else nth j l d.
Proof.
  intros Hi. destruct (Nat.eqb_spec j i) as [->|Hne].
  - now apply nth_upd_eq.
  - now apply nth_upd_neq.
Qed.

Lemma upd_same (i : nat) (d : T) (l : list T) : upd i (nth i l d) l = l.
Proof.
  revert i. induction l as [|h t IH]; intros [|i]; simpl; auto.
  now rewrite IH.
Qed.

Lemma upd_overflow (i : nat) (v : T) (l : list T) :
  length l <= i -> upd i v l = l.
Proof.
  revert i. induction l as [|h t IH]; intros [|i] Hi; simpl in *; auto; try lia.
  f_equal. apply IH. lia.
Qed.

Lemma Forall_upd (Q : T -> Prop) (i : nat) (v : T) (l : list T) :
  Forall Q l -> Q v -> Forall Q (upd i v l).
Proof.
  intros Hl Hv. revert i. induction Hl as [|h t Hh Ht IH]; intros [|i]; simpl; auto.
Qed.

Lemma nth_ext_eq (d : T) (l l' : list T) :
  length l = length l' ->
  (forall i, i < length l -> nth i l d = nth i l' d) ->
  l = l'.
Proof.
  revert l'. induction l as [|h t IH]; intros [|h' t'] Hlen Hnth; simpl in *;
    try discriminate; auto.
  f_equal.
  - apply (Hnth 0). lia.
  - apply IH; [lia|]. intros i Hi. apply (Hnth (Datatypes.S i)). lia.
Qed.

End ListFacts.

Section BufferFacts.

Context {F : Type} {SF : Scalar F}.

Lemma length_vset (b : vec F) (i : nat) (v : F) : length (vset b i v) = length b.
Proof. apply length_upd. Qed.

Lemma vget_vset (b : vec F) (i j : nat) (v : F) :
  i < length b -> vget (vset b i v) j = if j =? i then v else vget b j.
Proof. intros Hi. unfold vget, vset. now apply nth_upd. Qed.

Lemma square_rows (n : nat) (A : matrix F) (i : nat) :
  square n A -> i < n -> length (nth i A []) = n.
Proof.
  intros [Hlen Hrows] Hi. rewrite Forall_forall in Hrows.
  apply Hrows, nth_In. lia.
Qed.

Lemma square_set (n : nat) (A : matrix F) (i j : nat) (v : F) :
  square n A -> square n (set A i j v).
Proof.
  intros HA. destruct (Nat.lt_ge_cases i (length A)) as [Hi|Hi].
  - destruct HA as [Hlen Hrows]. unfold set. split.
    + now rewrite length_upd.
    + apply Forall_upd; [exact Hrows|]. rewrite length_upd.
      rewrite Forall_forall in Hrows. now apply Hrows, nth_In.
  - unfold set. now rewrite upd_overflow.
Qed.

Lemma get_set (n : nat) (A : matrix F) (i j r c : nat) (v : F) :
  square n A -> i < n -> j < n ->
  get (set A i j v) r c = if (r =? i) && (c =? j) then v else get A r c.
Proof.
  intros HA Hi Hj. unfold get, set.
  assert (Hrow : length (nth i A []) = n) by now apply square_rows.
  destruct HA as [Hlen _].
  rewrite (@nth_upd _ i r) by lia.
  destruct (Nat.eqb_spec r i) as [->|Hne]; simpl; [|reflexivity].
  now rewrite (@nth_upd _ j c) by lia.
Qed.

(** Two square buffers with the same entries are the same list. *)
Lemma matrix_ext (n : nat) (A B : matrix F) :
  square n A -> square n B ->
  (forall r c, r < n -> c < n -> get A r c = get B r c) ->
  A = B.
Proof.
  intros HA HB Heq. apply (@nth_ext_eq _ []).
  - destruct HA, HB. congruence.
  - intros r Hr. assert (Hr' : r < n) by (destruct HA; lia).
    apply (@nth_ext_eq _ zero).
    + now rewrite !(@square_rows n).
    + intros c Hc. rewrite (@square_rows n) in Hc by assumption.
      now apply Heq.
Qed.

Lemma vec_ext (n : nat) (b b' : vec F) :
  length b = n -> length b' = n ->
  (forall i, i < n -> vget b i = vget b' i) ->
  b = b'.
Proof.
  intros Hb Hb' Heq. apply (@nth_ext_eq _ zero); [congruence|].
  intros i Hi. apply Heq. lia.
Qed.

End BufferFacts.

(** * What each loop of the kernels does to the buffer

    The lemmas of this part hold in every arithmetic: they only follow the
    reads and writes. *)

Section LoopEffects.

Context {F : Type} {SF : Scalar F}.
Local Open Scope scalar_scope.

(** A loop that accumulates into the one cell [(r, c)] terms [g B j] that do
    not read that cell is the scalar loop on that cell. *)
Lemma cell_loop (n : nat) (A : matrix F) (r c lo hi : nat)
    (op : F -> F -> F) (g : matrix F -> nat -> F) :
  square n A -> r < n -> c < n ->
  (forall B j, lo <= j < hi -> square n B ->
     (forall r' c', r' < n -> c' < n -> r' <> r \/ c' <> c ->
        get B r' c' = get A r' c') ->
     g B j = g A j) ->
  let A' := for_up lo hi (fun j B => set B r c (op (get B r c) (g B j))) A in
  square n A' /\
  forall r' c', r' < n -> c' < n ->
    get A' r' c' =
      if (r' =? r) && (c' =? c)
      then for_up lo hi (fun j x => op x (g A j)) (get A r c)
      else get A r' c'.
Proof.
  intros HA Hr Hc Hg A'. subst A'.
  destruct (Nat.le_gt_cases lo hi) as [Hle|Hgt].
  2:{ rewrite !for_up_nil by lia. split; [exact HA|]. intros r' c' _ _.
      destruct (Nat.eqb_spec r' r), (Nat.eqb_spec c' c); simpl; congruence. }
  apply (for_up_ind
           (fun j B => set B r c (op (get B r c) (g B j)))
           (fun m B => square n B /\
              forall r' c', r' < n -> c' < n ->
                get B r' c' =
                  if (r' =? r) && (c' =? c)
                  then for_up lo m (fun j x => op x (g A j)) (get A r c)
                  else get A r' c')); [exact Hle| |].
  - split; [exact HA|]. intros r' c' _ _. rewrite for_up_nil by lia.
    destruct (Nat.eqb_spec r' r), (Nat.eqb_spec c' c); simpl; congruence.
  - intros j B Hj [HB Hget]. split; [now apply square_set|].
    intros r' c' Hr' Hc'. rewrite (get_set _ _ _ HB Hr Hc).
    destruct ((r' =? r) && (c' =? c)) eqn:E.
    + rewrite for_up_last by lia. rewrite (Hget r c Hr Hc).
      rewrite !Nat.eqb_refl. simpl. f_equal. apply Hg; [lia|exact HB|].
      intros r'' c'' Hr'' Hc'' Hne. rewrite (Hget r'' c'' Hr'' Hc'').
      destruct (Nat.eqb_spec r'' r), (Nat.eqb_spec c'' c); simpl; auto; lia.
    + rewrite (Hget r' c' Hr' Hc'), E. reflexivity.
Qed.

(** The same for a cell of a vector, with the matrix only read. *)
Lemma vcell_loop (n : nat) (b : vec F) (i lo hi : nat)
    (op : F -> F -> F) (g : vec F -> nat -> F) :
  length b = n -> i < n ->
  (forall b' j, lo <= j < hi -> length b' = n ->
     (forall i', i' < n -> i' <> i -> vget b' i' = vget b i') ->
     g b' j = g b j) ->
  let b1 := for_up lo hi (fun j b' => vset b' i (op (vget b' i) (g b' j))) b in
  length b1 = n /\
  forall i', i' < n ->
    vget b1 i' =
      if i' =? i
      then for_up lo hi (fun j x => op x (g b j)) (vget b i)
      else vget b i'.
Proof.
  intros Hb Hi Hg b1. subst b1.
  destruct (Nat.le_gt_cases lo hi) as [Hle|Hgt].
  2:{ rewrite !for_up_nil by lia. split; [exact Hb|]. intros i' _.
      destruct (Nat.eqb_spec i' i); congruence. }
  apply (for_up_ind
           (fun j b' => vset b' i (op (vget b' i) (g b' j)))
           (fun m b' => length b' = n /\
              forall i', i' < n ->
                vget b' i' =
                  if i' =? i
                  then for_up lo m (fun j x => op x (g b j)) (vget b i)
                  else vget b i')); [exact Hle| |].
  - split; [exact Hb|]. intros i' _. rewrite for_up_nil by lia.
    destruct (Nat.eqb_spec i' i); congruence.
  - intros j b' Hj [Hb' Hget]. split; [now rewrite length_vset|].
    intros i' Hi'. rewrite vget_vset by lia.
    destruct (Nat.eqb_spec i' i) as [->|Hne].
    + rewrite for_up_last by lia. rewrite (Hget i Hi), Nat.eqb_refl.
      f_equal. apply Hg; [lia|exact Hb'|].
      intros i'' Hi'' Hne. rewrite (Hget i'' Hi'').
      destruct (Nat.eqb_spec i'' i); auto; lia.
    + rewrite (Hget i' Hi'). destruct (Nat.eqb_spec i' i); auto; lia.
Qed.

End LoopEffects.

Section EliminationEffects.

Context {F : Type} {SF : Scalar F}.
Local Open Scope scalar_scope.

(** Lines 105-107 (and 19-21): the entries of row [i] right of column [k]. *)
Lemma row_update_loop (n : nat) (A : matrix F) (i k : nat) :
  square n A -> i < n -> k < n -> i <> k ->
  let A' := for_up (S k) n
              (fun j B => set B i j (get B i j - get B i k * get B k j)) A in
  square n A' /\
  forall r c, r < n -> c < n ->
    get A' r c =
      if (r =? i) && (k <? c)
      then get A i c - get A i k * get A k c
      else get A r c.
Proof.
  intros HA Hi Hk Hik A'. subst A'.
  pose (Inv := fun (m : nat) (B : matrix F) =>
    square n B /\
    forall r c, r < n -> c < n ->
      get B r c =
        if (r =? i) && (k <? c) && (c <? m)
        then get A i c - get A i k * get A k c
        else get A r c).
  assert (Hinv : Inv n (for_up (S k) n
           (fun j B => set B i j (get B i j - get B i k * get B k j)) A)).
  { apply for_up_ind; [lia| |]; unfold Inv.
    - split; [exact HA|]. intros r c Hr Hc. index_cases.
    - intros j B Hj [HB Hget]. split; [now apply square_set|].
      intros r c Hr Hc. rewrite (get_set _ _ _ HB Hi) by lia.
      rewrite !Hget by lia. index_cases. }
  destruct Hinv as [Hsq Hget]. split; [exact Hsq|].
  intros r c Hr Hc. rewrite Hget by lia. index_cases.
Qed.

Lemma plu_eliminate_row_effect (n : nat) (A : matrix F) (k i : nat) :
  square n A -> i < n -> k < i ->
  square n (plu_eliminate_row n k i A) /\
  forall r c, r < n -> c < n ->
    get (plu_eliminate_row n k i A) r c =
      if r =? i then eliminated A k r c else get A r c.
Proof.
  intros HA Hi Hk. unfold plu_eliminate_row.
  set (A1 := set A i k (get A i k / get A k k)).
  assert (HA1 : square n A1) by now apply square_set.
  destruct (@row_update_loop n A1 i k HA1) as [Hsq Hget]; try lia.
  split; [exact Hsq|]. intros r c Hr Hc. rewrite Hget by lia.
  unfold A1, eliminated. rewrite !(get_set _ _ _ HA) by lia.
  index_cases.
Qed.

(** The rows [k < r < m] are done, the others untouched. *)
Lemma plu_eliminate_partial (n : nat) (A : matrix F) (k m : nat) :
  square n A -> k < m <= n ->
  square n (for_up (S k) m (plu_eliminate_row n k) A) /\
  forall r c, r < n -> c < n ->
    get (for_up (S k) m (plu_eliminate_row n k) A) r c =
      if r <? m then eliminated A k r c else get A r c.
Proof.
  intros HA Hk.
  pose (Inv := fun (m : nat) (B : matrix F) =>
    square n B /\
    forall r c, r < n -> c < n ->
      get B r c = if r <? m then eliminated A k r c else get A r c).
  change (Inv m (for_up (S k) m (plu_eliminate_row n k) A)).
  apply for_up_ind; [lia| |]; unfold Inv.
  - split; [exact HA|]. intros r c Hr Hc. unfold eliminated. index_cases.
  - intros i B Hi [HB Hget].
    destruct (@plu_eliminate_row_effect n B k i HB) as [Hsq Hrow]; try lia.
    split; [exact Hsq|]. intros r c Hr Hc. rewrite Hrow by lia.
    unfold eliminated. rewrite !Hget by lia. unfold eliminated. index_cases.
Qed.

Lemma plu_eliminate_effect (n : nat) (A : matrix F) (k : nat) :
  square n A -> k < n ->
  square n (plu_eliminate n k A) /\
  forall r c, r < n -> c < n ->
    get (plu_eliminate n k A) r c = eliminated A k r c.
Proof.
  intros HA Hk. unfold plu_eliminate.
  destruct (@plu_eliminate_partial n A k n HA) as [Hsq Hget]; [lia|].
  split; [exact Hsq|].
  intros r c Hr Hc. rewrite Hget by lia. index_cases.
Qed.

(** gauss_solve_in_place eliminates a row as plu does (lines 18-21 and
    103-107 are the same statements) and updates [b[i]] with the multiplier
    it has just stored. *)
Lemma gauss_eliminate_row_eq (n k i : nat) (A : matrix F) (b : vec F) :
  gauss_eliminate_row n k i (A, b) =
    (plu_eliminate_row n k i A,
     vset b i (vget b i - get (plu_eliminate_row n k i A) i k * vget b k)).
Proof. reflexivity. Qed.

Lemma gauss_eliminate_step_effect (n : nat) (A : matrix F) (b : vec F) (k : nat) :
  square n A -> length b = n -> k < n ->
  fst (gauss_eliminate_step n k (A, b)) = plu_eliminate n k A /\
  length (snd (gauss_eliminate_step n k (A, b))) = n /\
  forall i, i < n ->
    vget (snd (gauss_eliminate_step n k (A, b))) i =
      if k <? i then vget b i - (get A i k / get A k k) * vget b k else vget b i.
Proof.
  intros HA Hb Hk. unfold gauss_eliminate_step, plu_eliminate.
  pose (Inv := fun (m : nat) (Ab : matrix F * vec F) =>
    fst Ab = for_up (S k) m (plu_eliminate_row n k) A /\
    length (snd Ab) = n /\
    forall i, i < n ->
      vget (snd Ab) i =
        if (k <? i) && (i <? m)
        then vget b i - (get A i k / get A k k) * vget b k
        else vget b i).
  assert (Hinv : Inv n (for_up (S k) n (gauss_eliminate_row n k) (A, b))).
  { apply for_up_ind; [lia| |]; unfold Inv.
    - simpl. rewrite for_up_nil by lia. repeat split; auto.
      intros i Hi. index_cases.
    - intros i [A' b'] Hi (HA' & Hb' & Hget).
      rewrite gauss_eliminate_row_eq. simpl fst in *. simpl snd in *.
      rewrite for_up_last by lia. subst A'.
      split; [reflexivity|]. split; [now rewrite length_vset|].
      intros i' Hi'. rewrite vget_vset by lia.
      set (B := for_up (S k) i (plu_eliminate_row n k) A).
      destruct (@plu_eliminate_partial n A k i HA) as [HB HgetB]; [lia|].
      fold B in HB, HgetB.
      destruct (@plu_eliminate_row_effect n B k i HB) as [_ Hrow]; try lia.
      rewrite Hrow by lia. rewrite Nat.eqb_refl. unfold eliminated.
      rewrite !HgetB by lia. rewrite !Hget by lia. unfold eliminated.
      index_cases. }
  destruct Hinv as (H1 & H2 & H3). repeat split; auto.
  intros i Hi. rewrite H3 by lia. index_cases.
Qed.

End EliminationEffects.

Section FactorizationEffects.

Context {F : Type} {SF : Scalar F}.
Local Open Scope scalar_scope.

Variable op : F -> F -> F.

(** Lines 37-40 (with [-]) and 63-65 (with [+]): the cell [(k, i)], [k <= i],
    accumulates [A[k][j] * A[j][i]] over [j < k]. *)
Lemma row_cell_effect (n : nat) (A : matrix F) (k i : nat) :
  square n A -> k <= i < n ->
  let A' := for_up 0 k
              (fun j B => set B k i (op (get B k i) (get B k j * get B j i))) A in
  square n A' /\
  forall r c, r < n -> c < n ->
    get A' r c =
      if (r =? k) && (c =? i)
      then for_up 0 k (fun j x => op x (get A k j * get A j i)) (get A k i)
      else get A r c.
Proof.
  intros HA Hi.
  apply (@cell_loop F SF n A k i 0 k op (fun B j => get B k j * get B j i));
    try lia; try exact HA.
  intros B j Hj HB Hsame. rewrite !Hsame by lia. reflexivity.
Qed.

Lemma row_phase_effect (n : nat) (A : matrix F) (k : nat) :
  square n A -> k < n ->
  let A' := for_up k n
              (fun i B =>
                 for_up 0 k
                   (fun j B => set B k i (op (get B k i) (get B k j * get B j i)))
                   B) A in
  square n A' /\
  forall r c, r < n -> c < n ->
    get A' r c =
      if (r =? k) && (k <=? c)
      then for_up 0 k (fun j x => op x (get A k j * get A j c)) (get A k c)
      else get A r c.
Proof.
  intros HA Hk A'. subst A'.
  pose (Inv := fun (m : nat) (B : matrix F) =>
    square n B /\
    forall r c, r < n -> c < n ->
      get B r c =
        if (r =? k) && (k <=? c) && (c <? m)
        then for_up 0 k (fun j x => op x (get A k j * get A j c)) (get A k c)
        else get A r c).
  assert (Hinv : Inv n (for_up k n
            (fun i B =>
               for_up 0 k
                 (fun j B => set B k i (op (get B k i) (get B k j * get B j i)))
                 B) A)).
  { apply for_up_ind; [lia| |]; unfold Inv.
    - split; [exact HA|]. intros r c Hr Hc. index_cases.
    - intros i B Hi [HB Hget].
      destruct (@row_cell_effect n B k i HB) as [Hsq Hcell]; [lia|].
      split; [exact Hsq|]. intros r c Hr Hc. rewrite Hcell by lia.
      destruct ((r =? k) && (c =? i)) eqn:E.
      + apply andb_true_iff in E. destruct E as [Er Ec].
        apply Nat.eqb_eq in Er, Ec. subst r c.
        replace ((k =? k) && (k <=? i) && (i <? S i)) with true by index_cases.
        rewrite (Hget k i) by lia.
        replace ((k =? k) && (k <=? i) && (i <? i)) with false by index_cases.
        apply for_up_ext. intros j x Hj. rewrite !Hget by lia.
        f_equal. index_cases.
      + rewrite Hget by lia. apply andb_false_iff in E.
        destruct E as [E|E]; apply Nat.eqb_neq in E; index_cases. }
  destruct Hinv as [Hsq Hget]. split; [exact Hsq|].
  intros r c Hr Hc. rewrite Hget by lia. index_cases.
Qed.

(** Lines 43-45 (with [-]) and 58-60 (with [+]): the cell [(i, k)], [k < i],
    accumulates [A[i][j] * A[j][k]] over [j < k]. *)
Lemma col_cell_effect (n : nat) (A : matrix F) (k i : nat) :
  square n A -> k < i < n ->
  let A' := for_up 0 k
              (fun j B => set B i k (op (get B i k) (get B i j * get B j k))) A in
  square n A' /\
  forall r c, r < n -> c < n ->
    get A' r c =
      if (r =? i) && (c =? k)
      then for_up 0 k (fun j x => op x (get A i j * get A j k)) (get A i k)
      else get A r c.
Proof.
  intros HA Hi.
  apply (@cell_loop F SF n A i k 0 k op (fun B j => get B i j * get B j k));
    try lia; try exact HA.
  intros B j Hj HB Hsame. rewrite !Hsame by lia. reflexivity.
Qed.

End FactorizationEffects.

Section LuEffects.

Context {F : Type} {SF : Scalar F}.
Local Open Scope scalar_scope.

(** Row [k] of U, as lines 36-41 leave it. *)
Lemma lu_row_phase_effect (n : nat) (A : matrix F) (k : nat) :
  square n A -> k < n ->
  square n (lu_row_phase n k A) /\
  forall r c, r < n -> c < n ->
    get (lu_row_phase n k A) r c =
      if (r =? k) && (k <=? c)
      then sub_loop 0 k (fun j => get A k j * get A j c) (get A k c)
      else get A r c.
Proof.
  intros HA Hk. exact (@row_phase_effect F SF sub n A k HA Hk).
Qed.

Lemma lu_col_entry_effect (n : nat) (A : matrix F) (k i : nat) :
  square n A -> k < i < n ->
  square n (lu_col_entry k i A) /\
  forall r c, r < n -> c < n ->
    get (lu_col_entry k i A) r c =
      if (r =? i) && (c =? k)
      then sub_loop 0 k (fun j => get A i j * get A j k) (get A i k) / get A k k
      else get A r c.
Proof.
  intros HA Hi. unfold lu_col_entry.
  destruct (@col_cell_effect F SF sub n A k i HA Hi) as [Hsq Hget].
  cbv zeta in Hsq, Hget.
  set (A1 := for_up 0 k
               (fun j B => set B i k (get B i k - get B i j * get B j k)) A) in *.
  split; [now apply square_set|].
  intros r c Hr Hc. rewrite (get_set _ _ _ Hsq) by lia.
  rewrite !Hget by lia. unfold sub_loop. index_cases.
Qed.

(** Column [k] of L, as lines 42-49 leave it. *)
Lemma lu_col_phase_effect (n : nat) (A : matrix F) (k : nat) :
  square n A -> k < n ->
  square n (lu_col_phase n k A) /\
  forall r c, r < n -> c < n ->
    get (lu_col_phase n k A) r c =
      if (c =? k) && (k <? r)
      then sub_loop 0 k (fun j => get A r j * get A j k) (get A r k) / get A k k
      else get A r c.
Proof.
  intros HA Hk. unfold lu_col_phase.
  pose (Inv := fun (m : nat) (B : matrix F) =>
    square n B /\
    forall r c, r < n -> c < n ->
      get B r c =
        if (c =? k) && (k <? r) && (r <? m)
        then sub_loop 0 k (fun j => get A r j * get A j k) (get A r k) / get A k k
        else get A r c).
  assert (Hinv : Inv n (for_up (S k) n (lu_col_entry k) A)).
  { apply for_up_ind; [lia| |]; unfold Inv.
    - split; [exact HA|]. intros r c Hr Hc. index_cases.
    - intros i B Hi [HB Hget].
      destruct (@lu_col_entry_effect n B k i HB) as [Hsq Hcell]; [lia|].
      split; [exact Hsq|]. intros r c Hr Hc. rewrite Hcell by lia.
      destruct ((r =? i) && (c =? k)) eqn:E.
      + apply andb_true_iff in E. destruct E as [Er Ec].
        apply Nat.eqb_eq in Er, Ec. subst r c.
        replace ((k =? k) && (k <? i) && (i <? S i)) with true by index_cases.
        rewrite (Hget i k), (Hget k k) by lia.
        replace ((k =? k) && (k <? i) && (i <? i)) with false by index_cases.
        replace ((k =? k) && (k <? k) && (k <? i)) with false by index_cases.
        f_equal. apply for_up_ext. intros j x Hj. rewrite !Hget by lia.
        f_equal. index_cases.
      + rewrite Hget by lia. apply andb_false_iff in E.
        destruct E as [E|E]; apply Nat.eqb_neq in E; index_cases. }
  destruct Hinv as [Hsq Hget]. split; [exact Hsq|].
  intros r c Hr Hc. rewrite Hget by lia. index_cases.
Qed.

(** Row [k], as lines 62-66 restore it. *)
Lemma reconstruct_row_phase_effect (n : nat) (A : matrix F) (k : nat) :
  square n A -> k < n ->
  square n (reconstruct_row_phase n k A) /\
  forall r c, r < n -> c < n ->
    get (reconstruct_row_phase n k A) r c =
      if (r =? k) && (k <=? c)
      then add_loop 0 k (fun j => get A k j * get A j c) (get A k c)
      else get A r c.
Proof.
  intros HA Hk. exact (@row_phase_effect F SF add n A k HA Hk).
Qed.

Lemma reconstruct_col_entry_effect (n : nat) (A : matrix F) (k i : nat) :
  square n A -> k < i < n ->
  square n (reconstruct_col_entry k i A) /\
  forall r c, r < n -> c < n ->
    get (reconstruct_col_entry k i A) r c =
      if (r =? i) && (c =? k)
      then add_loop 0 k (fun j => get A i j * get A j k) (get A i k * get A k k)
      else get A r c.
Proof.
  intros HA Hi. unfold reconstruct_col_entry.
  set (A1 := set A i k (get A i k * get A k k)).
  assert (HA1 : square n A1) by now apply square_set.
  destruct (@col_cell_effect F SF add n A1 k i HA1 Hi) as [Hsq Hget].
  cbv zeta in Hsq, Hget. split; [exact Hsq|].
  intros r c Hr Hc. rewrite Hget by lia. unfold A1.
  rewrite !(get_set _ _ _ HA) by lia. unfold add_loop.
  destruct ((r =? i) && (c =? k)) eqn:E.
  - rewrite !Nat.eqb_refl. simpl. apply for_up_ext. intros j x Hj.
    rewrite !(get_set _ _ _ HA) by lia. f_equal. index_cases.
  - reflexivity.
Qed.

(** Column [k], as lines 56-61 restore it. *)
Lemma reconstruct_col_phase_effect (n : nat) (A : matrix F) (k : nat) :
  square n A -> k < n ->
  square n (reconstruct_col_phase n k A) /\
  forall r c, r < n -> c < n ->
    get (reconstruct_col_phase n k A) r c =
      if (c =? k) && (k <? r)
      then add_loop 0 k (fun j => get A r j * get A j k) (get A r k * get A k k)
      else get A r c.
Proof.
  intros HA Hk. unfold reconstruct_col_phase.
  pose (Inv := fun (m : nat) (B : matrix F) =>
    square n B /\
    forall r c, r < n -> c < n ->
      get B r c =
        if (c =? k) && (k <? r) && (r <? m)
        then add_loop 0 k (fun j => get A r j * get A j k) (get A r k * get A k k)
        else get A r c).
  assert (Hinv : Inv n (for_up (S k) n (reconstruct_col_entry k) A)).
  { apply for_up_ind; [lia| |]; unfold Inv.
    - split; [exact HA|]. intros r c Hr Hc. index_cases.
    - intros i B Hi [HB Hget].
      destruct (@reconstruct_col_entry_effect n B k i HB) as [Hsq Hcell]; [lia|].
      split; [exact Hsq|]. intros r c Hr Hc. rewrite Hcell by lia.
      destruct ((r =? i) && (c =? k)) eqn:E.
      + apply andb_true_iff in E. destruct E as [Er Ec].
        apply Nat.eqb_eq in Er, Ec. subst r c.
        replace ((k =? k) && (k <? i) && (i <? S i)) with true by index_cases.
        rewrite (Hget i k), (Hget k k) by lia.
        replace ((k =? k) && (k <? i) && (i <? i)) with false by index_cases.
        replace ((k =? k) && (k <? k) && (k <? i)) with false by index_cases.
        apply for_up_ext. intros j x Hj. rewrite !Hget by lia.
        f_equal. index_cases.
      + rewrite Hget by lia. apply andb_false_iff in E.
        destruct E as [E|E]; apply Nat.eqb_neq in E; index_cases. }
  destruct Hinv as [Hsq Hget]. split; [exact Hsq|].
  intros r c Hr Hc. rewrite Hget by lia. index_cases.
Qed.

End LuEffects.

(** * Exact arithmetic: the scalars form a field *)

Lemma range_ind (lo : nat) (P : nat -> Prop) :
  P lo -> (forall hi, lo <= hi -> P hi -> P (S hi)) -> forall hi, lo <= hi -> P hi.
Proof.
  intros H0 Hstep hi Hle. induction hi as [|hi IH].
  - now replace 0 with lo by lia.
  - destruct (Nat.eq_dec lo (S hi)) as [<-|Hne]; [exact H0|].
    apply Hstep; [lia|]. apply IH. lia.
Qed.

Section Sums.

Context {F : Type} {SF : Scalar F}.
Hypothesis Fth : field_theory zero one add mul sub opp div inv (@eq F).
Add Field F_field : Fth.
Local Open Scope scalar_scope.

Lemma sum_range_nil (lo hi : nat) (f : nat -> F) :
  hi <= lo -> sum_range lo hi f = zero.
Proof. intros H. unfold sum_range, add_loop. now rewrite for_up_nil. Qed.

Lemma sum_range_last (lo hi : nat) (f : nat -> F) :
  lo <= hi -> sum_range lo (S hi) f = sum_range lo hi f + f hi.
Proof. intros H. unfold sum_range, add_loop. now rewrite for_up_last. Qed.

Lemma sum_range_ext (lo hi : nat) (f g : nat -> F) :
  (forall j, lo <= j < hi -> f j = g j) -> sum_range lo hi f = sum_range lo hi g.
Proof.
  intros H. unfold sum_range, add_loop. apply for_up_ext.
  intros j x Hj. now rewrite H.
Qed.

Lemma sum_range_zero (lo hi : nat) (f : nat -> F) :
  (forall j, lo <= j < hi -> f j = zero) -> sum_range lo hi f = zero.
Proof.
  intros H. destruct (Nat.le_gt_cases lo hi) as [Hle|Hgt];
    [|now apply sum_range_nil; lia].
  revert H. pattern hi. apply (@range_ind lo); [|intros m Hm IH|exact Hle]; intros H.
  - now apply sum_range_nil.
  - rewrite sum_range_last, IH, H by (auto; try lia; intros; apply H; lia). ring.
Qed.

Lemma sub_loop_sum (lo hi : nat) (f : nat -> F) (x : F) :
  sub_loop lo hi f x = x - sum_range lo hi f.
Proof.
  destruct (Nat.le_gt_cases lo hi) as [Hle|Hgt].
  - pattern hi. apply (@range_ind lo); [|intros m Hm IH|exact Hle].
    + rewrite sum_range_nil by lia. unfold sub_loop. rewrite for_up_nil by lia. ring.
    + rewrite sum_range_last by lia. unfold sub_loop in *.
      rewrite for_up_last by lia. rewrite IH. ring.
  - rewrite sum_range_nil by lia. unfold sub_loop. rewrite for_up_nil by lia. ring.
Qed.

Lemma add_loop_sum (lo hi : nat) (f : nat -> F) (x : F) :
  add_loop lo hi f x = x + sum_range lo hi f.
Proof.
  destruct (Nat.le_gt_cases lo hi) as [Hle|Hgt].
  - pattern hi. apply (@range_ind lo); [|intros m Hm IH|exact Hle].
    + rewrite sum_range_nil by lia. unfold add_loop. rewrite for_up_nil by lia. ring.
    + rewrite sum_range_last by lia. unfold add_loop in *.
      rewrite for_up_last by lia. rewrite IH. ring.
  - rewrite sum_range_nil by lia. unfold add_loop. rewrite for_up_nil by lia. ring.
Qed.

Lemma sum_range_split (lo mid hi : nat) (f : nat -> F) :
  lo <= mid <= hi ->
  sum_range lo hi f = sum_range lo mid f + sum_range mid hi f.
Proof.
  intros [H1 H2]. pattern hi. apply (@range_ind mid); [|intros m Hm IH|exact H2].
  - rewrite (@sum_range_nil mid mid) by lia. ring.
  - rewrite !sum_range_last by lia. rewrite IH. ring.
Qed.

Lemma sum_range_first (lo hi : nat) (f : nat -> F) :
  lo < hi -> sum_range lo hi f = f lo + sum_range (S lo) hi f.
Proof.
  intros H. rewrite (@sum_range_split lo (S lo) hi) by lia.
  rewrite sum_range_last, sum_range_nil by lia. ring.
Qed.

Lemma sum_range_add (lo hi : nat) (f g : nat -> F) :
  sum_range lo hi (fun j => f j + g j) = sum_range lo hi f + sum_range lo hi g.
Proof.
  destruct (Nat.le_gt_cases lo hi) as [Hle|Hgt].
  - pattern hi. apply (@range_ind lo); [|intros m Hm IH|exact Hle].
    + rewrite !sum_range_nil by lia. ring.
    + rewrite !sum_range_last by lia. rewrite IH. ring.
  - rewrite !sum_range_nil by lia. ring.
Qed.

Lemma sum_range_mul_l (lo hi : nat) (x : F) (f : nat -> F) :
  x * sum_range lo hi f = sum_range lo hi (fun j => x * f j).
Proof.
  destruct (Nat.le_gt_cases lo hi) as [Hle|Hgt].
  - pattern hi. apply (@range_ind lo); [|intros m Hm IH|exact Hle].
    + rewrite !sum_range_nil by lia. ring.
    + rewrite !sum_range_last by lia. rewrite <- IH. ring.
  - rewrite !sum_range_nil by lia. ring.
Qed.

Lemma sum_range_mul_r (lo hi : nat) (x : F) (f : nat -> F) :
  sum_range lo hi f * x = sum_range lo hi (fun j => f j * x).
Proof.
  destruct (Nat.le_gt_cases lo hi) as [Hle|Hgt].
  - pattern hi. apply (@range_ind lo); [|intros m Hm IH|exact Hle].
    + rewrite !sum_range_nil by lia. ring.
    + rewrite !sum_range_last by lia. rewrite <- IH. ring.
  - rewrite !sum_range_nil by lia. ring.
Qed.

(** Two finite sums may be taken in either order. *)
Lemma sum_range_swap (lo hi lo' hi' : nat) (f : nat -> nat -> F) :
  sum_range lo hi (fun i => sum_range lo' hi' (fun j => f i j)) =
  sum_range lo' hi' (fun j => sum_range lo hi (fun i => f i j)).
Proof.
  destruct (Nat.le_gt_cases lo hi) as [Hle|Hgt].
  - pattern hi. apply (@range_ind lo); [|intros m Hm IH|exact Hle].
    + rewrite sum_range_nil by lia. symmetry. apply sum_range_zero.
      intros j _. now apply sum_range_nil.
    + rewrite sum_range_last by lia. rewrite IH, <- sum_range_add.
      apply sum_range_ext. intros j _. now rewrite sum_range_last by lia.
  - rewrite sum_range_nil by lia. symmetry. apply sum_range_zero.
    intros j _. apply sum_range_nil. lia.
Qed.

(** A sum whose terms vanish beyond [m] stops at [m]. *)
Lemma sum_range_upto (m n : nat) (f : nat -> F) :
  m < n -> (forall t, m < t < n -> f t = zero) ->
  sum_range 0 n f = sum_range 0 m f + f m.
Proof.
  intros Hm Hz. rewrite (@sum_range_split 0 (S m) n) by lia.
  rewrite sum_range_last by lia.
  rewrite (@sum_range_zero (S m) n) by (intros; apply Hz; lia). ring.
Qed.

(** A sum whose terms vanish before [m] starts at [m]. *)
Lemma sum_range_from (m n : nat) (f : nat -> F) :
  m <= n -> (forall t, t < m -> f t = zero) ->
  sum_range 0 n f = sum_range m n f.
Proof.
  intros Hm Hz. rewrite (@sum_range_split 0 m n) by lia.
  rewrite (@sum_range_zero 0 m) by (intros; apply Hz; lia). ring.
Qed.

End Sums.

(** ** The triangular factors packed in a buffer *)

Section Factors.

Context {F : Type} {SF : Scalar F}.
Local Open Scope scalar_scope.

Lemma square_build (n : nat) (f : nat -> nat -> F) : square n (build n f).
Proof.
  unfold build. split.
  - now rewrite length_map, length_seq.
  - apply Forall_forall. intros row Hin. apply in_map_iff in Hin.
    destruct Hin as (i & <- & _). now rewrite length_map, length_seq.
Qed.

Lemma get_build (n : nat) (f : nat -> nat -> F) (i j : nat) :
  i < n -> j < n -> get (build n f) i j = f i j.
Proof.
  intros Hi Hj. unfold get, build.
  rewrite (nth_indep _ [] (map (fun j => f 0 j) (seq 0 n)))
    by now rewrite length_map, length_seq.
  rewrite (map_nth (fun i => map (fun j => f i j) (seq 0 n)) (seq 0 n) 0 i).
  rewrite seq_nth by lia. simpl.
  rewrite (nth_indep _ zero (f i 0)) by now rewrite length_map, length_seq.
  rewrite (map_nth (fun j => f i j) (seq 0 n) 0 j).
  now rewrite seq_nth by lia.
Qed.

Lemma length_mat_vec (n : nat) (A : matrix F) (x : vec F) :
  length (mat_vec n A x) = n.
Proof. unfold mat_vec. now rewrite length_map, length_seq. Qed.

Lemma vget_mat_vec (n : nat) (A : matrix F) (x : vec F) (i : nat) :
  i < n ->
  vget (mat_vec n A x) i = sum_range 0 n (fun j => get A i j * vget x j).
Proof.
  intros Hi. unfold vget, mat_vec.
  rewrite (nth_indep _ zero (sum_range 0 n (fun j => get A 0 j * vget x j)))
    by now rewrite length_map, length_seq.
  rewrite (map_nth (fun i => sum_range 0 n (fun j => get A i j * vget x j))
             (seq 0 n) 0 i).
  now rewrite seq_nth by lia.
Qed.

End Factors.

Section ExactElimination.

Context {F : Type} {SF : Scalar F}.
Hypothesis Fth : field_theory zero one add mul sub opp div inv (@eq F).
Add Field F_field_elim : Fth.
Local Open Scope scalar_scope.

Variable n : nat.

Lemma eliminated_frame (A : matrix F) (k r c : nat) :
  r <= k \/ c < k -> eliminated A k r c = get A r c.
Proof. intros H. unfold eliminated. index_cases. Qed.

Lemma elim_inv_init (A0 : matrix F) :
  square n A0 -> elim_inv n (get A0) 0 A0.
Proof.
  intros H0. split; [exact H0|]. intros r c Hr Hc. simpl.
  unfold schur_rel. rewrite sum_range_nil by lia. ring.
Qed.

(** One pivot of the elimination takes the invariant from [k] to [k + 1]. *)
Lemma elim_inv_step (a0 : nat -> nat -> F) (k : nat) (A A' : matrix F) :
  elim_inv n a0 k A -> k < n ->
  (S k < n -> get A k k <> zero) ->
  square n A' ->
  (forall r c, r < n -> c < n -> get A' r c = eliminated A k r c) ->
  elim_inv n a0 (S k) A'.
Proof.
  intros [HA Hinv] Hk Hpiv HA' Hget. split; [exact HA'|].
  assert (Hframe : forall r c, r < n -> c < n -> r <= k \/ c < k ->
            get A' r c = get A r c).
  { intros r c Hr Hc Hrc. rewrite Hget by lia. now apply eliminated_frame. }
  assert (Hsum : forall r c m, r < n -> c < n -> m <= k ->
            sum_range 0 m (fun j => get A' r j * get A' j c) =
            sum_range 0 m (fun j => get A r j * get A j c)).
  { intros r c m Hr Hc Hm. apply sum_range_ext. intros j Hj.
    now rewrite !Hframe by lia. }
  intros r c Hr Hc. specialize (Hinv r c Hr Hc).
  destruct (Nat.ltb_spec (min r c) k) as [Hlt|Hge].
  - (* finished before: nothing it reads has changed *)
    replace (min r c <? S k) with true by index_cases.
    unfold lu_rel in *. rewrite Hsum by lia. rewrite Hinv.
    destruct (Nat.leb_spec r c).
    + now rewrite Hframe by lia.
    + now rewrite !Hframe by lia.
  - destruct (Nat.ltb_spec (min r c) (S k)) as [Hlt'|Hge'].
    + (* row k of U and column k of L are finished by this pivot *)
      assert (Hmin : min r c = k) by lia.
      unfold lu_rel, schur_rel in *. rewrite Hmin. rewrite Hsum by lia.
      destruct (Nat.leb_spec r c).
      * rewrite Hframe by lia. rewrite Hinv. ring.
      * assert (c = k) by lia. subst c.
        rewrite (Hget r k), (Hframe k k) by lia. unfold eliminated.
        replace (k <? r) with true by index_cases. rewrite Nat.eqb_refl.
        rewrite Hinv. field. apply Hpiv. lia.
    + (* the trailing block loses the term of pivot k *)
      unfold schur_rel in *. rewrite sum_range_last by lia.
      rewrite Hsum by lia. rewrite (Hget r c), (Hget r k), (Hframe k c) by lia.
      unfold eliminated.
      replace (k <? r) with true by index_cases.
      replace (k <? c) with true by index_cases.
      replace (c =? k) with false by index_cases. rewrite Nat.eqb_refl.
      rewrite Hinv. ring.
Qed.

(** The same pivot on the right-hand side. *)
Lemma forward_inv_step (b0 : vec F) (k : nat) (A A' : matrix F) (b b' : vec F) :
  forward_inv n b0 k A b -> k < n ->
  (forall r c, r < n -> c < n -> get A' r c = eliminated A k r c) ->
  length b' = n ->
  (forall i, i < n ->
     vget b' i =
       if k <? i then vget b i - (get A i k / get A k k) * vget b k else vget b i) ->
  forward_inv n b0 (S k) A' b'.
Proof.
  intros [Hb Hinv] Hk Hget Hb' Hvget. split; [exact Hb'|].
  intros i Hi. rewrite (Hvget i Hi).
  assert (Hsum : forall m, m <= k -> m <= i ->
            sum_range 0 m (fun j => get A' i j * vget b' j) =
            sum_range 0 m (fun j => get A i j * vget b j)).
  { intros m Hm Hm'. apply sum_range_ext. intros j Hj.
    rewrite Hget, Hvget by lia. rewrite eliminated_frame by lia.
    now replace (k <? j) with false by index_cases. }
  destruct (Nat.ltb_spec k i) as [Hlt|Hge].
  - replace (min i (S k)) with (S k) by lia.
    rewrite sum_range_last by lia. rewrite Hsum by lia.
    rewrite (Hget i k), (Hvget k) by lia. unfold eliminated.
    replace (k <? i) with true by index_cases. rewrite Nat.eqb_refl.
    replace (k <? k) with false by index_cases.
    rewrite (Hinv i Hi). replace (min i k) with k by lia. ring.
  - replace (min i (S k)) with i by lia. rewrite Hsum by lia.
    rewrite (Hinv i Hi). now replace (min i k) with i by lia.
Qed.

End ExactElimination.

Section ExactSolve.

Context {F : Type} {SF : Scalar F}.
Hypothesis Fth : field_theory zero one add mul sub opp div inv (@eq F).
Add Field F_field_solve : Fth.
Local Open Scope scalar_scope.

Variable n : nat.

Lemma gauss_state_succ (A0 : matrix F) (b0 : vec F) (k : nat) :
  gauss_state n A0 b0 (S k) = gauss_eliminate_step n k (gauss_state n A0 b0 k).
Proof. unfold gauss_state. apply for_up_last. lia. Qed.

(** The buffers before pivot [k], as long as the pivots used so far were not
    zero. *)
Lemma gauss_state_inv (A0 : matrix F) (b0 : vec F) (k : nat) :
  square n A0 -> length b0 = n ->
  k <= n ->
  (forall j, j < k -> S j < n -> gauss_pivot n A0 b0 j <> zero) ->
  elim_inv n (get A0) k (fst (gauss_state n A0 b0 k)) /\
  forward_inv n b0 k (fst (gauss_state n A0 b0 k)) (snd (gauss_state n A0 b0 k)) /\
  (forall j, j < k -> get (fst (gauss_state n A0 b0 k)) j j = gauss_pivot n A0 b0 j).
Proof.
  intros HA0 Hb0. induction k as [|k IH]; intros Hk Hpiv.
  - unfold gauss_state. rewrite for_up_nil by lia. simpl.
    split; [now apply elim_inv_init|]. split; [|intros j Hj; lia].
    split; [exact Hb0|]. intros i Hi. rewrite Nat.min_0_r.
    rewrite sum_range_nil by lia. ring.
  - destruct IH as (HA & Hb & Hdiag); [lia|intros; apply Hpiv; lia|].
    rewrite gauss_state_succ.
    destruct (gauss_state n A0 b0 k) as [A b] eqn:Est. simpl fst in *. simpl snd in *.
    assert (Hsq : square n A) by apply HA.
    assert (Hlen : length b = n) by apply Hb.
    destruct (@gauss_eliminate_step_effect F SF n A b k Hsq Hlen) as (HA' & Hb' & Hvget);
      [lia|].
    destruct (@plu_eliminate_effect F SF n A k Hsq) as [Hsq' Hget]; [lia|].
    rewrite <- HA' in Hsq', Hget.
    assert (Hpk : get A k k = gauss_pivot n A0 b0 k).
    { unfold gauss_pivot. now rewrite Est. }
    split; [|split].
    + apply (elim_inv_step Fth HA); auto; try lia.
      intros Hlt. rewrite Hpk. apply Hpiv; lia.
    + apply (@forward_inv_step F SF Fth n b0 k A _ b _ Hb); auto; try lia.
    + intros j Hj. rewrite Hget by lia. rewrite eliminated_frame by lia.
      destruct (Nat.eq_dec j k) as [->|Hne]; [exact Hpk|].
      apply Hdiag. lia.
Qed.

(** Lines 26-29: [b[i]] becomes the unknown [i], the rest of [b] stays. *)
Lemma back_substitute_row_effect (A : matrix F) (b : vec F) (i : nat) :
  length b = n -> i < n ->
  length (back_substitute_row n A i b) = n /\
  forall i', i' < n ->
    vget (back_substitute_row n A i b) i' =
      if i' =? i
      then sub_loop (S i) n (fun j => get A i j * vget b j) (vget b i) / get A i i
      else vget b i'.
Proof.
  intros Hb Hi. unfold back_substitute_row.
  destruct (@vcell_loop F SF n b i (S i) n sub
              (fun b' j => get A i j * vget b' j) Hb Hi) as [Hlen Hget].
  { intros b' j Hj Hb' Hsame. now rewrite Hsame by lia. }
  cbv zeta in Hlen, Hget.
  set (b1 := for_up (S i) n
               (fun j b' => vset b' i (vget b' i - get A i j * vget b' j)) b) in *.
  split; [now rewrite length_vset|].
  intros i' Hi'. rewrite vget_vset by lia. rewrite !Hget by lia.
  rewrite Nat.eqb_refl. unfold sub_loop.
  destruct (Nat.eqb_spec i' i); reflexivity.
Qed.

(** Back-substitution solves the upper triangular system read from [A],
    when no diagonal entry of [A] is zero. *)
Lemma back_substitute_solves (A : matrix F) (y : vec F) :
  length y = n ->
  (forall i, i < n -> get A i i <> zero) ->
  length (back_substitute n A y) = n /\
  forall i, i < n ->
    vget y i = sum_range i n (fun c => get A i c * vget (back_substitute n A y) c).
Proof.
  intros Hy Hdiag. unfold back_substitute.
  pose (Inv := fun (m : nat) (b : vec F) =>
    length b = n /\
    (forall i, m <= i < n ->
       vget y i = sum_range i n (fun c => get A i c * vget b c)) /\
    (forall i, i < m -> vget b i = vget y i)).
  assert (Hinv : Inv 0 (for_down n (back_substitute_row n A) y)).
  { apply for_down_ind; unfold Inv.
    - split; [exact Hy|]. split; [intros; lia|reflexivity].
    - intros i b Hi (Hb & Hdone & Htodo).
      destruct (back_substitute_row_effect A b Hb Hi) as [Hlen Hget].
      split; [exact Hlen|]. split.
      + intros i' Hi'. destruct (Nat.eq_dec i' i) as [->|Hne].
        * rewrite (sum_range_first Fth) by lia.
          rewrite (Hget i Hi), Nat.eqb_refl.
          rewrite (sub_loop_sum Fth). rewrite (Htodo i) by lia.
          rewrite (@sum_range_ext _ _ (S i) n
                     (fun c => get A i c * vget (back_substitute_row n A i b) c)
                     (fun c => get A i c * vget b c)).
          -- field. now apply Hdiag.
          -- intros c Hc. rewrite Hget by lia.
             now replace (c =? i) with false by index_cases.
        * rewrite (Hdone i') by lia. apply sum_range_ext. intros c Hc.
          rewrite Hget by lia. now replace (c =? i) with false by index_cases.
      + intros i' Hi'. rewrite Hget by lia.
        replace (i' =? i) with false by index_cases. apply Htodo. lia. }
  destruct Hinv as (Hlen & Hdone & _). split; [exact Hlen|].
  intros i Hi. apply Hdone. lia.
Qed.

End ExactSolve.

Section ExactProduct.

Context {F : Type} {SF : Scalar F}.
Hypothesis Fth : field_theory zero one add mul sub opp div inv (@eq F).
Add Field F_field_product : Fth.
Local Open Scope scalar_scope.

Variable n : nat.

(** Entry [(r, c)] of the product of the two factors read from [A]. *)
Lemma unit_lower_upper_product (A : matrix F) (r c : nat) :
  r < n -> c < n ->
  sum_range 0 n (fun t => get (unit_lower n A) r t * get (upper n A) t c) =
    sum_range 0 (min r c) (fun j => get A r j * get A j c) +
    (if r <=? c then get A r c else get A r c * get A c c).
Proof.
  intros Hr Hc.
  rewrite (@sum_range_ext _ _ 0 n _
             (fun t => (if t <? r then get A r t
                        else if t =? r then one else zero) *
                       (if t <=? c then get A t c else zero))).
  2:{ intros t Ht. unfold unit_lower, upper. now rewrite !get_build by lia. }
  rewrite (@sum_range_upto _ _ Fth (min r c) n) by
    (try lia; intros t Ht; index_cases; ring).
  f_equal.
  - apply sum_range_ext. intros t Ht. index_cases.
  - destruct (Nat.leb_spec r c).
    + rewrite Nat.min_l by lia. index_cases; ring.
    + rewrite Nat.min_r by lia. index_cases; ring.
Qed.

(** When every entry satisfies [lu_rel], the product of the factors is the
    original matrix. *)
Lemma lu_rel_product (a0 : nat -> nat -> F) (A : matrix F) :
  (forall r c, r < n -> c < n -> lu_rel a0 A r c) ->
  mat_mul n (unit_lower n A) (upper n A) = build n a0.
Proof.
  intros Hrel. apply (@matrix_ext _ _ n); try apply square_build.
  intros r c Hr Hc. unfold mat_mul. rewrite !get_build by lia.
  rewrite unit_lower_upper_product by lia. symmetry. now apply Hrel.
Qed.

Lemma build_get (A : matrix F) : square n A -> build n (get A) = A.
Proof.
  intros HA. apply (@matrix_ext _ _ n); [apply square_build|exact HA|].
  intros r c Hr Hc. now rewrite get_build.
Qed.

End ExactProduct.

Section GaussSolveCorrect.

Context {F : Type} {SF : Scalar F}.
Hypothesis Fth : field_theory zero one add mul sub opp div inv (@eq F).
Add Field F_field_gauss : Fth.
Local Open Scope scalar_scope.

Lemma gauss_forward_state (n : nat) (A0 : matrix F) (b0 : vec F) :
  gauss_forward n (A0, b0) = gauss_state n A0 b0 n.
Proof. reflexivity. Qed.

(** C1. In exact arithmetic, for every [n]-by-[n] matrix [A0] and vector
    [b0] of length [n] such that the pivot [A[k][k]] met by each iteration
    [k] of the forward elimination is not zero, the vector that
    gauss_solve_in_place leaves in [b] solves the original system:
    [A0] times it is [b0]. *)
Theorem gauss_solve_in_place_solves (n : nat) (A0 : matrix F) (b0 : vec F) :
  square n A0 -> length b0 = n ->
  (forall k, k < n -> gauss_pivot n A0 b0 k <> zero) ->
  mat_vec n A0 (snd (gauss_solve_in_place n A0 b0)) = b0.
Proof.
  intros HA0 Hb0 Hpiv. unfold gauss_solve_in_place.
  rewrite gauss_forward_state.
  destruct (@gauss_state_inv F SF Fth n A0 b0 n HA0 Hb0) as (HA & Hb & Hdiag);
    [lia|intros; apply Hpiv; lia|].
  destruct (gauss_state n A0 b0 n) as [A y]. simpl fst in *. simpl snd in *.
  destruct HA as [HsqA Hrel]. destruct Hb as [Hy Hfwd].
  destruct (@back_substitute_solves F SF Fth n A y Hy) as [Hx Hsolve].
  { intros i Hi. rewrite Hdiag by lia. now apply Hpiv. }
  set (x := back_substitute n A y) in *.
  apply (@vec_ext _ _ n); [apply length_mat_vec|exact Hb0|].
  intros r Hr. rewrite vget_mat_vec by lia.
  (* A0 = L U, entry by entry *)
  assert (HLU : forall c, c < n ->
            get A0 r c =
            sum_range 0 n (fun t => get (unit_lower n A) r t * get (upper n A) t c)).
  { intros c Hc. rewrite (unit_lower_upper_product Fth) by lia.
    specialize (Hrel r c Hr Hc).
    replace (min r c <? n) with true in Hrel by index_cases. exact Hrel. }
  (* U x = y, row by row *)
  assert (HUx : forall t, t < n ->
            sum_range 0 n (fun c => get (upper n A) t c * vget x c) = vget y t).
  { intros t Ht. rewrite (@sum_range_from _ _ Fth t n) by
      (try lia; intros c Hc; unfold upper; rewrite get_build by lia;
       replace (t <=? c) with false by index_cases; ring).
    rewrite (Hsolve t Ht). apply sum_range_ext. intros c Hc.
    unfold upper. rewrite get_build by lia.
    now replace (t <=? c) with true by index_cases. }
  (* L y = b0, row r *)
  assert (HLy : sum_range 0 n (fun t => get (unit_lower n A) r t * vget y t) =
                vget b0 r).
  { rewrite (@sum_range_upto _ _ Fth r n) by
      (try lia; intros t Ht; unfold unit_lower; rewrite get_build by lia;
       replace (t <? r) with false by index_cases;
       replace (t =? r) with false by index_cases; ring).
    unfold unit_lower at 2. rewrite get_build by lia.
    replace (r <? r) with false by index_cases. rewrite Nat.eqb_refl.
    rewrite (@sum_range_ext _ _ 0 r _ (fun t => get A r t * vget y t)).
    2:{ intros t Ht. unfold unit_lower. rewrite get_build by lia.
        now replace (t <? r) with true by index_cases. }
    rewrite (Hfwd r Hr). replace (min r n) with r by lia. ring. }
  rewrite <- HLy.
  rewrite (@sum_range_ext _ _ 0 n _
             (fun c => sum_range 0 n
                (fun t => get (unit_lower n A) r t * (get (upper n A) t c * vget x c)))).
  2:{ intros c Hc. rewrite (HLU c) by lia. rewrite (sum_range_mul_r Fth).
      apply sum_range_ext. intros t Ht. ring. }
  rewrite (sum_range_swap Fth). apply sum_range_ext. intros t Ht.
  rewrite <- (sum_range_mul_l Fth). rewrite HUx by lia. reflexivity.
Qed.

(** The pivot of the last iteration belongs to the hypothesis of C1: the
    elimination does not divide by it, the back-substitution does, and with
    a zero there the system may have no solution at all. *)
Remark zero_last_pivot_no_solution (x : F) :
  gauss_pivot 1 [[zero]] [one] 0 = zero /\ mat_vec 1 [[zero]] [x] <> [one].
Proof.
  split; [reflexivity|]. intros H.
  apply (F_1_neq_0 Fth).
  transitivity (vget (mat_vec 1 [[zero]] [x]) 0); [now rewrite H|].
  change (zero + zero * x = zero). ring.
Qed.

End GaussSolveCorrect.

Section ExactLu.

Context {F : Type} {SF : Scalar F}.
Hypothesis Fth : field_theory zero one add mul sub opp div inv (@eq F).
Add Field F_field_lu : Fth.
Local Open Scope scalar_scope.

Variable n : nat.

(** [lu_rel] at [(r, c)] reads only entries whose smaller index is at most
    [min r c]. *)
Lemma lu_rel_frame (a0 : nat -> nat -> F) (A A' : matrix F) (r c : nat) :
  r < n -> c < n ->
  (forall r' c', r' < n -> c' < n -> min r' c' <= min r c ->
     get A' r' c' = get A r' c') ->
  lu_rel a0 A r c -> lu_rel a0 A' r c.
Proof.
  intros Hr Hc Hsame Hrel. unfold lu_rel in *. rewrite Hrel. f_equal.
  - apply sum_range_ext. intros j Hj. now rewrite !Hsame by lia.
  - destruct (Nat.leb_spec r c); now rewrite !Hsame by lia.
Qed.

(** Lines 36-49: step [k] of lu_in_place only writes the entries whose
    smaller index is [k]: row [k] of U, then column [k] of L. *)
Lemma lu_step_effect (A : matrix F) (k : nat) :
  square n A -> k < n ->
  square n (lu_step n k A) /\
  forall r c, r < n -> c < n ->
    get (lu_step n k A) r c =
      if (r =? k) && (k <=? c)
      then get A k c - sum_range 0 k (fun j => get A k j * get A j c)
      else if (c =? k) && (k <? r)
      then (get A r k - sum_range 0 k (fun j => get A r j * get A j k)) /
           get (lu_row_phase n k A) k k
      else get A r c.
Proof.
  intros HA Hk. unfold lu_step.
  destruct (@lu_row_phase_effect F SF n A k HA Hk) as [H1 Hget1].
  destruct (@lu_col_phase_effect F SF n _ k H1 Hk) as [H2 Hget2].
  split; [exact H2|]. intros r c Hr Hc. rewrite Hget2 by lia.
  destruct ((c =? k) && (k <? r)) eqn:E.
  - apply andb_true_iff in E. destruct E as [Ec Er].
    apply Nat.eqb_eq in Ec. apply Nat.ltb_lt in Er. subst c.
    replace ((r =? k) && (k <=? k)) with false by index_cases.
    rewrite (sub_loop_sum Fth). f_equal. rewrite (Hget1 r k) by lia.
    replace ((r =? k) && (k <=? k)) with false by index_cases. f_equal.
    apply sum_range_ext. intros j Hj. rewrite !Hget1 by lia.
    replace ((r =? k) && (k <=? j)) with false by index_cases.
    now replace ((j =? k) && (k <=? k)) with false by index_cases.
  - rewrite Hget1 by lia. destruct ((r =? k) && (k <=? c)); [|reflexivity].
    apply (sub_loop_sum Fth).
Qed.

Lemma lu_inv_step (a0 : nat -> nat -> F) (k : nat) (A : matrix F) :
  lu_inv n a0 k A -> k < n ->
  (S k < n -> get (lu_row_phase n k A) k k <> zero) ->
  lu_inv n a0 (S k) (lu_step n k A).
Proof.
  intros [HA Hinv] Hk Hdiv.
  destruct (lu_step_effect HA Hk) as [Hsq Hget]. split; [exact Hsq|].
  assert (Hframe : forall r c, r < n -> c < n -> min r c <> k ->
            get (lu_step n k A) r c = get A r c).
  { intros r c Hr Hc Hne. rewrite Hget by lia. index_cases. }
  assert (Hkk : get (lu_step n k A) k k = get (lu_row_phase n k A) k k).
  { unfold lu_step. destruct (@lu_row_phase_effect F SF n A k HA Hk) as [H1 _].
    destruct (@lu_col_phase_effect F SF n _ k H1 Hk) as [_ Hget2].
    rewrite Hget2 by lia. index_cases. }
  intros r c Hr Hc. generalize (Hinv r c Hr Hc). intros Hrc.
  destruct (Nat.ltb_spec (min r c) k) as [Hlt|Hge].
  - replace (min r c <? S k) with true by index_cases.
    apply (@lu_rel_frame a0 A); auto. intros r' c' Hr' Hc' Hmin.
    apply Hframe; lia.
  - destruct (Nat.ltb_spec (min r c) (S k)) as [Hlt'|Hge'].
    + assert (Hmin : min r c = k) by lia. unfold lu_rel. rewrite Hmin.
      rewrite (@sum_range_ext _ _ 0 k _ (fun j => get A r j * get A j c))
        by (intros j Hj; now rewrite !Hframe by lia).
      destruct (Nat.leb_spec r c).
      * assert (r = k) by lia. subst r. rewrite (Hget k c) by lia.
        replace ((k =? k) && (k <=? c)) with true by index_cases.
        rewrite Hrc. ring.
      * assert (c = k) by lia. subst c. rewrite Hkk. rewrite (Hget r k) by lia.
        replace ((r =? k) && (k <=? k)) with false by index_cases.
        replace ((k =? k) && (k <? r)) with true by index_cases.
        rewrite Hrc. field. apply Hdiv. lia.
    + rewrite Hframe by lia. exact Hrc.
Qed.

(** Lines 56-66: step [k] of lu_in_place_reconstruct writes the same
    entries, and undoes step [k] of lu_in_place. *)
Lemma reconstruct_step_effect (A : matrix F) (k : nat) :
  square n A -> k < n ->
  square n (reconstruct_step n k A) /\
  forall r c, r < n -> c < n ->
    get (reconstruct_step n k A) r c =
      if (r =? k) && (k <=? c)
      then get A k c + sum_range 0 k (fun j => get A k j * get A j c)
      else if (c =? k) && (k <? r)
      then get A r k * get A k k + sum_range 0 k (fun j => get A r j * get A j k)
      else get A r c.
Proof.
  intros HA Hk. unfold reconstruct_step.
  destruct (@reconstruct_col_phase_effect F SF n A k HA Hk) as [H1 Hget1].
  destruct (@reconstruct_row_phase_effect F SF n _ k H1 Hk) as [H2 Hget2].
  split; [exact H2|]. intros r c Hr Hc. rewrite Hget2 by lia.
  destruct ((r =? k) && (k <=? c)) eqn:E.
  - apply andb_true_iff in E. destruct E as [Er Ec].
    apply Nat.eqb_eq in Er. apply Nat.leb_le in Ec. subst r.
    rewrite (add_loop_sum Fth). rewrite (Hget1 k c) by lia.
    replace ((c =? k) && (k <? k)) with false by index_cases. f_equal.
    apply sum_range_ext. intros j Hj. rewrite !Hget1 by lia.
    replace ((j =? k) && (k <? k)) with false by index_cases.
    now replace ((c =? k) && (k <? j)) with false by index_cases.
  - rewrite Hget1 by lia. destruct ((c =? k) && (k <? r)); [|reflexivity].
    apply (add_loop_sum Fth).
Qed.

Lemma reconstruct_inv_step (a0 : nat -> nat -> F) (k : nat) (A : matrix F) :
  lu_inv n a0 (S k) A -> k < n ->
  lu_inv n a0 k (reconstruct_step n k A).
Proof.
  intros [HA Hinv] Hk.
  destruct (reconstruct_step_effect HA Hk) as [Hsq Hget]. split; [exact Hsq|].
  assert (Hframe : forall r c, r < n -> c < n -> min r c <> k ->
            get (reconstruct_step n k A) r c = get A r c).
  { intros r c Hr Hc Hne. rewrite Hget by lia. index_cases. }
  intros r c Hr Hc. generalize (Hinv r c Hr Hc). intros Hrc.
  destruct (Nat.ltb_spec (min r c) k) as [Hlt|Hge].
  - replace (min r c <? S k) with true in Hrc by index_cases.
    apply (@lu_rel_frame a0 A); auto. intros r' c' Hr' Hc' Hmin.
    apply Hframe; lia.
  - destruct (Nat.ltb_spec (min r c) (S k)) as [Hlt'|Hge'].
    + assert (Hmin : min r c = k) by lia. unfold lu_rel in Hrc.
      rewrite Hmin in Hrc. rewrite Hget by lia.
      destruct (Nat.leb_spec r c).
      * assert (r = k) by lia. subst r.
        replace ((k =? k) && (k <=? c)) with true by index_cases.
        rewrite Hrc. ring.
      * assert (c = k) by lia. subst c.
        replace ((r =? k) && (k <=? k)) with false by index_cases.
        replace ((k =? k) && (k <? r)) with true by index_cases.
        rewrite Hrc. ring.
    + rewrite Hframe by lia. exact Hrc.
Qed.

Lemma lu_state_succ (A0 : matrix F) (k : nat) :
  lu_state n A0 (S k) = lu_step n k (lu_state n A0 k).
Proof. unfold lu_state. apply for_up_last. lia. Qed.

Lemma lu_inv_init (A0 : matrix F) : square n A0 -> lu_inv n (get A0) 0 A0.
Proof. intros H0. split; [exact H0|]. intros r c Hr Hc. reflexivity. Qed.

(** The buffer before step [k] of lu_in_place, as long as no divisor used so
    far was zero. *)
Lemma lu_state_inv (A0 : matrix F) (k : nat) :
  square n A0 -> k <= n ->
  (forall j, j < k -> S j < n -> lu_divisor n A0 j <> zero) ->
  lu_inv n (get A0) k (lu_state n A0 k).
Proof.
  intros HA0. induction k as [|k IH]; intros Hk Hdiv.
  - unfold lu_state. rewrite for_up_nil by lia. now apply lu_inv_init.
  - rewrite lu_state_succ. apply lu_inv_step; [|lia|].
    + apply IH; [lia|]. intros j Hj. apply Hdiv. lia.
    + intros Hlt. apply (Hdiv k); lia.
Qed.

(** Reconstruction takes a buffer that satisfies the invariant of
    lu_in_place at [n] back to the original. *)
Lemma reconstruct_from_inv (A0 A : matrix F) :
  square n A0 -> lu_inv n (get A0) n A -> lu_in_place_reconstruct n A = A0.
Proof.
  intros HA0 HA. unfold lu_in_place_reconstruct.
  assert (Hinv : lu_inv n (get A0) 0 (for_down n (reconstruct_step n) A)).
  { apply (for_down_ind (reconstruct_step n) (fun m B => lu_inv n (get A0) m B)).
    - exact HA.
    - intros i B Hi HB. now apply reconstruct_inv_step. }
  destruct Hinv as [Hsq Hget].
  apply (@matrix_ext _ _ n); [exact Hsq|exact HA0|].
  intros r c Hr Hc. exact (Hget r c Hr Hc).
Qed.

End ExactLu.

Section LuCorrect.

Context {F : Type} {SF : Scalar F}.
Hypothesis Fth : field_theory zero one add mul sub opp div inv (@eq F).
Add Field F_field_lu_correct : Fth.
Local Open Scope scalar_scope.

Lemma lu_in_place_state (n : nat) (A0 : matrix F) :
  lu_in_place n A0 = lu_state n A0 n.
Proof. reflexivity. Qed.

(** C3, as amended.  In exact arithmetic, for every [n]-by-[n] matrix [A0]
    such that each [A[k][k]] that lu_in_place divides by is not zero, the
    original matrix is the product L U, with L unit lower triangular, its
    strict lower part read from the final buffer, and U read from the
    diagonal of the final buffer and above.  (In binary64 the two sides can
    differ by rounding.) *)
Theorem lu_in_place_factors (n : nat) (A0 : matrix F) :
  square n A0 ->
  (forall k, S k < n -> lu_divisor n A0 k <> zero) ->
  mat_mul n (unit_lower n (lu_in_place n A0)) (upper n (lu_in_place n A0)) = A0.
Proof.
  intros HA0 Hdiv. rewrite lu_in_place_state.
  destruct (@lu_state_inv F SF Fth n A0 n HA0) as [Hsq Hrel];
    [lia|intros; now apply Hdiv|].
  rewrite (@lu_rel_product F SF Fth n (get A0)).
  - now apply build_get.
  - intros r c Hr Hc. specialize (Hrel r c Hr Hc).
    now replace (min r c <? n) with true in Hrel by index_cases.
Qed.


End LuCorrect.

Section GaussLu.

Context {F : Type} {SF : Scalar F}.
Hypothesis Fth : field_theory zero one add mul sub opp div inv (@eq F).
Add Field F_field_gauss_lu : Fth.
Local Open Scope scalar_scope.

Variable n : nat.

(** The packed factors are unique: two buffers that both satisfy [lu_rel]
    below level [m] agree there, when the diagonal of one is not zero. *)
Lemma lu_rel_agree (a0 : nat -> nat -> F) (A B : matrix F) (m : nat) :
  (forall r c, r < n -> c < n -> min r c < m -> lu_rel a0 A r c) ->
  (forall r c, r < n -> c < n -> min r c < m -> lu_rel a0 B r c) ->
  (forall j, j < m -> S j < n -> get B j j <> zero) ->
  forall r c, r < n -> c < n -> min r c < m -> get A r c = get B r c.
Proof.
  induction m as [|m IH]; intros HA HB Hdiag r c Hr Hc Hmin; [lia|].
  assert (Hbelow : forall r c, r < n -> c < n -> min r c < m ->
            get A r c = get B r c).
  { apply IH; intros; [apply HA|apply HB|apply Hdiag]; lia. }
  destruct (Nat.lt_ge_cases (min r c) m) as [Hlt|Hge]; [now apply Hbelow|].
  assert (Hsum : forall r c, r < n -> c < n ->
            sum_range 0 m (fun j => get A r j * get A j c) =
            sum_range 0 m (fun j => get B r j * get B j c)).
  { intros r' c' Hr' Hc'. apply sum_range_ext. intros j Hj.
    now rewrite !Hbelow by lia. }
  assert (Hrow : forall c, m <= c < n -> get A m c = get B m c).
  { intros c' Hc'. generalize (HA m c'), (HB m c'). unfold lu_rel.
    replace (min m c') with m by lia.
    replace (m <=? c') with true by index_cases.
    rewrite Hsum by lia. intros H1 H2.
    assert (E1 : get A m c' =
                 a0 m c' - sum_range 0 m (fun j => get B m j * get B j c'))
      by (rewrite H1 by lia; ring).
    rewrite E1. rewrite H2 by lia. ring. }
  destruct (Nat.le_gt_cases r c) as [Hle|Hgt].
  - replace r with m by lia. apply Hrow. lia.
  - assert (c = m) by lia. subst c.
    generalize (HA r m), (HB r m). unfold lu_rel.
    replace (min r m) with m by lia.
    replace (r <=? m) with false by index_cases.
    rewrite Hsum by lia. rewrite (Hrow m) by lia. intros H1 H2.
    assert (Hd : get B m m <> zero) by (apply Hdiag; lia).
    assert (E1 : get A r m =
                 (a0 r m - sum_range 0 m (fun j => get B r j * get B j m)) /
                 get B m m)
      by (rewrite H1 by lia; field; exact Hd).
    rewrite E1. rewrite H2 by lia. field. exact Hd.
Qed.

(** The divisor of step [k] of lu_in_place is the diagonal entry [k] of any
    buffer that holds the factors. *)
Lemma lu_divisor_agree (a0 : nat -> nat -> F) (L G : matrix F) (k : nat) :
  lu_inv n a0 k L -> k < n ->
  (forall r c, r < n -> c < n -> min r c < k -> get L r c = get G r c) ->
  lu_rel a0 G k k ->
  get (lu_row_phase n k L) k k = get G k k.
Proof.
  intros [HL Hinv] Hk Hsame HG.
  destruct (@lu_row_phase_effect F SF n L k HL Hk) as [_ Hget].
  rewrite Hget by lia.
  replace ((k =? k) && (k <=? k)) with true by index_cases.
  rewrite (sub_loop_sum Fth). generalize (Hinv k k Hk Hk).
  replace (min k k <? k) with false by index_cases. intros ->.
  unfold lu_rel in HG. rewrite HG. replace (min k k) with k by lia.
  replace (k <=? k) with true by index_cases.
  rewrite (@sum_range_ext _ _ 0 k (fun j => get L k j * get L j k)
             (fun j => get G k j * get G j k))
    by (intros j Hj; now rewrite !Hsame by lia).
  ring.
Qed.

(** C10. In exact arithmetic, for every [n]-by-[n] matrix [A0] whose
    elimination pivots are not zero, the buffer [A] that
    gauss_solve_in_place leaves is the one lu_in_place computes from [A0]:
    the two update orders give the same packed factors, and the buffer is
    already final when the forward elimination ends (back-substitution does
    not write [A]). *)
Theorem gauss_solve_in_place_factors_as_lu (A0 : matrix F) (b0 : vec F) :
  square n A0 -> length b0 = n ->
  (forall k, S k < n -> gauss_pivot n A0 b0 k <> zero) ->
  fst (gauss_solve_in_place n A0 b0) = lu_in_place n A0 /\
  fst (gauss_solve_in_place n A0 b0) = fst (gauss_forward n (A0, b0)).
Proof.
  intros HA0 Hb0 Hpiv.
  assert (Hfst : fst (gauss_solve_in_place n A0 b0) = fst (gauss_forward n (A0, b0))).
  { unfold gauss_solve_in_place. now destruct (gauss_forward n (A0, b0)). }
  split; [|exact Hfst]. rewrite Hfst, gauss_forward_state.
  destruct (@gauss_state_inv F SF Fth n A0 b0 n HA0 Hb0) as ([HG Hrel] & _ & Hdiag);
    [lia|intros; now apply Hpiv|].
  set (G := fst (gauss_state n A0 b0 n)) in *.
  assert (HrelG : forall r c, r < n -> c < n -> lu_rel (get A0) G r c).
  { intros r c Hr Hc. specialize (Hrel r c Hr Hc).
    now replace (min r c <? n) with true in Hrel by index_cases. }
  assert (HdiagG : forall j, S j < n -> get G j j <> zero).
  { intros j Hj. rewrite Hdiag by lia. now apply Hpiv. }
  assert (Hrels : forall k r c, lu_inv n (get A0) k (lu_state n A0 k) ->
            r < n -> c < n -> min r c < k -> lu_rel (get A0) (lu_state n A0 k) r c).
  { intros k r c [_ Hinv] Hr Hc Hmin. specialize (Hinv r c Hr Hc).
    now replace (min r c <? k) with true in Hinv by index_cases. }
  assert (Hlu : forall k, k <= n -> lu_inv n (get A0) k (lu_state n A0 k)).
  { induction k as [|k IH]; intros Hk.
    - unfold lu_state. rewrite for_up_nil by lia. now apply lu_inv_init.
    - rewrite lu_state_succ. apply (lu_inv_step Fth); [apply IH; lia|lia|].
      intros Hlt. rewrite (@lu_divisor_agree (get A0) _ G k); auto; try lia.
      + apply IH. lia.
      + apply (@lu_rel_agree (get A0) (lu_state n A0 k) G k); auto.
        * intros r c Hr Hc Hmin. apply Hrels; auto. apply IH. lia. }
  rewrite lu_in_place_state.
  apply (@matrix_ext _ _ n); [exact HG|apply (Hlu n); lia|].
  intros r c Hr Hc. symmetry.
  apply (@lu_rel_agree (get A0) (lu_state n A0 n) G n); auto; try lia.
Qed.

End GaussLu.

(** * plu: pivot search, swap and permutation *)

Section PluEffects.

Context {F : Type} {SF : Scalar F}.
Local Open Scope scalar_scope.

Lemma plu_init_seq (n : nat) (P : list nat) :
  length P = n -> plu_init n P = seq 0 n.
Proof.
  intros HP. unfold plu_init.
  pose (Inv := fun (m : nat) (Q : list nat) =>
    length Q = n /\
    forall i, i < n -> nth i Q 0 = if i <? m then i else nth i P 0).
  assert (Hinv : Inv n (for_up 0 n (fun i Q => upd i i Q) P)).
  { apply for_up_ind; [lia| |]; unfold Inv.
    - split; [exact HP|]. intros i Hi. index_cases.
    - intros i Q Hi [HQ Hnth]. split; [now rewrite length_upd|].
      intros j Hj. rewrite nth_upd by lia. rewrite Hnth by lia. index_cases. }
  destruct Hinv as [Hlen Hnth]. apply (@nth_ext_eq _ 0).
  - now rewrite length_seq.
  - intros i Hi. rewrite Hnth, seq_nth by lia. index_cases.
Qed.

(** Lines 79-84: the pivot row is one of the rows [k .. n-1]. *)
Lemma plu_max_row_range (n k : nat) (A : matrix F) :
  k < n -> k <= plu_max_row n k A < n.
Proof.
  intros Hk. unfold plu_max_row.
  pose (Inv := fun (i max_row : nat) => k <= max_row < i).
  change (Inv n (for_up (S k) n
    (fun i max_row =>
       if fgt (fabs (get A i k)) (fabs (get A max_row k)) then i else max_row)
    k)).
  apply for_up_ind; [lia| |]; unfold Inv; [lia|].
  intros i m Hi Hm. destruct (fgt _ _); lia.
Qed.

(** Lines 89-93: the two rows change places, entry by entry. *)
Lemma plu_swap_rows_effect (n : nat) (A : matrix F) (k m : nat) :
  square n A -> k < n -> m < n ->
  square n (plu_swap_rows n k m A) /\
  forall r c, r < n -> c < n ->
    get (plu_swap_rows n k m A) r c = get A (swap_index k m r) c.
Proof.
  intros HA Hk Hm. unfold plu_swap_rows.
  pose (Inv := fun (j : nat) (B : matrix F) =>
    square n B /\
    forall r c, r < n -> c < n ->
      get B r c = if c <? j then get A (swap_index k m r) c else get A r c).
  assert (Hinv : Inv n (for_up 0 n
            (fun j B =>
               let temp := get B k j in
               let B := set B k j (get B m j) in
               set B m j temp) A)).
  { apply for_up_ind; [lia| |]; unfold Inv.
    - split; [exact HA|]. intros r c Hr Hc. index_cases.
    - intros j B Hj [HB Hget]. cbv zeta.
      assert (HB1 : square n (set B k j (get B m j))) by now apply square_set.
      split; [now apply square_set|]. intros r c Hr Hc.
      rewrite (get_set _ _ _ HB1) by lia. rewrite (get_set _ _ _ HB) by lia.
      rewrite !Hget by lia. unfold swap_index. index_cases. }
  destruct Hinv as [Hsq Hget]. split; [exact Hsq|].
  intros r c Hr Hc. rewrite Hget by lia. index_cases.
Qed.

(** Lines 96-98: the two entries of [P] change places. *)
Lemma plu_swap_perm_effect (k m : nat) (P : list nat) :
  k < length P -> m < length P ->
  length (plu_swap_perm k m P) = length P /\
  forall r, r < length P ->
    nth r (plu_swap_perm k m P) 0 = nth (swap_index k m r) P 0.
Proof.
  intros Hk Hm. unfold plu_swap_perm. split.
  - now rewrite !length_upd.
  - intros r Hr. rewrite nth_upd by (rewrite length_upd; lia).
    rewrite nth_upd by lia. unfold swap_index. index_cases.
Qed.

Lemma swap_index_lt (n k m r : nat) : k < n -> m < n -> r < n -> swap_index k m r < n.
Proof. intros Hk Hm Hr. unfold swap_index. index_cases. Qed.

Lemma swap_index_inj (k m r r' : nat) :
  swap_index k m r = swap_index k m r' -> r = r'.
Proof. unfold swap_index. index_cases. Qed.

(** Lines 79-99 on both buffers: with [m] the row that lines 79-84 select,
    the rows [k] and [m] of [A] and the entries [k] and [m] of [P] change
    places (nothing moves when [m = k]). *)
Lemma plu_pivot_effect (n k : nat) (A : matrix F) (P : list nat) :
  square n A -> length P = n -> k < n ->
  square n (fst (plu_pivot n k (A, P))) /\
  length (snd (plu_pivot n k (A, P))) = n /\
  (forall r c, r < n -> c < n ->
     get (fst (plu_pivot n k (A, P))) r c =
     get A (swap_index k (plu_max_row n k A) r) c) /\
  (forall r, r < n ->
     nth r (snd (plu_pivot n k (A, P))) 0 =
     nth (swap_index k (plu_max_row n k A) r) P 0).
Proof.
  intros HA HP Hk. unfold plu_pivot.
  pose proof (@plu_max_row_range n k A Hk) as Hm.
  set (m := plu_max_row n k A) in *.
  destruct (Nat.eqb_spec m k) as [E|E]; simpl.
  - rewrite E. split; [exact HA|]. split; [exact HP|]. split.
    + intros r c _ _. f_equal. unfold swap_index. index_cases.
    + intros r _. f_equal. unfold swap_index. index_cases.
  - destruct (@plu_swap_rows_effect n A k m HA) as [Hsq Hget]; try lia.
    destruct (@plu_swap_perm_effect k m P) as [Hlen Hnth]; try lia.
    split; [exact Hsq|]. split; [lia|]. split; [exact Hget|].
    intros r Hr. apply Hnth. lia.
Qed.

Lemma plu_step_eq (n k : nat) (AP : matrix F * list nat) :
  plu_step n k AP =
    (plu_eliminate n k (fst (plu_pivot n k AP)), snd (plu_pivot n k AP)).
Proof. unfold plu_step. now destruct (plu_pivot n k AP). Qed.

Lemma plu_state_succ (n : nat) (A : matrix F) (P : list nat) (k : nat) :
  plu_state n A P (S k) = plu_step n k (plu_state n A P k).
Proof. unfold plu_state. apply for_up_last. lia. Qed.

(** The buffers of plu keep their shape. *)
Lemma plu_state_shape (n : nat) (A : matrix F) (P : list nat) (k : nat) :
  square n A -> length P = n -> k <= n ->
  square n (fst (plu_state n A P k)) /\ length (snd (plu_state n A P k)) = n.
Proof.
  intros HA HP. induction k as [|k IH]; intros Hk.
  - unfold plu_state. rewrite for_up_nil by lia. simpl. split; [exact HA|].
    rewrite plu_init_seq by exact HP. apply length_seq.
  - destruct IH as [Hsq Hlen]; [lia|].
    rewrite plu_state_succ, plu_step_eq. simpl.
    destruct (plu_state n A P k) as [B Q]. simpl in Hsq, Hlen.
    destruct (@plu_pivot_effect n k B Q Hsq Hlen) as (H1 & H2 & _); [lia|].
    split; [|exact H2]. apply plu_eliminate_effect; [exact H1|lia].
Qed.

Lemma injection_on_seq (n : nat) : injection_on n (seq 0 n).
Proof.
  split; [apply length_seq|]. split.
  - intros i Hi. now rewrite seq_nth.
  - intros i j Hi Hj. now rewrite !seq_nth.
Qed.

Lemma injection_on_swap (n k m : nat) (P P' : list nat) :
  injection_on n P -> k < n -> m < n ->
  length P' = n ->
  (forall r, r < n -> nth r P' 0 = nth (swap_index k m r) P 0) ->
  injection_on n P'.
Proof.
  intros (HP & Hlt & Hinj) Hk Hm HP' Hnth. split; [exact HP'|]. split.
  - intros i Hi. rewrite Hnth by lia. apply Hlt. now apply swap_index_lt.
  - intros i j Hi Hj. rewrite !Hnth by lia. intros E.
    apply Hinj in E; try now apply swap_index_lt.
    now apply swap_index_inj in E.
Qed.

Lemma injection_on_Permutation (n : nat) (P : list nat) :
  injection_on n P -> Permutation P (seq 0 n).
Proof.
  intros (HP & Hlt & Hinj). apply NoDup_Permutation_bis.
  - apply (NoDup_nth P 0). intros i j Hi Hj. apply Hinj; lia.
  - rewrite length_seq. lia.
  - intros x Hx. apply (In_nth _ _ 0) in Hx. destruct Hx as (i & Hi & <-).
    apply in_seq. split; [lia|]. simpl. apply Hlt. lia.
Qed.

Lemma plu_state_injection (n : nat) (A : matrix F) (P : list nat) (k : nat) :
  length P = n -> k <= n -> injection_on n (snd (plu_state n A P k)).
Proof.
  intros HP. induction k as [|k IH]; intros Hk.
  - unfold plu_state. rewrite for_up_nil by lia. simpl.
    rewrite plu_init_seq by exact HP. apply injection_on_seq.
  - specialize (IH ltac:(lia)). rewrite plu_state_succ, plu_step_eq. simpl.
    destruct (plu_state n A P k) as [B Q]. simpl in IH.
    pose proof (@plu_max_row_range n k B ltac:(lia)) as Hm.
    unfold plu_pivot. destruct (Nat.eqb_spec (plu_max_row n k B) k) as [E|E]; simpl.
    + exact IH.
    + assert (HQ : length Q = n) by (destruct IH; assumption).
      destruct (@plu_swap_perm_effect k (plu_max_row n k B) Q) as [Hlen Hnth];
        try lia.
      apply (@injection_on_swap n k (plu_max_row n k B) Q); auto; try lia.
      intros r Hr. apply Hnth. lia.
Qed.

(** C5. For every [n] and every input matrix (singular ones included), the
    array [P] that plu leaves is a bijection on [0 .. n-1]: it is a
    rearrangement of [0; 1; ...; n-1], so every value below [n] occurs in it
    exactly once.  ([P] is set to the identity, then only changed by
    exchanging two of its entries.) *)
Theorem plu_permutation_valid (n : nat) (A : matrix F) (P : list nat) :
  length P = n ->
  Permutation (snd (plu n A P)) (seq 0 n) /\
  forall v, v < n -> count_occ Nat.eq_dec (snd (plu n A P)) v = 1.
Proof.
  intros HP.
  assert (Hperm : Permutation (snd (plu n A P)) (seq 0 n)).
  { apply injection_on_Permutation.
    change (plu n A P) with (plu_state n A P n).
    apply plu_state_injection; [exact HP|lia]. }
  split; [exact Hperm|]. intros v Hv.
  rewrite (Permutation_count_occ Nat.eq_dec) in Hperm. rewrite Hperm.
  apply NoDup_count_occ'; [apply seq_NoDup|]. apply in_seq. lia.
Qed.

End PluEffects.

Section ExactPlu.

Context {F : Type} {SF : Scalar F}.
Hypothesis Fth : field_theory zero one add mul sub opp div inv (@eq F).
Add Field F_field_plu : Fth.
Local Open Scope scalar_scope.

Variable n : nat.

(** Exchanging two rows that are not finished, in the buffer and in the
    original matrix, keeps the invariant of the elimination. *)
Lemma elim_inv_swap (a0 a0' : nat -> nat -> F) (k m : nat) (A A' : matrix F) :
  elim_inv n a0 k A -> k <= m < n ->
  square n A' ->
  (forall r c, r < n -> c < n -> get A' r c = get A (swap_index k m r) c) ->
  (forall r c, r < n -> c < n -> a0' r c = a0 (swap_index k m r) c) ->
  elim_inv n a0' k A'.
Proof.
  intros [HA Hinv] Hm HA' Hget Ha0. split; [exact HA'|].
  assert (Hfix : forall j, j < k -> swap_index k m j = j).
  { intros j Hj. unfold swap_index. index_cases. }
  assert (Hlt : forall r, r < n -> swap_index k m r < n).
  { intros r Hr. apply swap_index_lt; lia. }
  assert (Hge : forall r, k <= r -> k <= swap_index k m r).
  { intros r Hr. unfold swap_index. index_cases. }
  assert (Hsum : forall r c t, r < n -> c < n -> t <= k ->
            sum_range 0 t (fun j => get A' r j * get A' j c) =
            sum_range 0 t (fun j => get A (swap_index k m r) j * get A j c)).
  { intros r c t Hr Hc Ht. apply sum_range_ext. intros j Hj.
    rewrite !Hget by lia. now rewrite (Hfix j) by lia. }
  intros r c Hr Hc. generalize (Hinv (swap_index k m r) c (Hlt r Hr) Hc).
  destruct (Nat.lt_ge_cases r k) as [Hrk|Hrk].
  - (* a finished row: it has not moved *)
    rewrite (Hfix r Hrk). replace (min r c <? k) with true by index_cases.
    unfold lu_rel. intros Hrel. rewrite Ha0, Hsum by lia.
    rewrite (Hfix r Hrk). rewrite Hrel. f_equal.
    destruct (Nat.leb_spec r c).
    + rewrite Hget by lia. now rewrite Hfix.
    + rewrite !Hget by lia. now rewrite !Hfix by lia.
  - pose proof (Hge r Hrk) as Hrk'.
    destruct (Nat.lt_ge_cases c k) as [Hck|Hck].
    + (* the multipliers stored in a row move with it *)
      replace (min (swap_index k m r) c <? k) with true by index_cases.
      replace (min r c <? k) with true by index_cases.
      unfold lu_rel. replace (min (swap_index k m r) c) with c by lia.
      replace (min r c) with c by lia.
      replace (swap_index k m r <=? c) with false by index_cases.
      replace (r <=? c) with false by index_cases.
      intros Hrel. rewrite Ha0, Hsum by lia. rewrite Hrel.
      rewrite !Hget by lia. now rewrite (Hfix c) by lia.
    + replace (min (swap_index k m r) c <? k) with false by index_cases.
      replace (min r c <? k) with false by index_cases.
      unfold schur_rel. intros Hrel. rewrite Ha0, Hsum by lia.
      rewrite Hget by lia. exact Hrel.
Qed.

(** The buffers before pivot [k] of plu, as long as no divisor used so far
    was zero: the elimination invariant, against the rows of the original
    matrix in the order [P] records. *)
Lemma plu_state_inv (A0 : matrix F) (P0 : list nat) (k : nat) :
  square n A0 -> length P0 = n -> k <= n ->
  (forall j, j < k -> S j < n -> plu_divisor n A0 P0 j <> zero) ->
  elim_inv n (fun r c => get A0 (nth r (snd (plu_state n A0 P0 k)) 0) c) k
    (fst (plu_state n A0 P0 k)).
Proof.
  intros HA0 HP0. induction k as [|k IH]; intros Hk Hdiv.
  - unfold plu_state. rewrite for_up_nil by lia. simpl.
    rewrite plu_init_seq by exact HP0. split; [exact HA0|].
    intros r c Hr Hc. simpl. unfold schur_rel.
    rewrite seq_nth by lia. rewrite sum_range_nil by lia. simpl. ring.
  - specialize (IH ltac:(lia) ltac:(intros; apply Hdiv; lia)).
    destruct (@plu_state_shape F SF n A0 P0 k HA0 HP0) as [Hsq Hlen]; [lia|].
    assert (Hpiv : S k < n ->
              get (fst (plu_pivot n k (plu_state n A0 P0 k))) k k <> zero).
    { intros Hlt. apply (Hdiv k); lia. }
    rewrite plu_state_succ, plu_step_eq. cbn [fst snd].
    destruct (plu_state n A0 P0 k) as [A P]. cbn [fst snd] in *.
    destruct (@plu_pivot_effect F SF n k A P Hsq Hlen) as (H1 & H2 & H3 & H4);
      [lia|].
    pose proof (@plu_max_row_range F SF n k A ltac:(lia)) as Hm.
    destruct (@plu_eliminate_effect F SF n (fst (plu_pivot n k (A, P))) k H1)
      as [H5 H6]; [lia|].
    apply (@elim_inv_step F SF Fth n _ k (fst (plu_pivot n k (A, P))));
      [|lia|exact Hpiv|exact H5|exact H6].
    apply (@elim_inv_swap (fun r c => get A0 (nth r P 0) c) _ k
             (plu_max_row n k A) A); [exact IH|lia|exact H1|exact H3|].
    intros r c Hr Hc. cbv beta. now rewrite H4 by lia.
Qed.

(** C2, as amended.  In exact arithmetic, for every [n]-by-[n] matrix [A0]
    on which plu divides by no zero pivot, the rows of the original matrix
    in the order [P] records are the product of the factors read from the
    final buffer: [A0[P[i]][j] = (L U)[i][j]] for all [i], [j], with L unit
    lower triangular, its strict lower part read from [A], and U the
    diagonal of [A] and what is above it.  (In binary64 the two sides can
    differ by rounding.) *)
Theorem plu_factors (A0 : matrix F) (P0 : list nat) :
  square n A0 -> length P0 = n ->
  (forall k, S k < n -> plu_divisor n A0 P0 k <> zero) ->
  mat_mul n (unit_lower n (fst (plu n A0 P0))) (upper n (fst (plu n A0 P0))) =
  permute_matrix n (snd (plu n A0 P0)) A0.
Proof.
  intros HA0 HP0 Hdiv. change (plu n A0 P0) with (plu_state n A0 P0 n).
  destruct (@plu_state_inv A0 P0 n HA0 HP0) as [Hsq Hrel];
    [lia|intros; now apply Hdiv|].
  unfold permute_matrix. apply (lu_rel_product Fth).
  intros r c Hr Hc. specialize (Hrel r c Hr Hc).
  now replace (min r c <? n) with true in Hrel by index_cases.
Qed.

End ExactPlu.

(** * Properties that hold in every arithmetic *)

Lemma for_down_preserves (S : Type) (body : nat -> S -> S) (P : S -> Prop)
    (hi : nat) (s : S) :
  P s -> (forall i t, i < hi -> P t -> P (body i t)) -> P (for_down hi body s).
Proof.
  intros H0 Hstep. now apply (for_down_ind body (fun _ => P)).
Qed.

Section Shapes.

Context {F : Type} {SF : Scalar F}.
Local Open Scope scalar_scope.

Variable n : nat.

Lemma square_lu_in_place (A : matrix F) : square n A -> square n (lu_in_place n A).
Proof.
  intros HA. unfold lu_in_place, lu_step, lu_col_phase, lu_row_phase,
    lu_col_entry, lu_row_entry.
  repeat first [ assumption
               | apply square_set
               | apply for_up_preserves; [|intros ? ? _ ?] ].
Qed.

Lemma square_lu_in_place_reconstruct (A : matrix F) :
  square n A -> square n (lu_in_place_reconstruct n A).
Proof.
  intros HA. unfold lu_in_place_reconstruct, reconstruct_step,
    reconstruct_col_phase, reconstruct_row_phase, reconstruct_col_entry,
    reconstruct_row_entry.
  repeat first [ assumption
               | apply square_set
               | apply for_up_preserves; [|intros ? ? _ ?]
               | apply for_down_preserves; [|intros ? ? _ ?] ].
Qed.

Lemma shape_gauss_forward (A : matrix F) (b : vec F) :
  square n A -> length b = n ->
  square n (fst (gauss_forward n (A, b))) /\
  length (snd (gauss_forward n (A, b))) = n.
Proof.
  intros HA Hb. unfold gauss_forward, gauss_eliminate_step.
  apply (for_up_preserves _ (fun Ab => square n (fst Ab) /\ length (snd Ab) = n));
    [now split|].
  intros k Ab _ HAb.
  apply (for_up_preserves _ (fun Ab => square n (fst Ab) /\ length (snd Ab) = n));
    [exact HAb|].
  intros i [A' b'] _ [HA' Hb']. simpl in HA', Hb'.
  rewrite gauss_eliminate_row_eq. simpl. split.
  - unfold plu_eliminate_row.
    repeat first [ assumption
                 | apply square_set
                 | apply for_up_preserves; [|intros ? ? _ ?] ].
  - now rewrite length_vset.
Qed.

Lemma length_back_substitute (A : matrix F) (b : vec F) :
  length b = n -> length (back_substitute n A b) = n.
Proof.
  intros Hb. unfold back_substitute, back_substitute_row.
  apply for_down_preserves; [exact Hb|]. intros i b' _ Hb'.
  rewrite length_vset. apply for_up_preserves; [exact Hb'|].
  intros j b'' _ Hb''. now rewrite length_vset.
Qed.

End Shapes.

(** * The kernels as C runs them return what the kernels compute *)

Lemma int_add_in_range (a b : Z) :
  (int_min <= a + b <= int_max)%Z -> int_add a b = Returns (a + b)%Z.
Proof.
  intros H. unfold int_add.
  replace (int_min <=? a + b)%Z with true by (symmetry; apply Z.leb_le; lia).
  now replace (a + b <=? int_max)%Z with true by (symmetry; apply Z.leb_le; lia).
Qed.

Lemma int_add_succ (k : nat) :
  (Z.of_nat k < int_max)%Z -> int_add (Z.of_nat k) 1 = Returns (Z.of_nat (S k)).
Proof.
  intros H. rewrite int_add_in_range by (unfold int_min; lia).
  f_equal. lia.
Qed.

Section CheckedLoops.

Variables S S' : Type.
Variable R : S -> S' -> Prop.
Variable cbody : Z -> S -> run S.
Variable body : nat -> S' -> S'.

(** An ascending loop of the C code whose body, at every counter of
    [lo .. hi-1], returns what the body of [for_up] computes: the loop exits
    after [hi - lo] iterations, and returns what [for_up] computes. *)
Lemma c_for_up_refines (fuel lo hi : nat) (s : S) (s' : S') :
  (Z.of_nat hi <= int_max)%Z -> hi - lo < fuel -> R s s' ->
  (forall i t t', lo <= i < hi -> R t t' ->
     exists u, cbody (Z.of_nat i) t = Returns u /\ R u (body i t')) ->
  exists u,
    c_for fuel (fun i => (i <? Z.of_nat hi)%Z) incr cbody (Z.of_nat lo) s = Returns u /\
    R u (for_up lo hi body s').
Proof.
  intros Hhi. revert lo s s'. induction fuel as [|fuel' IH]; intros lo s s' Hfuel HR Hbody.
  - lia.
  - cbn [c_for]. destruct (Z.ltb_spec (Z.of_nat lo) (Z.of_nat hi)) as [Hlt|Hge].
    + destruct (Hbody lo s s') as (u & Eu & Ru); [lia|exact HR|].
      rewrite Eu. cbn [run_bind]. unfold incr. rewrite int_add_succ by lia.
      cbn [run_bind]. rewrite for_up_first by lia.
      apply IH; [lia|exact Ru|]. intros i t t' Hi. apply Hbody. lia.
    + exists s. split; [reflexivity|]. now rewrite for_up_nil by lia.
Qed.

(** The same for a descending loop, whose counter ends at [-1]. *)
Lemma c_for_down_refines (fuel hi : nat) (s : S) (s' : S') :
  (Z.of_nat hi <= int_max)%Z -> hi < fuel -> R s s' ->
  (forall i t t', i < hi -> R t t' ->
     exists u, cbody (Z.of_nat i) t = Returns u /\ R u (body i t')) ->
  exists u,
    c_for fuel (fun i => (0 <=? i)%Z) decr cbody (Z.of_nat hi - 1)%Z s = Returns u /\
    R u (for_down hi body s').
Proof.
  intros Hhi. revert hi Hhi s s'.
  induction fuel as [|fuel' IH]; intros hi Hhi s s' Hfuel HR Hbody.
  - lia.
  - cbn [c_for]. destruct hi as [|hi].
    + exists s. split; [reflexivity|exact HR].
    + replace (Z.of_nat (Datatypes.S hi) - 1)%Z with (Z.of_nat hi) by lia.
      replace (0 <=? Z.of_nat hi)%Z with true by (symmetry; apply Z.leb_le; lia).
      destruct (Hbody hi s s') as (u & Eu & Ru); [lia|exact HR|].
      rewrite Eu. cbn [run_bind]. unfold decr.
      rewrite int_add_in_range by (unfold int_min; lia). cbn [run_bind].
      replace (Z.of_nat hi + -1)%Z with (Z.of_nat hi - 1)%Z by lia.
      cbn [for_down]. apply IH; [lia|lia|exact Ru|].
      intros i t t' Hi. apply Hbody. lia.
Qed.

End CheckedLoops.

Section CheckedLoopsSame.

Variable S : Type.
Variable Inv : S -> Prop.
Variable cbody : Z -> S -> run S.
Variable body : nat -> S -> S.

Lemma c_for_up_runs (fuel lo hi : nat) (s : S) :
  (Z.of_nat hi <= int_max)%Z -> hi - lo < fuel -> Inv s ->
  (forall i t, lo <= i < hi -> Inv t ->
     cbody (Z.of_nat i) t = Returns (body i t) /\ Inv (body i t)) ->
  c_for fuel (fun i => (i <? Z.of_nat hi)%Z) incr cbody (Z.of_nat lo) s =
    Returns (for_up lo hi body s) /\
  Inv (for_up lo hi body s).
Proof.
  intros Hhi Hfuel Hs Hbody.
  destruct (@c_for_up_refines S S (fun t t' => t = t' /\ Inv t') cbody body
              fuel lo hi s s Hhi Hfuel) as (u & Eu & -> & Hu).
  - now split.
  - intros i t t' Hi [-> Ht]. exists (body i t'). destruct (Hbody i t' Hi Ht). auto.
  - now split.
Qed.

Lemma c_for_down_runs (fuel hi : nat) (s : S) :
  (Z.of_nat hi <= int_max)%Z -> hi < fuel -> Inv s ->
  (forall i t, i < hi -> Inv t ->
     cbody (Z.of_nat i) t = Returns (body i t) /\ Inv (body i t)) ->
  c_for fuel (fun i => (0 <=? i)%Z) decr cbody (Z.of_nat hi - 1)%Z s =
    Returns (for_down hi body s) /\
  Inv (for_down hi body s).
Proof.
  intros Hhi Hfuel Hs Hbody.
  destruct (@c_for_down_refines S S (fun t t' => t = t' /\ Inv t') cbody body
              fuel hi s s Hhi Hfuel) as (u & Eu & -> & Hu).
  - now split.
  - intros i t t' Hi [-> Ht]. exists (body i t'). destruct (Hbody i t' Hi Ht). auto.
  - now split.
Qed.

End CheckedLoopsSame.

Section CheckedAccess.

Context {F : Type} {SF : Scalar F}.

Lemma read1_in_range (T : Type) (l : list T) (d : T) (i : nat) :
  i < length l -> read1 l (Z.of_nat i) = Returns (nth i l d).
Proof.
  intros Hi. unfold read1.
  replace (Z.of_nat i <? 0)%Z with false by (symmetry; apply Z.ltb_ge; lia).
  rewrite Nat2Z.id. now rewrite (nth_error_nth' l d Hi).
Qed.

Lemma write1_in_range (T : Type) (l : list T) (i : nat) (v : T) :
  i < length l -> write1 l (Z.of_nat i) v = Returns (upd i v l).
Proof.
  intros Hi. unfold write1.
  replace (Z.of_nat i <? 0)%Z with false by (symmetry; apply Z.ltb_ge; lia).
  rewrite Nat2Z.id. now replace (i <? length l) with true by (symmetry; apply Nat.ltb_lt; lia).
Qed.

Lemma read2_in_range (n : nat) (A : matrix F) (i j : nat) :
  square n A -> i < n -> j < n ->
  read2 A (Z.of_nat i) (Z.of_nat j) = Returns (get A i j).
Proof.
  intros HA Hi Hj. unfold read2. destruct HA as [HlenA Hrows].
  rewrite (@read1_in_range _ A [] i) by lia. cbn [run_bind].
  apply read1_in_range.
  rewrite Forall_forall in Hrows. rewrite (Hrows (nth i A [])); [lia|].
  apply nth_In. lia.
Qed.

Lemma write2_in_range (n : nat) (A : matrix F) (i j : nat) (v : F) :
  square n A -> i < n -> j < n ->
  write2 A (Z.of_nat i) (Z.of_nat j) v = Returns (set A i j v).
Proof.
  intros HA Hi Hj. unfold write2. destruct HA as [HlenA Hrows].
  rewrite (@read1_in_range _ A [] i) by lia. cbn [run_bind].
  rewrite write1_in_range.
  - cbn [run_bind]. now rewrite write1_in_range by lia.
  - rewrite Forall_forall in Hrows. rewrite (Hrows (nth i A [])); [lia|].
    apply nth_In. lia.
Qed.

End CheckedAccess.

Ltac in_range :=
  first [ assumption | lia
        | apply square_set; in_range
        | rewrite length_vset; in_range
        | rewrite length_upd; in_range ].

(** One statement of a kernel after the other: every access is inside its
    buffer, every counter inside [int]. *)
Ltac run_steps n :=
  repeat first
    [ progress cbn [run_bind]
    | rewrite (read2_in_range (n:=n)) by in_range
    | rewrite (write2_in_range (n:=n)) by in_range
    | match goal with
      | |- context [read1 ?l (Z.of_nat ?i)] =>
          first [ rewrite (@read1_in_range _ l zero i) by in_range
                | rewrite (@read1_in_range _ l 0 i) by in_range ]
      end
    | rewrite write1_in_range by in_range
    | rewrite int_add_succ by lia ].

Section KernelsRun.

Context {F : Type} {SF : Scalar F}.
Local Open Scope scalar_scope.

Variables fuel n : nat.
Hypothesis n_int : (Z.of_nat n <= int_max)%Z.
Hypothesis enough : n < fuel.

Lemma plu_eliminate_row_runs (k i : nat) (A : matrix F) :
  square n A -> k < n -> i < n ->
  plu_eliminate_row_run fuel (Z.of_nat n) (Z.of_nat k) (Z.of_nat i) A =
    Returns (plu_eliminate_row n k i A) /\
  square n (plu_eliminate_row n k i A).
Proof.
  intros HA Hk Hi. unfold plu_eliminate_row_run, plu_eliminate_row. run_steps n.
  apply (c_for_up_runs (square n)); [exact n_int|lia|in_range|].
  intros j B Hj HB. run_steps n. split; [reflexivity|in_range].
Qed.

Lemma gauss_eliminate_row_runs (k i : nat) (A : matrix F) (b : vec F) :
  square n A -> length b = n -> k < n -> i < n ->
  gauss_eliminate_row_run fuel (Z.of_nat n) (Z.of_nat k) (Z.of_nat i) (A, b) =
    Returns (gauss_eliminate_row n k i (A, b)) /\
  square n (fst (gauss_eliminate_row n k i (A, b))) /\
  length (snd (gauss_eliminate_row n k i (A, b))) = n.
Proof.
  intros HA Hb Hk Hi. unfold gauss_eliminate_row_run, gauss_eliminate_row. run_steps n.
  match goal with |- context [c_for fuel ?t incr ?cb _ ?s] =>
    destruct (@c_for_up_runs _ (square n) cb
                (fun j A => set A i j (get A i j - get A i k * get A k j))
                fuel (S k) n s) as [E HB]
  end; [exact n_int|lia|in_range| |].
  { intros j B Hj HB. run_steps n. split; [reflexivity|in_range]. }
  rewrite E. run_steps n. cbn [fst snd].
  split; [reflexivity|]. split; [exact HB|in_range].
Qed.

Lemma gauss_eliminate_step_runs (k : nat) (Ab : matrix F * vec F) :
  shaped n Ab -> k < n ->
  gauss_eliminate_step_run fuel (Z.of_nat n) (Z.of_nat k) Ab =
    Returns (gauss_eliminate_step n k Ab) /\
  shaped n (gauss_eliminate_step n k Ab).
Proof.
  intros HAb Hk. unfold gauss_eliminate_step_run, gauss_eliminate_step. run_steps n.
  apply (c_for_up_runs (shaped n)); [exact n_int|lia|exact HAb|].
  intros i [A b] Hi [HA Hb]. cbn [fst snd] in HA, Hb.
  destruct (@gauss_eliminate_row_runs k i A b HA Hb) as (E & H1 & H2); [lia|lia|].
  split; [exact E|]. now split.
Qed.

Lemma gauss_forward_runs (Ab : matrix F * vec F) :
  shaped n Ab ->
  gauss_forward_run fuel (Z.of_nat n) Ab = Returns (gauss_forward n Ab) /\
  shaped n (gauss_forward n Ab).
Proof.
  intros HAb. unfold gauss_forward_run, gauss_forward.
  apply (@c_for_up_runs _ (shaped n) _ _ fuel 0 n); [exact n_int|lia|exact HAb|].
  intros k Ab' Hk HAb'. apply gauss_eliminate_step_runs; [exact HAb'|lia].
Qed.

Lemma back_substitute_row_runs (A : matrix F) (i : nat) (b : vec F) :
  square n A -> length b = n -> i < n ->
  back_substitute_row_run fuel (Z.of_nat n) A (Z.of_nat i) b =
    Returns (back_substitute_row n A i b) /\
  length (back_substitute_row n A i b) = n.
Proof.
  intros HA Hb Hi. unfold back_substitute_row_run, back_substitute_row. run_steps n.
  match goal with |- context [c_for fuel ?t incr ?cb _ ?s] =>
    destruct (@c_for_up_runs (list F) (fun b => length b = n) cb
                (fun j b => vset b i (vget b i - get A i j * vget b j))
                fuel (S i) n s) as [E Hb']
  end; [exact n_int|lia|exact Hb| |].
  { intros j b' Hj Hb'. run_steps n. split; [reflexivity|in_range]. }
  rewrite E. run_steps n. split; [reflexivity|in_range].
Qed.

Lemma back_substitute_runs (A : matrix F) (b : vec F) :
  square n A -> length b = n ->
  back_substitute_run fuel (Z.of_nat n) A b = Returns (back_substitute n A b) /\
  length (back_substitute n A b) = n.
Proof.
  intros HA Hb. unfold back_substitute_run, back_substitute.
  rewrite int_add_in_range by (unfold int_min; lia). cbn [run_bind].
  replace (Z.of_nat n + -1)%Z with (Z.of_nat n - 1)%Z by lia.
  apply (c_for_down_runs (fun b : vec F => length b = n)); [exact n_int|lia|exact Hb|].
  intros i b' Hi Hb'. now apply back_substitute_row_runs.
Qed.

Lemma gauss_solve_in_place_runs (A : matrix F) (b : vec F) :
  square n A -> length b = n ->
  gauss_solve_in_place_run fuel (Z.of_nat n) A b =
    Returns (gauss_solve_in_place n A b).
Proof.
  intros HA Hb. unfold gauss_solve_in_place_run, gauss_solve_in_place.
  destruct (@gauss_forward_runs (A, b)) as [E [HA' Hb']]; [now split|].
  rewrite E. cbn [run_bind]. destruct (gauss_forward n (A, b)) as [A' b'].
  cbn [fst snd] in HA', Hb'.
  destruct (@back_substitute_runs A' b' HA' Hb') as [E' _]. now rewrite E'.
Qed.

(** lu_in_place *)

Lemma lu_row_entry_runs (k i : nat) (A : matrix F) :
  square n A -> k < n -> i < n ->
  lu_row_entry_run fuel (Z.of_nat k) (Z.of_nat i) A = Returns (lu_row_entry k i A) /\
  square n (lu_row_entry k i A).
Proof.
  intros HA Hk Hi. unfold lu_row_entry_run, lu_row_entry.
  apply (@c_for_up_runs _ (square n) _ _ fuel 0 k); [lia|lia|exact HA|].
  intros j B Hj HB. run_steps n. split; [reflexivity|in_range].
Qed.

Lemma lu_row_phase_runs (k : nat) (A : matrix F) :
  square n A -> k < n ->
  lu_row_phase_run fuel (Z.of_nat n) (Z.of_nat k) A = Returns (lu_row_phase n k A) /\
  square n (lu_row_phase n k A).
Proof.
  intros HA Hk. unfold lu_row_phase_run, lu_row_phase.
  apply (c_for_up_runs (square n)); [exact n_int|lia|exact HA|].
  intros i B Hi HB. apply lu_row_entry_runs; [exact HB|lia|lia].
Qed.

Lemma lu_col_entry_runs (k i : nat) (A : matrix F) :
  square n A -> k < n -> i < n ->
  lu_col_entry_run fuel (Z.of_nat k) (Z.of_nat i) A = Returns (lu_col_entry k i A) /\
  square n (lu_col_entry k i A).
Proof.
  intros HA Hk Hi. unfold lu_col_entry_run, lu_col_entry.
  match goal with |- context [c_for fuel ?t incr ?cb _ ?s] =>
    destruct (@c_for_up_runs _ (square n) cb
                (fun j A => set A i k (get A i k - get A i j * get A j k))
                fuel 0 k s) as [E HB]
  end; [lia|lia|exact HA| |].
  { intros j B Hj HB. run_steps n. split; [reflexivity|in_range]. }
  change (Z.of_nat 0) with 0%Z in E. rewrite E. run_steps n.
  split; [reflexivity|in_range].
Qed.

Lemma lu_col_phase_runs (k : nat) (A : matrix F) :
  square n A -> k < n ->
  lu_col_phase_run fuel (Z.of_nat n) (Z.of_nat k) A = Returns (lu_col_phase n k A) /\
  square n (lu_col_phase n k A).
Proof.
  intros HA Hk. unfold lu_col_phase_run, lu_col_phase. run_steps n.
  apply (c_for_up_runs (square n)); [exact n_int|lia|exact HA|].
  intros i B Hi HB. apply lu_col_entry_runs; [exact HB|lia|lia].
Qed.

Lemma lu_step_runs (k : nat) (A : matrix F) :
  square n A -> k < n ->
  lu_step_run fuel (Z.of_nat n) (Z.of_nat k) A = Returns (lu_step n k A) /\
  square n (lu_step n k A).
Proof.
  intros HA Hk. unfold lu_step_run, lu_step.
  destruct (@lu_row_phase_runs k A HA Hk) as [E HB]. rewrite E. cbn [run_bind].
  now apply lu_col_phase_runs.
Qed.

Lemma lu_in_place_runs (A : matrix F) :
  square n A ->
  lu_in_place_run fuel (Z.of_nat n) A = Returns (lu_in_place n A).
Proof.
  intros HA. unfold lu_in_place_run, lu_in_place.
  apply (@c_for_up_runs _ (square n) _ _ fuel 0 n); [exact n_int|lia|exact HA|].
  intros k B Hk HB. apply lu_step_runs; [exact HB|lia].
Qed.

(** lu_in_place_reconstruct *)

Lemma reconstruct_col_entry_runs (k i : nat) (A : matrix F) :
  square n A -> k < n -> i < n ->
  reconstruct_col_entry_run fuel (Z.of_nat k) (Z.of_nat i) A =
    Returns (reconstruct_col_entry k i A) /\
  square n (reconstruct_col_entry k i A).
Proof.
  intros HA Hk Hi. unfold reconstruct_col_entry_run, reconstruct_col_entry.
  run_steps n.
  apply (@c_for_up_runs _ (square n) _ _ fuel 0 k); [lia|lia|in_range|].
  intros j B Hj HB. run_steps n. split; [reflexivity|in_range].
Qed.

Lemma reconstruct_col_phase_runs (k : nat) (A : matrix F) :
  square n A -> k < n ->
  reconstruct_col_phase_run fuel (Z.of_nat n) (Z.of_nat k) A =
    Returns (reconstruct_col_phase n k A) /\
  square n (reconstruct_col_phase n k A).
Proof.
  intros HA Hk. unfold reconstruct_col_phase_run, reconstruct_col_phase. run_steps n.
  apply (c_for_up_runs (square n)); [exact n_int|lia|exact HA|].
  intros i B Hi HB. apply reconstruct_col_entry_runs; [exact HB|lia|lia].
Qed.

Lemma reconstruct_row_entry_runs (k i : nat) (A : matrix F) :
  square n A -> k < n -> i < n ->
  reconstruct_row_entry_run fuel (Z.of_nat k) (Z.of_nat i) A =
    Returns (reconstruct_row_entry k i A) /\
  square n (reconstruct_row_entry k i A).
Proof.
  intros HA Hk Hi. unfold reconstruct_row_entry_run, reconstruct_row_entry.
  apply (@c_for_up_runs _ (square n) _ _ fuel 0 k); [lia|lia|exact HA|].
  intros j B Hj HB. run_steps n. split; [reflexivity|in_range].
Qed.

Lemma reconstruct_row_phase_runs (k : nat) (A : matrix F) :
  square n A -> k < n ->
  reconstruct_row_phase_run fuel (Z.of_nat n) (Z.of_nat k) A =
    Returns (reconstruct_row_phase n k A) /\
  square n (reconstruct_row_phase n k A).
Proof.
  intros HA Hk. unfold reconstruct_row_phase_run, reconstruct_row_phase.
  apply (c_for_up_runs (square n)); [exact n_int|lia|exact HA|].
  intros i B Hi HB. apply reconstruct_row_entry_runs; [exact HB|lia|lia].
Qed.

Lemma reconstruct_step_runs (k : nat) (A : matrix F) :
  square n A -> k < n ->
  reconstruct_step_run fuel (Z.of_nat n) (Z.of_nat k) A =
    Returns (reconstruct_step n k A) /\
  square n (reconstruct_step n k A).
Proof.
  intros HA Hk. unfold reconstruct_step_run, reconstruct_step.
  destruct (@reconstruct_col_phase_runs k A HA Hk) as [E HB]. rewrite E.
  cbn [run_bind]. now apply reconstruct_row_phase_runs.
Qed.

Lemma lu_in_place_reconstruct_runs (A : matrix F) :
  square n A ->
  lu_in_place_reconstruct_run fuel (Z.of_nat n) A =
    Returns (lu_in_place_reconstruct n A).
Proof.
  intros HA. unfold lu_in_place_reconstruct_run, lu_in_place_reconstruct.
  rewrite int_add_in_range by (unfold int_min; lia). cbn [run_bind].
  replace (Z.of_nat n + -1)%Z with (Z.of_nat n - 1)%Z by lia.
  apply (c_for_down_runs (square n)); [exact n_int|lia|exact HA|].
  intros k B Hk HB. now apply reconstruct_step_runs.
Qed.

(** plu *)

Lemma plu_init_runs (P : list nat) :
  length P = n ->
  plu_init_run fuel (Z.of_nat n) P = Returns (plu_init n P) /\
  length (plu_init n P) = n.
Proof.
  intros HP. unfold plu_init_run, plu_init.
  apply (@c_for_up_runs _ (fun P : list nat => length P = n) _ _ fuel 0 n);
    [exact n_int|lia|exact HP|].
  intros i Q Hi HQ. run_steps n. rewrite Nat2Z.id. split; [reflexivity|in_range].
Qed.

Lemma plu_max_row_runs (k : nat) (A : matrix F) :
  square n A -> k < n ->
  plu_max_row_run fuel (Z.of_nat n) (Z.of_nat k) A =
    Returns (Z.of_nat (plu_max_row n k A)).
Proof.
  intros HA Hk. unfold plu_max_row_run, plu_max_row. run_steps n.
  match goal with |- context [c_for fuel ?t incr ?cb _ _] =>
    destruct (@c_for_up_refines Z nat (fun m m' => m = Z.of_nat m' /\ m' < n) cb
                (fun i max_row =>
                   if fgt (fabs (get A i k)) (fabs (get A max_row k))
                   then i else max_row)
                fuel (S k) n (Z.of_nat k) k) as (u & E & -> & _)
  end; [exact n_int|lia|now split| |exact E].
  intros i m m' Hi [-> Hm]. run_steps n.
  eexists. split; [reflexivity|]. destruct (fgt _ _); split; [reflexivity|lia|reflexivity|lia].
Qed.

Lemma plu_swap_rows_runs (k m : nat) (A : matrix F) :
  square n A -> k < n -> m < n ->
  plu_swap_rows_run fuel (Z.of_nat n) (Z.of_nat k) (Z.of_nat m) A =
    Returns (plu_swap_rows n k m A) /\
  square n (plu_swap_rows n k m A).
Proof.
  intros HA Hk Hm. unfold plu_swap_rows_run, plu_swap_rows.
  apply (@c_for_up_runs _ (square n) _ _ fuel 0 n); [exact n_int|lia|exact HA|].
  intros j B Hj HB. run_steps n. split; [reflexivity|in_range].
Qed.

Lemma plu_swap_perm_runs (k m : nat) (P : list nat) :
  length P = n -> k < n -> m < n ->
  plu_swap_perm_run (Z.of_nat k) (Z.of_nat m) P = Returns (plu_swap_perm k m P) /\
  length (plu_swap_perm k m P) = n.
Proof.
  intros HP Hk Hm. unfold plu_swap_perm_run, plu_swap_perm. run_steps n.
  split; [reflexivity|in_range].
Qed.

Lemma plu_pivot_runs (k : nat) (AP : matrix F * list nat) :
  shaped n AP -> k < n ->
  plu_pivot_run fuel (Z.of_nat n) (Z.of_nat k) AP = Returns (plu_pivot n k AP) /\
  shaped n (plu_pivot n k AP).
Proof.
  intros HAP Hk. destruct AP as [A P]. destruct HAP as [HA HP]. cbn [fst snd] in HA, HP.
  unfold plu_pivot_run, plu_pivot. rewrite plu_max_row_runs by assumption.
  cbn [run_bind]. pose proof (@plu_max_row_range F SF n k A Hk) as Hm.
  replace (Z.of_nat (plu_max_row n k A) =? Z.of_nat k)%Z
    with (plu_max_row n k A =? k).
  2:{ destruct (Nat.eqb_spec (plu_max_row n k A) k) as [E|E]; symmetry.
      - apply Z.eqb_eq. lia.
      - apply Z.eqb_neq. lia. }
  destruct (negb (plu_max_row n k A =? k)).
  - destruct (@plu_swap_rows_runs k (plu_max_row n k A) A HA Hk) as [E1 H1]; [lia|].
    destruct (@plu_swap_perm_runs k (plu_max_row n k A) P HP Hk) as [E2 H2]; [lia|].
    rewrite E1. cbn [run_bind]. rewrite E2. cbn [run_bind].
    split; [reflexivity|]. now split.
  - split; [reflexivity|]. now split.
Qed.

Lemma plu_eliminate_runs (k : nat) (A : matrix F) :
  square n A -> k < n ->
  plu_eliminate_run fuel (Z.of_nat n) (Z.of_nat k) A = Returns (plu_eliminate n k A) /\
  square n (plu_eliminate n k A).
Proof.
  intros HA Hk. unfold plu_eliminate_run, plu_eliminate. run_steps n.
  apply (c_for_up_runs (square n)); [exact n_int|lia|exact HA|].
  intros i B Hi HB. apply plu_eliminate_row_runs; [exact HB|lia|lia].
Qed.

Lemma plu_step_runs (k : nat) (AP : matrix F * list nat) :
  shaped n AP -> k < n ->
  plu_step_run fuel (Z.of_nat n) (Z.of_nat k) AP = Returns (plu_step n k AP) /\
  shaped n (plu_step n k AP).
Proof.
  intros HAP Hk. unfold plu_step_run, plu_step.
  destruct (@plu_pivot_runs k AP HAP Hk) as [E [H1 H2]]. rewrite E. cbn [run_bind].
  destruct (plu_pivot n k AP) as [A P]. cbn [fst snd] in H1, H2.
  destruct (@plu_eliminate_runs k A H1 Hk) as [E' H']. rewrite E'. cbn [run_bind].
  split; [reflexivity|]. now split.
Qed.

Lemma plu_runs (A : matrix F) (P : list nat) :
  square n A -> length P = n ->
  plu_run fuel (Z.of_nat n) A P = Returns (plu n A P).
Proof.
  intros HA HP. unfold plu_run, plu.
  destruct (@plu_init_runs P HP) as [E HP']. rewrite E. cbn [run_bind].
  apply (@c_for_up_runs _ (shaped n) _ _ fuel 0 n); [exact n_int|lia|now split|].
  intros k AP Hk HAP. apply plu_step_runs; [exact HAP|lia].
Qed.

(** C9. Every kernel runs to completion for every [n] and every content of
    its buffers.  Run as C runs it (an [int] counter, the test before each
    iteration and the step after it, every access checked against the
    buffer), each call returns, and returns the buffers the kernel computes:
    no loop needs more than [n + 1] tests, no access is outside its buffer
    and no counter leaves the range of [int].  A call has no other way to
    end: the kernels return [void], and [run] holds nothing besides the
    buffers. *)
Theorem kernels_run_to_completion (A : matrix F) (b : vec F) (P : list nat) :
  square n A -> length b = n -> length P = n ->
  gauss_solve_in_place_run fuel (Z.of_nat n) A b =
    Returns (gauss_solve_in_place n A b) /\
  lu_in_place_run fuel (Z.of_nat n) A = Returns (lu_in_place n A) /\
  lu_in_place_reconstruct_run fuel (Z.of_nat n) A =
    Returns (lu_in_place_reconstruct n A) /\
  plu_run fuel (Z.of_nat n) A P = Returns (plu n A P).
Proof.
  intros HA Hb HP. split; [|split; [|split]].
  - now apply gauss_solve_in_place_runs.
  - now apply lu_in_place_runs.
  - now apply lu_in_place_reconstruct_runs.
  - now apply plu_runs.
Qed.

End KernelsRun.

Section OneByOne.

Context {F : Type} {SF : Scalar F}.
Local Open Scope scalar_scope.

(** C8. For [n = 1] every kernel reduces to at most one scalar division
    and does not fail: gauss_solve_in_place sets [b[0]] to [b[0] / A[0][0]]
    and leaves [A[0][0]] as it is, lu_in_place and lu_in_place_reconstruct
    leave [A[0][0]] as it is, plu leaves [A[0][0]] as it is and sets
    [P[0] = 0].  (These equations hold for every entry, so also for one
    that is not zero.) *)
Theorem kernels_on_one_by_one (a b : F) (p : nat) :
  gauss_solve_in_place 1 [[a]] [b] = ([[a]], [b / a]) /\
  lu_in_place 1 [[a]] = [[a]] /\
  lu_in_place_reconstruct 1 [[a]] = [[a]] /\
  plu 1 [[a]] [p] = ([[a]], [0]).
Proof. repeat split; reflexivity. Qed.

End OneByOne.

(** * plu: which row the pivot search selects *)

Section PivotSearch.

Context {F : Type} {SF : Scalar F}.
Local Open Scope scalar_scope.

(** When the entry below the diagonal beats the diagonal one and nothing
    further down beats it, lines 79-84 select the row below the diagonal. *)
Lemma plu_max_row_next (n k : nat) (A : matrix F) :
  S k < n ->
  fgt (fabs (get A (S k) k)) (fabs (get A k k)) = true ->
  (forall i, S k < i < n ->
     fgt (fabs (get A i k)) (fabs (get A (S k) k)) = false) ->
  plu_max_row n k A = S k.
Proof.
  intros Hk Hnext Hbelow. unfold plu_max_row.
  rewrite for_up_first by lia. rewrite Hnext.
  apply (for_up_ind _ (fun (_ : nat) (m : nat) => m = S k)); [lia|reflexivity|].
  intros i m Hi ->. now rewrite Hbelow by lia.
Qed.

(** [fabs x > fabs y] is a strict order on magnitudes. *)
Hypothesis fgt_irrefl : forall x : F, fgt x x = false.
Hypothesis fgt_trans :
  forall x y z : F, fgt x y = true -> fgt y z = true -> fgt x z = true.

(** Then no row from [k] on beats the selected one in column [k]. *)
Lemma plu_max_row_maximal (n k : nat) (A : matrix F) (i : nat) :
  k <= i < n ->
  fgt (fabs (get A i k)) (fabs (get A (plu_max_row n k A) k)) = false.
Proof.
  intros Hi. unfold plu_max_row.
  pose (Inv := fun (hi m : nat) =>
    forall j, k <= j < hi -> fgt (fabs (get A j k)) (fabs (get A m k)) = false).
  assert (Hinv : Inv n (for_up (S k) n
    (fun i max_row =>
       if fgt (fabs (get A i k)) (fabs (get A max_row k)) then i else max_row)
    k)).
  { apply for_up_ind; [lia| |]; unfold Inv.
    - intros j Hj. replace j with k by lia. apply fgt_irrefl.
    - intros i' m Hi' Hm j Hj.
      destruct (fgt (fabs (get A i' k)) (fabs (get A m k))) eqn:E.
      + destruct (Nat.eq_dec j i') as [->|Hne]; [apply fgt_irrefl|].
        destruct (fgt (fabs (get A j k)) (fabs (get A i' k))) eqn:E'; [|reflexivity].
        rewrite <- (Hm j) by lia. symmetry. exact (fgt_trans _ _ _ E' E).
      + destruct (Nat.eq_dec j i') as [->|Hne]; [exact E|]. apply Hm. lia. }
  now apply Hinv.
Qed.

End PivotSearch.

Section PivotAndSwap.

Context {F : Type} {SF : Scalar F}.

(** Lines 79-99 and the rest of iteration [k], on the buffers plu holds when
    the iteration starts. *)
Lemma plu_pivot_then_eliminate (n : nat) (A0 : matrix F) (P0 : list nat) (k : nat) :
  square n A0 -> length P0 = n -> k < n ->
  let A := fst (plu_state n A0 P0 k) in
  let P := snd (plu_state n A0 P0 k) in
  let max_row := plu_max_row n k A in
  let A1 := fst (plu_pivot n k (A, P)) in
  let P1 := snd (plu_pivot n k (A, P)) in
  k <= max_row < n /\
  (forall r c, r < n -> c < n -> get A1 r c = get A (swap_index k max_row r) c) /\
  (forall r, r < n -> nth r P1 0 = nth (swap_index k max_row r) P 0) /\
  (max_row = k -> A1 = A /\ P1 = P) /\
  plu_state n A0 P0 (S k) = (plu_eliminate n k A1, P1).
Proof.
  intros HA0 HP0 Hk A P max_row A1 P1.
  destruct (@plu_state_shape F SF n A0 P0 k HA0 HP0) as [HA HP]; [lia|].
  fold A in HA. fold P in HP.
  destruct (@plu_pivot_effect F SF n k A P HA HP Hk) as (H1 & H2 & H3 & H4).
  fold max_row A1 in H3. fold max_row P1 in H4.
  split; [now apply plu_max_row_range|].
  split; [exact H3|]. split; [exact H4|]. split.
  { intros E. unfold A1, P1, plu_pivot. fold max_row. rewrite E.
    rewrite Nat.eqb_refl. simpl. split; reflexivity. }
  rewrite plu_state_succ, plu_step_eq. unfold A1, P1, A, P.
  now destruct (plu_state n A0 P0 k).
Qed.

(** When the row below the diagonal is selected, [P] records it. *)
Lemma plu_next_row_recorded (n : nat) (A : matrix F) (P : list nat) (k : nat) :
  square n A -> length P = n -> S k < n ->
  plu_max_row n k A = S k ->
  nth k (snd (plu_pivot n k (A, P))) 0 = nth (S k) P 0 /\
  nth (S k) (snd (plu_pivot n k (A, P))) 0 = nth k P 0.
Proof.
  intros HA HP Hk Hmax.
  destruct (@plu_pivot_effect F SF n k A P HA HP) as (_ & _ & _ & H4); [lia|].
  rewrite !H4 by lia. rewrite Hmax. unfold swap_index. rewrite Nat.eqb_refl.
  replace (S k =? k) with false by index_cases. rewrite Nat.eqb_refl.
  split; reflexivity.
Qed.

End PivotAndSwap.

(** ** Exact rationals *)

Lemma Qc_fgt_lt (x y : Qc) : fgt x y = true <-> (y < x)%Qc.
Proof.
  simpl. rewrite Qclt_alt. destruct (y ?= x)%Qc; split; congruence.
Qed.

Lemma Qc_fgt_irrefl (x : Qc) : fgt x x = false.
Proof.
  destruct (fgt x x) eqn:E; [|reflexivity].
  apply Qc_fgt_lt in E. now apply Qclt_not_eq in E.
Qed.

Lemma Qc_fgt_trans (x y z : Qc) :
  fgt x y = true -> fgt y z = true -> fgt x z = true.
Proof.
  rewrite !Qc_fgt_lt. intros H1 H2. now apply (Qclt_trans _ y).
Qed.

Lemma Qc_fgt_false (x y : Qc) : fgt x y = false <-> (x <= y)%Qc.
Proof.
  split.
  - intros E. apply Qcnot_lt_le. intros H. apply Qc_fgt_lt in H. congruence.
  - intros H. destruct (fgt x y) eqn:E; [|reflexivity].
    apply Qc_fgt_lt in E. now apply Qcle_not_lt in H.
Qed.

(** ** binary64 *)

Lemma float_zero_not_gt (x y : float) :
  float_zero x -> float_zero y -> fgt (fabs x) (fabs y) = false.
Proof. intros [-> | ->] [-> | ->]; reflexivity. Qed.

Lemma float_zero_div (x y : float) :
  float_zero x -> float_zero y -> (x / y)%sc = nan.
Proof. intros [-> | ->] [-> | ->]; reflexivity. Qed.

(** ** The order of binary64 *)

(** The comparison of two finite numbers of the same sign, exponents first,
    then mantissas, is transitive. *)
Lemma finite_compare_trans (e1 e2 e3 : Z) (m1 m2 m3 : positive) (c : comparison) :
  c <> Eq ->
  match (e1 ?= e2)%Z with Lt => Lt | Gt => Gt | Eq => Pos.compare_cont Eq m1 m2 end = c ->
  match (e2 ?= e3)%Z with Lt => Lt | Gt => Gt | Eq => Pos.compare_cont Eq m2 m3 end = c ->
  match (e1 ?= e3)%Z with Lt => Lt | Gt => Gt | Eq => Pos.compare_cont Eq m1 m3 end = c.
Proof.
  intros Hc H12 H23. change (Pos.compare_cont Eq) with Pos.compare in *.
  destruct (Z.compare_spec e1 e2) as [E1|E1|E1], (Z.compare_spec e2 e3) as [E2|E2|E2],
    (Z.compare_spec e1 e3) as [E3|E3|E3]; subst; try congruence; try lia.
  destruct (Pos.compare_spec m1 m2) as [F1|F1|F1], (Pos.compare_spec m2 m3) as [F2|F2|F2],
    (Pos.compare_spec m1 m3) as [F3|F3|F3]; subst; try congruence; lia.
Qed.

Lemma finite_compare_opp (e1 e2 : Z) (m1 m2 : positive) :
  match (e1 ?= e2)%Z with
  | Lt => Gt | Gt => Lt | Eq => CompOpp (Pos.compare_cont Eq m1 m2)
  end =
  CompOpp match (e1 ?= e2)%Z with
          | Lt => Lt | Gt => Gt | Eq => Pos.compare_cont Eq m1 m2
          end.
Proof. now destruct (e1 ?= e2)%Z. Qed.

Lemma SFcompare_lt_trans (x y z : SpecFloat.spec_float) :
  SpecFloat.SFcompare x y = Some Lt -> SpecFloat.SFcompare y z = Some Lt ->
  SpecFloat.SFcompare x z = Some Lt.
Proof.
  destruct x as [sx|sx| |sx mx ex], y as [sy|sy| |sy my ey], z as [sz|sz| |sz mz ez];
    try destruct sx; try destruct sy; try destruct sz; simpl;
    try discriminate; try reflexivity; intros H1 H2;
    injection H1 as H1; injection H2 as H2; f_equal.
  - rewrite finite_compare_opp in *. apply (f_equal CompOpp) in H1, H2.
    rewrite CompOpp_involutive in H1, H2. simpl in H1, H2.
    rewrite (@finite_compare_trans ex ey ez mx my mz Gt); [reflexivity|discriminate|assumption|assumption].
  - now apply (@finite_compare_trans ex ey ez mx my mz Lt).
Qed.

Lemma SFcompare_antisym (x y : SpecFloat.spec_float) :
  SpecFloat.SFcompare y x = option_map CompOpp (SpecFloat.SFcompare x y).
Proof.
  destruct x as [sx|sx| |sx mx ex], y as [sy|sy| |sy my ey];
    try destruct sx; try destruct sy; simpl; try reflexivity; f_equal.
  - rewrite (Z.compare_antisym ex ey). destruct (ex ?= ey)%Z; simpl; try reflexivity.
    change (Pos.compare_cont Eq) with Pos.compare.
    now rewrite (Pos.compare_antisym mx my).
  - rewrite (Z.compare_antisym ex ey). destruct (ex ?= ey)%Z; simpl; try reflexivity.
    change (Pos.compare_cont Eq) with Pos.compare. apply Pos.compare_antisym.
Qed.

Lemma SFcompare_refl (x : SpecFloat.spec_float) :
  SpecFloat.SFcompare x x = Some Eq \/ SpecFloat.SFcompare x x = None.
Proof.
  destruct x as [sx|sx| |sx mx ex]; try destruct sx; simpl; auto;
    rewrite Z.compare_refl; change (Pos.compare_cont Eq mx mx) with (Pos.compare mx mx);
    rewrite Pos.compare_refl; auto.
Qed.

(** [>] on binary64 is irreflexive and transitive: a strict order, in which
    NaN is comparable with nothing. *)
Lemma float_fgt_irrefl (x : float) : fgt x x = false.
Proof.
  simpl. rewrite FloatAxioms.ltb_spec. unfold SpecFloat.SFltb.
  now destruct (SFcompare_refl (FloatOps.Prim2SF x)) as [-> | ->].
Qed.

Lemma float_fgt_trans (x y z : float) :
  fgt x y = true -> fgt y z = true -> fgt x z = true.
Proof.
  simpl. rewrite !FloatAxioms.ltb_spec. unfold SpecFloat.SFltb.
  destruct (SpecFloat.SFcompare (FloatOps.Prim2SF y) (FloatOps.Prim2SF x)) as [[| |]|] eqn:E1;
    try discriminate.
  destruct (SpecFloat.SFcompare (FloatOps.Prim2SF z) (FloatOps.Prim2SF y)) as [[| |]|] eqn:E2;
    try discriminate.
  intros _ _. now rewrite (SFcompare_lt_trans _ _ _ E2 E1).
Qed.

Lemma float_abs_not_nan (x : float) : is_nan x = false -> is_nan (abs x) = false.
Proof.
  unfold is_nan. rewrite !FloatAxioms.eqb_spec, FloatAxioms.abs_spec.
  unfold SpecFloat.SFeqb.
  destruct (FloatOps.Prim2SF x) as [s|s| |s m e]; simpl; try discriminate; try reflexivity.
  intros _. rewrite Z.compare_refl.
  change (Pos.compare_cont Eq m m) with (Pos.compare m m).
  now rewrite Pos.compare_refl.
Qed.

(** Without NaN the order is total: what is not greater is less or equal. *)
Lemma float_not_gt_le (x y : float) :
  is_nan x = false -> is_nan y = false -> fgt x y = false -> (x <=? y)%float = true.
Proof.
  unfold is_nan. simpl. rewrite !FloatAxioms.eqb_spec, FloatAxioms.ltb_spec, FloatAxioms.leb_spec.
  unfold SpecFloat.SFeqb, SpecFloat.SFltb, SpecFloat.SFleb.
  rewrite (SFcompare_antisym (FloatOps.Prim2SF x) (FloatOps.Prim2SF y)).
  destruct (FloatOps.Prim2SF x) as [sx|sx| |sx mx ex], (FloatOps.Prim2SF y) as [sy|sy| |sy my ey];
    try discriminate; intros _ _;
    match goal with |- context [SpecFloat.SFcompare ?a ?b] =>
      destruct (SpecFloat.SFcompare a b) as [[| |]|] eqn:E
    end; simpl; try discriminate; try reflexivity;
    try destruct sx; try destruct sy; simpl in E; discriminate.
Qed.

(** C6, as amended.  In every arithmetic, on the buffers that the run in
    that arithmetic holds when iteration [k] starts: plu selects as
    [max_row] a row among [k .. n-1]; where [>] is a strict order, no entry
    of the current column, from row [k] down, is greater in magnitude than
    the selected one under the [>] of line 81; the rows [k] and [max_row] of
    [A] change places together with the entries [k] and [max_row] of [P],
    exactly when [max_row] differs from [k] (nothing is written otherwise);
    the rest of iteration [k] eliminates on the buffers so exchanged; and
    when the entry below the diagonal beats the diagonal one and nothing
    further down beats it, [max_row = k + 1] and [P] records the exchange.

    In binary64, the arithmetic of the C code, where [>] is such an order:
    no entry of the column is greater than the selected one; when no entry
    of the column from row [k] down is NaN, [max_row] maximizes
    [|A[i][k]|]; and when at step [k] [A[k][k]] is a zero, [A[k+1][k] = 5]
    and no entry further down is larger in magnitude, plu selects
    [max_row = k + 1] and [P] records the exchange. *)
Theorem plu_pivot_selection :
  (forall (F : Type) (SF : Scalar F) (n : nat) (A0 : matrix F) (P0 : list nat)
          (k : nat),
     square n A0 -> length P0 = n -> k < n ->
     let A := fst (plu_state n A0 P0 k) in
     let P := snd (plu_state n A0 P0 k) in
     let max_row := plu_max_row n k A in
     let A1 := fst (plu_pivot n k (A, P)) in
     let P1 := snd (plu_pivot n k (A, P)) in
     k <= max_row < n /\
     ((forall x : F, fgt x x = false) ->
      (forall x y z : F, fgt x y = true -> fgt y z = true -> fgt x z = true) ->
      forall i, k <= i < n ->
        fgt (fabs (get A i k)) (fabs (get A max_row k)) = false) /\
     (forall r c, r < n -> c < n ->
        get A1 r c = get A (swap_index k max_row r) c) /\
     (forall r, r < n -> nth r P1 0 = nth (swap_index k max_row r) P 0) /\
     (max_row = k -> A1 = A /\ P1 = P) /\
     plu_state n A0 P0 (S k) = (plu_eliminate n k A1, P1) /\
     (S k < n ->
      fgt (fabs (get A (S k) k)) (fabs (get A k k)) = true ->
      (forall i, S k < i < n ->
         fgt (fabs (get A i k)) (fabs (get A (S k) k)) = false) ->
      max_row = S k /\ nth k P1 0 = nth (S k) P 0 /\ nth (S k) P1 0 = nth k P 0)) /\
  (forall (n : nat) (A0 : matrix float) (P0 : list nat) (k : nat),
     square n A0 -> length P0 = n -> k < n ->
     let A := fst (plu_state n A0 P0 k) in
     let P := snd (plu_state n A0 P0 k) in
     let max_row := plu_max_row n k A in
     let P1 := snd (plu_pivot n k (A, P)) in
     (forall i, k <= i < n ->
        (abs (get A max_row k) <? abs (get A i k))%float = false) /\
     ((forall i, k <= i < n -> is_nan (get A i k) = false) ->
      forall i, k <= i < n ->
        (abs (get A i k) <=? abs (get A max_row k))%float = true) /\
     (S k < n ->
      float_zero (get A k k) -> get A (S k) k = 5%float ->
      (forall i, S k < i < n -> (5 <? abs (get A i k))%float = false) ->
      max_row = S k /\ nth k P1 0 = nth (S k) P 0 /\ nth (S k) P1 0 = nth k P 0)).
Proof.
  split.
  - intros F SF n A0 P0 k HA0 HP0 Hk A P max_row A1 P1.
    destruct (@plu_pivot_then_eliminate F SF n A0 P0 k HA0 HP0 Hk)
      as (H1 & H2 & H3 & H4 & H5).
    destruct (@plu_state_shape F SF n A0 P0 k HA0 HP0) as [HA HP]; [lia|].
    split; [exact H1|]. split.
    { intros Hirr Htrans i Hi.
      exact (@plu_max_row_maximal F SF Hirr Htrans n k A i Hi). }
    split; [exact H2|]. split; [exact H3|]. split; [exact H4|]. split; [exact H5|].
    intros Hlt Hnext Hbelow.
    assert (Hmax : max_row = S k) by now apply plu_max_row_next.
    split; [exact Hmax|]. now apply plu_next_row_recorded.
  - intros n A0 P0 k HA0 HP0 Hk A P max_row P1.
    destruct (@plu_state_shape float _ n A0 P0 k HA0 HP0) as [HA HP]; [lia|].
    fold A in HA. fold P in HP.
    pose proof (@plu_max_row_range float _ n k A Hk) as Hrange. fold max_row in Hrange.
    assert (Hmaximal : forall i, k <= i < n ->
              (abs (get A max_row k) <? abs (get A i k))%float = false).
    { intros i Hi.
      exact (@plu_max_row_maximal float _ float_fgt_irrefl float_fgt_trans n k A i Hi). }
    split; [exact Hmaximal|]. split.
    + intros Hnan i Hi. apply float_not_gt_le.
      * apply float_abs_not_nan, Hnan. lia.
      * apply float_abs_not_nan, Hnan. lia.
      * now apply Hmaximal.
    + intros Hlt Hz E5 Hbelow.
      assert (Hmax : max_row = S k).
      { apply plu_max_row_next; [exact Hlt| |].
        - rewrite E5. destruct Hz as [-> | ->]; reflexivity.
        - intros i Hi. rewrite E5. now apply Hbelow. }
      split; [exact Hmax|]. now apply plu_next_row_recorded.
Qed.

(** With a column of zeros nothing beats the diagonal entry: no swap. *)
Lemma plu_max_row_zero_column (n : nat) (A : matrix float) :
  (forall i, i < n -> float_zero (get A i 0)) -> plu_max_row n 0 A = 0.
Proof.
  intros Hz. unfold plu_max_row.
  apply (for_up_preserves _ (fun m : nat => m = 0)); [reflexivity|].
  intros i m Hi ->.
  rewrite float_zero_not_gt; [reflexivity|apply Hz; lia|apply Hz; lia].
Qed.

(** Once the entries of column 0 below the first row are NaN, every later
    iteration leaves them so: rows only change places among themselves, and
    the elimination of column [k >= 1] writes no entry of column 0. *)
Lemma plu_step_keeps_nan_column (n k : nat) (A : matrix float) (P : list nat) :
  1 <= k < n -> square n A -> length P = n ->
  (forall r, 1 <= r < n -> get A r 0 = nan) ->
  square n (fst (plu_step n k (A, P))) /\
  length (snd (plu_step n k (A, P))) = n /\
  (forall r, 1 <= r < n -> get (fst (plu_step n k (A, P))) r 0 = nan).
Proof.
  intros Hk HA HP Hnan. rewrite plu_step_eq. cbn [fst snd].
  destruct (@plu_pivot_effect float _ n k A P HA HP) as (H1 & H2 & H3 & H4); [lia|].
  pose proof (@plu_max_row_range float _ n k A ltac:(lia)) as Hm.
  destruct (@plu_eliminate_effect float _ n (fst (plu_pivot n k (A, P))) k H1)
    as [H5 H6]; [lia|].
  split; [exact H5|]. split; [exact H2|].
  intros r Hr. rewrite H6 by lia. rewrite eliminated_frame by lia.
  rewrite H3 by lia. apply Hnan. unfold swap_index. index_cases.
Qed.

(** C7. In binary64 arithmetic, for every [n >= 2] and every [n]-by-[n]
    matrix whose column 0 is entirely zero, plu completes (it is a total
    function that returns nothing but the two buffers: no error is signalled,
    raised or returned) and the matrix it leaves contains a value that is not
    finite: [A[1][0]] is NaN. *)
Theorem plu_zero_column_not_finite (n : nat) (A : matrix float) (P : list nat) :
  2 <= n -> square n A -> length P = n ->
  (forall i, i < n -> float_zero (get A i 0)) ->
  exists A' P',
    plu n A P = (A', P') /\
    exists i j, i < n /\ j < n /\ non_finite (get A' i j) = true.
Proof.
  intros Hn HA HP Hz.
  assert (Hinv :
    square n (fst (plu n A P)) /\ length (snd (plu n A P)) = n /\
    forall r, 1 <= r < n -> get (fst (plu n A P)) r 0 = nan).
  { unfold plu. rewrite for_up_first by lia.
    apply (for_up_ind _ (fun (_ : nat) (AP : matrix float * list nat) =>
             square n (fst AP) /\ length (snd AP) = n /\
             forall r, 1 <= r < n -> get (fst AP) r 0 = nan)); [lia| |].
    - rewrite plu_step_eq. cbn [fst snd]. rewrite plu_init_seq by exact HP.
      assert (Hpiv : plu_pivot n 0 (A, seq 0 n) = (A, seq 0 n)).
      { unfold plu_pivot. now rewrite plu_max_row_zero_column. }
      rewrite Hpiv. cbn [fst snd].
      destruct (@plu_eliminate_effect float _ n A 0 HA) as [H1 H2]; [lia|].
      split; [exact H1|]. split; [apply length_seq|].
      intros r Hr. rewrite H2 by lia. unfold eliminated.
      replace (0 <? r) with true by index_cases. simpl.
      apply float_zero_div; apply Hz; lia.
    - intros k [B Q] Hk (HB & HQ & Hnan). cbn [fst snd] in *.
      apply plu_step_keeps_nan_column; [lia|exact HB|exact HQ|exact Hnan]. }
  destruct Hinv as (_ & _ & Hnan).
  destruct (plu n A P) as [A' P']. cbn [fst] in Hnan.
  exists A', P'. split; [reflexivity|].
  exists 1, 0. split; [lia|]. split; [lia|].
  rewrite Hnan by lia. reflexivity.
Qed.

(** * The theorems at the driver's inputs *)

Lemma gauss_solve_in_place_solves_witness :
  mat_vec 3 A_driver (snd (gauss_solve_in_place 3 A_driver b_driver)) = b_driver.
Proof.
  apply (@gauss_solve_in_place_solves Qc Qc_scalar Qcft 3 A_driver b_driver).
  - square_literal.
  - reflexivity.
  - intros k Hk. destruct k as [|[|[|k]]]; [Qc_nonzero|Qc_nonzero|Qc_nonzero|lia].
Defined.

Lemma plu_factors_witness :
  mat_mul 3 (unit_lower 3 (fst (plu 3 A_plu_driver [0; 0; 0])))
            (upper 3 (fst (plu 3 A_plu_driver [0; 0; 0]))) =
  permute_matrix 3 (snd (plu 3 A_plu_driver [0; 0; 0])) A_plu_driver.
Proof.
  apply (@plu_factors Qc Qc_scalar Qcft 3 A_plu_driver [0; 0; 0]).
  - square_literal.
  - reflexivity.
  - intros k Hk. destruct k as [|[|k]]; [Qc_nonzero|Qc_nonzero|lia].
Defined.

Lemma lu_in_place_factors_witness :
  mat_mul 3 (unit_lower 3 (lu_in_place 3 A_driver)) (upper 3 (lu_in_place 3 A_driver)) =
  A_driver.
Proof.
  apply (@lu_in_place_factors Qc Qc_scalar Qcft 3 A_driver).
  - square_literal.
  - intros k Hk. destruct k as [|[|k]]; [Qc_nonzero|Qc_nonzero|lia].
Defined.


Lemma plu_permutation_valid_witness :
  Permutation (snd (plu 3 A_zero_column [7; 7; 7])) (seq 0 3) /\
  forall v, v < 3 -> count_occ Nat.eq_dec (snd (plu 3 A_zero_column [7; 7; 7])) v = 1.
Proof.
  apply (@plu_permutation_valid float float_scalar 3 A_zero_column [7; 7; 7]).
  reflexivity.
Defined.

Lemma plu_pivot_selection_witness :
  (forall i, 0 <= i < 3 ->
     fgt (fabs (get (fst (plu_state 3 A_zero_pivot_float [0; 0; 0] 0)) i 0))
         (fabs (get (fst (plu_state 3 A_zero_pivot_float [0; 0; 0] 0))
                    (plu_max_row 3 0 (fst (plu_state 3 A_zero_pivot_float [0; 0; 0] 0)))
                    0)) = false) /\
  (forall i, 0 <= i < 3 ->
     PrimFloat.leb
       (abs (get (fst (plu_state 3 A_zero_pivot_float [0; 0; 0] 0)) i 0))
       (abs (get (fst (plu_state 3 A_zero_pivot_float [0; 0; 0] 0))
                 (plu_max_row 3 0 (fst (plu_state 3 A_zero_pivot_float [0; 0; 0] 0)))
                 0)) = true) /\
  plu_max_row 3 0 (fst (plu_state 3 A_zero_pivot_float [0; 0; 0] 0)) = 1 /\
  nth 0 (snd (plu_pivot 3 0 (fst (plu_state 3 A_zero_pivot_float [0; 0; 0] 0),
                             snd (plu_state 3 A_zero_pivot_float [0; 0; 0] 0)))) 0 =
    nth 1 (snd (plu_state 3 A_zero_pivot_float [0; 0; 0] 0)) 0 /\
  nth 1 (snd (plu_pivot 3 0 (fst (plu_state 3 A_zero_pivot_float [0; 0; 0] 0),
                             snd (plu_state 3 A_zero_pivot_float [0; 0; 0] 0)))) 0 =
    nth 0 (snd (plu_state 3 A_zero_pivot_float [0; 0; 0] 0)) 0.
Proof.
  assert (Hsq : square 3 A_zero_pivot_float) by square_literal.
  assert (Hlen : length [0; 0; 0] = 3) by reflexivity.
  assert (Hk : 0 < 3) by lia.
  destruct (proj1 plu_pivot_selection float float_scalar 3 A_zero_pivot_float [0; 0; 0] 0
              Hsq Hlen Hk) as (_ & Hgreater & _).
  destruct (proj2 plu_pivot_selection 3 A_zero_pivot_float [0; 0; 0] 0 Hsq Hlen Hk)
    as (_ & Hle & Hnext).
  split; [exact (Hgreater float_fgt_irrefl float_fgt_trans)|].
  split.
  - apply Hle. intros i Hi. destruct i as [|[|[|i]]]; [reflexivity|reflexivity|reflexivity|lia].
  - apply Hnext.
    + lia.
    + left. reflexivity.
    + reflexivity.
    + intros i Hi. replace i with 2 by lia. reflexivity.
Defined.

Lemma plu_zero_column_not_finite_witness :
  exists A' P',
    plu 3 A_zero_column [0; 0; 0] = (A', P') /\
    exists i j, i < 3 /\ j < 3 /\ non_finite (get A' i j) = true.
Proof.
  apply (@plu_zero_column_not_finite 3 A_zero_column [0; 0; 0]).
  - lia.
  - square_literal.
  - reflexivity.
  - intros i Hi. destruct i as [|[|[|i]]]; [left|right|left|lia]; reflexivity.
Defined.

Lemma kernels_run_to_completion_witness :
  gauss_solve_in_place_run 4 3 A_singular_float b_driver_float =
    Returns (gauss_solve_in_place 3 A_singular_float b_driver_float) /\
  lu_in_place_run 4 3 A_singular_float = Returns (lu_in_place 3 A_singular_float) /\
  lu_in_place_reconstruct_run 4 3 A_singular_float =
    Returns (lu_in_place_reconstruct 3 A_singular_float) /\
  plu_run 4 3 A_singular_float [0; 0; 0] =
    Returns (plu 3 A_singular_float [0; 0; 0]).
Proof.
  apply (@kernels_run_to_completion float float_scalar 4 3).
  - unfold int_max. lia.
  - lia.
  - square_literal.
  - reflexivity.
  - reflexivity.
Defined.

Lemma gauss_solve_in_place_factors_as_lu_witness :
  fst (gauss_solve_in_place 3 A_driver b_driver) = lu_in_place 3 A_driver /\
  fst (gauss_solve_in_place 3 A_driver b_driver) =
    fst (gauss_forward 3 (A_driver, b_driver)).
Proof.
  apply (@gauss_solve_in_place_factors_as_lu Qc Qc_scalar Qcft 3 A_driver b_driver).
  - square_literal.
  - reflexivity.
  - intros k Hk. destruct k as [|[|k]]; [Qc_nonzero|Qc_nonzero|lia].
Defined.

(** * binary64 against the statements made without an arithmetic *)

(** C2 as written, for every arithmetic, fails in binary64, where quotients
    and products are rounded: on [A_rounding] plu divides by 7 and by
    4.571..., leaves [P] the identity, and the product of the factors it
    leaves has 2.9999999999999996 where the matrix has 3. *)
Lemma plu_factors_counterexample :
  square 3 A_rounding /\
  plu_divisor 3 A_rounding [0; 0; 0] 0 = 7%float /\
  plu_divisor 3 A_rounding [0; 0; 0] 1 = 0x1.2492492492492p+2%float /\
  snd (plu 3 A_rounding [0; 0; 0]) = [0; 1; 2] /\
  get (permute_matrix 3 (snd (plu 3 A_rounding [0; 0; 0])) A_rounding) 2 1 = 3%float /\
  get (mat_mul 3 (unit_lower 3 (fst (plu 3 A_rounding [0; 0; 0])))
                 (upper 3 (fst (plu 3 A_rounding [0; 0; 0])))) 2 1 =
    0x1.7ffffffffffffp+1%float /\
  mat_mul 3 (unit_lower 3 (fst (plu 3 A_rounding [0; 0; 0])))
            (upper 3 (fst (plu 3 A_rounding [0; 0; 0]))) <>
  permute_matrix 3 (snd (plu 3 A_rounding [0; 0; 0])) A_rounding.
Proof.
  split; [square_literal|].
  do 5 (split; [vm_compute; reflexivity|]).
  intros E. apply (f_equal (fun M => PrimFloat.eqb (get M 2 1) 3%float)) in E.
  vm_compute in E. discriminate E.
Qed.

(** C3 as written, for every arithmetic, fails in binary64 in the same way:
    lu_in_place divides by 7 and by 4.571... on [A_rounding], and the
    product of the factors it leaves differs from the matrix at the entry
    [(2, 1)]. *)
Lemma lu_in_place_factors_counterexample :
  square 3 A_rounding /\
  lu_divisor 3 A_rounding 0 = 7%float /\
  lu_divisor 3 A_rounding 1 = 0x1.2492492492492p+2%float /\
  get A_rounding 2 1 = 3%float /\
  get (mat_mul 3 (unit_lower 3 (lu_in_place 3 A_rounding))
                 (upper 3 (lu_in_place 3 A_rounding))) 2 1 =
    0x1.7ffffffffffffp+1%float /\
  mat_mul 3 (unit_lower 3 (lu_in_place 3 A_rounding))
            (upper 3 (lu_in_place 3 A_rounding)) <>
  A_rounding.
Proof.
  split; [square_literal|].
  do 4 (split; [vm_compute; reflexivity|]).
  intros E. apply (f_equal (fun M => PrimFloat.eqb (get M 2 1) 3%float)) in E.
  vm_compute in E. discriminate E.
Qed.

(** C6 as written fails in binary64 on a column that holds a NaN: on
    [A_nan_pivot], whose column 0 is (NaN, 5), line 81 compares 5 with NaN,
    which is false, so row 0 stays selected and nothing is exchanged,
    although the magnitude 5 of row 1 is not below that of row 0. *)
Lemma plu_pivot_selection_counterexample :
  plu_max_row 2 0 (fst (plu_state 2 A_nan_pivot [0; 0] 0)) = 0 /\
  get (fst (plu_state 2 A_nan_pivot [0; 0] 0)) 0 0 = nan /\
  get (fst (plu_state 2 A_nan_pivot [0; 0] 0)) 1 0 = 5%float /\
  PrimFloat.leb (abs (get (fst (plu_state 2 A_nan_pivot [0; 0] 0)) 1 0))
                (abs (get (fst (plu_state 2 A_nan_pivot [0; 0] 0)) 0 0)) = false /\
  snd (plu_pivot 2 0 (plu_state 2 A_nan_pivot [0; 0] 0)) = [0; 1].
Proof. repeat split; vm_compute; reflexivity. Qed.

(** The kernels as C runs them, where the theorem does not apply: with
    fewer tests than a loop needs the call is still running, and with an [n]
    larger than the buffers it reads outside them. *)
Example lu_in_place_run_needs_fuel :
  lu_in_place_run 3 3 A_driver_float = OutOfFuel.
Proof. reflexivity. Qed.

Example lu_in_place_run_checks_bounds :
  lu_in_place_run 5 4 A_driver_float = OutOfBounds.
Proof. reflexivity. Qed.

(** * The driver's assertions, in binary64 *)

(** test_gauss_solve: the residual of the computed solution is below 1e-6. *)
Example driver_test_gauss_solve :
  PrimFloat.ltb
    (norm_dist 3 b_driver_float
       (mat_vec 3 A_driver_float
          (snd (gauss_solve_in_place 3 A_driver_float b_driver_float))))
    eps = true.
Proof. vm_compute. reflexivity. Qed.

(** test_lu_in_place: factoring and reconstructing gives the matrix back
    within 1e-6. *)
Example driver_test_lu_in_place :
  PrimFloat.ltb
    (frobenius_norm_dist 3
       (lu_in_place_reconstruct 3 (lu_in_place 3 A_driver_float))
       A_driver_float)
    eps = true.
Proof. vm_compute. reflexivity. Qed.

(** * Further properties of the kernels *)

(** ** The packed factors, in exact arithmetic *)

Section PackedFactors.

Context {F : Type} {SF : Scalar F}.
Hypothesis Fth : field_theory zero one add mul sub opp div inv (@eq F).
Add Field F_field_packed : Fth.
Local Open Scope scalar_scope.

Variable n : nat.

(** Any square buffer, read as packed factors, satisfies the invariant of
    lu_in_place at [n] against the product of these factors. *)
Lemma packed_lu_inv (A : matrix F) :
  square n A ->
  lu_inv n (get (mat_mul n (unit_lower n A) (upper n A))) n A.
Proof.
  intros HA. split; [exact HA|]. intros r c Hr Hc.
  replace (min r c <? n) with true by index_cases.
  unfold lu_rel, mat_mul. rewrite get_build by lia.
  now apply (unit_lower_upper_product Fth).
Qed.

(** X1. lu_in_place_reconstruct multiplies the packed factors: for every square
    buffer, whatever it holds, the result is the product of the unit lower
    factor and the upper factor read from it.  No division is involved, so
    there is no condition on the diagonal. *)
Theorem lu_in_place_reconstruct_multiplies (A : matrix F) :
  square n A ->
  lu_in_place_reconstruct n A = mat_mul n (unit_lower n A) (upper n A).
Proof.
  intros HA. apply (reconstruct_from_inv Fth).
  - apply square_build.
  - now apply packed_lu_inv.
Qed.

(** lu_in_place returns the packed factors of its input, whenever the input
    has packed factors with a diagonal that is not zero where it is divided
    by. *)
Lemma lu_in_place_unique (A0 G : matrix F) :
  square n A0 -> square n G ->
  (forall r c, r < n -> c < n -> lu_rel (get A0) G r c) ->
  (forall j, S j < n -> get G j j <> zero) ->
  lu_in_place n A0 = G.
Proof.
  intros HA0 HG HrelG HdiagG.
  assert (Hrels : forall k r c, lu_inv n (get A0) k (lu_state n A0 k) ->
            r < n -> c < n -> min r c < k -> lu_rel (get A0) (lu_state n A0 k) r c).
  { intros k r c [_ Hinv] Hr Hc Hmin. specialize (Hinv r c Hr Hc).
    now replace (min r c <? k) with true in Hinv by index_cases. }
  assert (Hlu : forall k, k <= n -> lu_inv n (get A0) k (lu_state n A0 k)).
  { induction k as [|k IH]; intros Hk.
    - unfold lu_state. rewrite for_up_nil by lia. now apply lu_inv_init.
    - rewrite lu_state_succ. apply (lu_inv_step Fth); [apply IH; lia|lia|].
      intros Hlt.
      rewrite (@lu_divisor_agree F SF Fth n (get A0) (lu_state n A0 k) G k).
      + now apply HdiagG.
      + apply IH. lia.
      + lia.
      + apply (@lu_rel_agree F SF Fth n (get A0) (lu_state n A0 k) G k).
        * intros r c Hr Hc Hmin. apply Hrels; [apply IH; lia|lia|lia|lia].
        * intros r c Hr Hc _. now apply HrelG.
        * intros j _ Hj. now apply HdiagG.
      + apply HrelG; lia. }
  rewrite lu_in_place_state.
  apply (@matrix_ext _ _ n); [apply (Hlu n); lia|exact HG|].
  intros r c Hr Hc.
  apply (@lu_rel_agree F SF Fth n (get A0) (lu_state n A0 n) G n); try lia.
  - intros r' c' Hr' Hc' Hmin. apply Hrels; [apply Hlu; lia|lia|lia|lia].
  - intros r' c' Hr' Hc' _. now apply HrelG.
  - intros j _ Hj. now apply HdiagG.
Qed.

(** X2. The round trip in the other order: multiplying packed factors back and
    factoring the product returns the same packed factors, when the diagonal
    entries that lu_in_place divides by are not zero. *)
Theorem lu_in_place_after_reconstruct (A : matrix F) :
  square n A ->
  (forall k, S k < n -> get A k k <> zero) ->
  lu_in_place n (lu_in_place_reconstruct n A) = A.
Proof.
  intros HA Hdiag.
  pose proof (packed_lu_inv HA) as Hinv.
  rewrite (reconstruct_from_inv Fth (square_build n _) Hinv).
  apply lu_in_place_unique; [apply square_build|exact HA| |exact Hdiag].
  intros r c Hr Hc. destruct Hinv as [_ Hrel]. specialize (Hrel r c Hr Hc).
  now replace (min r c <? n) with true in Hrel by index_cases.
Qed.

(** The buffer that gauss_solve_in_place leaves satisfies [lu_rel] against
    the original matrix, entry by entry. *)
Lemma gauss_solve_in_place_lu_rel (A0 : matrix F) (b0 : vec F) :
  square n A0 -> length b0 = n ->
  (forall k, S k < n -> gauss_pivot n A0 b0 k <> zero) ->
  square n (fst (gauss_solve_in_place n A0 b0)) /\
  forall r c, r < n -> c < n ->
    lu_rel (get A0) (fst (gauss_solve_in_place n A0 b0)) r c.
Proof.
  intros HA0 Hb0 Hpiv.
  assert (Hfst : fst (gauss_solve_in_place n A0 b0) = fst (gauss_state n A0 b0 n)).
  { unfold gauss_solve_in_place. rewrite gauss_forward_state.
    now destruct (gauss_state n A0 b0 n). }
  rewrite Hfst.
  destruct (@gauss_state_inv F SF Fth n A0 b0 n HA0 Hb0) as ([HG Hrel] & _ & _);
    [lia|intros; now apply Hpiv|].
  split; [exact HG|]. intros r c Hr Hc. specialize (Hrel r c Hr Hc).
  now replace (min r c <? n) with true in Hrel by index_cases.
Qed.

(** X3. After gauss_solve_in_place the buffer [A] holds the packed factors of
    the original matrix: the multipliers below the diagonal are L, the
    eliminated system on and above the diagonal is U, and L U is the
    original matrix.  Only the pivots the elimination divides by matter. *)
Theorem gauss_solve_in_place_packs_factors (A0 : matrix F) (b0 : vec F) :
  square n A0 -> length b0 = n ->
  (forall k, S k < n -> gauss_pivot n A0 b0 k <> zero) ->
  mat_mul n (unit_lower n (fst (gauss_solve_in_place n A0 b0)))
            (upper n (fst (gauss_solve_in_place n A0 b0))) = A0.
Proof.
  intros HA0 Hb0 Hpiv.
  destruct (@gauss_solve_in_place_lu_rel A0 b0 HA0 Hb0 Hpiv) as [_ Hrel].
  rewrite (@lu_rel_product F SF Fth n (get A0)) by exact Hrel.
  now apply build_get.
Qed.

(** X4. The kernels compose: lu_in_place_reconstruct, applied to the buffer [A]
    that gauss_solve_in_place leaves, restores the original matrix. *)
Theorem reconstruct_after_gauss_solve (A0 : matrix F) (b0 : vec F) :
  square n A0 -> length b0 = n ->
  (forall k, S k < n -> gauss_pivot n A0 b0 k <> zero) ->
  lu_in_place_reconstruct n (fst (gauss_solve_in_place n A0 b0)) = A0.
Proof.
  intros HA0 Hb0 Hpiv.
  destruct (@gauss_solve_in_place_lu_rel A0 b0 HA0 Hb0 Hpiv) as [HG Hrel].
  apply (reconstruct_from_inv Fth HA0). split; [exact HG|].
  intros r c Hr Hc. replace (min r c <? n) with true by index_cases.
  now apply Hrel.
Qed.

End PackedFactors.

(** ** At most one solution *)

Section SolutionUnique.

Context {F : Type} {SF : Scalar F}.
Hypothesis Fth : field_theory zero one add mul sub opp div inv (@eq F).
Add Field F_field_unique : Fth.
Local Open Scope scalar_scope.

Variable n : nat.

(** Row [r] of the original matrix times [x], through the packed factors:
    row [r] of L applied to U x. *)
Lemma mat_vec_through_factors (a0 : nat -> nat -> F) (A : matrix F) (x : vec F)
    (r : nat) :
  r < n ->
  (forall c, c < n -> lu_rel a0 A r c) ->
  sum_range 0 n (fun c => a0 r c * vget x c) =
    sum_range 0 r
      (fun t => get A r t * sum_range t n (fun c => get A t c * vget x c)) +
    sum_range r n (fun c => get A r c * vget x c).
Proof.
  intros Hr Hrel.
  assert (HUx : forall t, t < n ->
            sum_range 0 n (fun c => get (upper n A) t c * vget x c) =
            sum_range t n (fun c => get A t c * vget x c)).
  { intros t Ht. rewrite (@sum_range_from _ _ Fth t n) by
      (try lia; intros c Hc; unfold upper; rewrite get_build by lia;
       replace (t <=? c) with false by index_cases; ring).
    apply sum_range_ext. intros c Hc. unfold upper. rewrite get_build by lia.
    now replace (t <=? c) with true by index_cases. }
  rewrite (@sum_range_ext _ _ 0 n _
             (fun c => sum_range 0 n
                (fun t => get (unit_lower n A) r t * (get (upper n A) t c * vget x c)))).
  2:{ intros c Hc. rewrite (Hrel c) by lia.
      rewrite <- (@unit_lower_upper_product F SF Fth n A r c) by lia.
      rewrite (sum_range_mul_r Fth). apply sum_range_ext. intros t Ht. ring. }
  rewrite (sum_range_swap Fth).
  rewrite (@sum_range_ext _ _ 0 n _
             (fun t => get (unit_lower n A) r t *
                       sum_range t n (fun c => get A t c * vget x c))).
  2:{ intros t Ht. rewrite <- (sum_range_mul_l Fth). now rewrite HUx by lia. }
  rewrite (@sum_range_upto _ _ Fth r n) by
    (try lia; intros t Ht; unfold unit_lower; rewrite get_build by lia;
     replace (t <? r) with false by index_cases;
     replace (t =? r) with false by index_cases; ring).
  unfold unit_lower at 2. rewrite get_build by lia.
  replace (r <? r) with false by index_cases. rewrite Nat.eqb_refl.
  rewrite (@sum_range_ext _ _ 0 r _
             (fun t => get A r t * sum_range t n (fun c => get A t c * vget x c))).
  2:{ intros t Ht. unfold unit_lower. rewrite get_build by lia.
      now replace (t <? r) with true by index_cases. }
  ring.
Qed.

(** A unit lower triangular system has at most one solution. *)
Lemma unit_lower_injective (A : matrix F) (u u' : nat -> F) :
  (forall r, r < n ->
     sum_range 0 r (fun t => get A r t * u t) + u r =
     sum_range 0 r (fun t => get A r t * u' t) + u' r) ->
  forall r, r < n -> u r = u' r.
Proof.
  intros Heq r. induction r as [r IH] using lt_wf_ind. intros Hr.
  specialize (Heq r Hr).
  rewrite (@sum_range_ext _ _ 0 r (fun t => get A r t * u t)
             (fun t => get A r t * u' t)) in Heq
    by (intros t Ht; rewrite (IH t) by lia; reflexivity).
  assert (E : u r = sum_range 0 r (fun t => get A r t * u' t) + u r -
                    sum_range 0 r (fun t => get A r t * u' t)) by ring.
  rewrite E, Heq. ring.
Qed.

(** An upper triangular system whose diagonal is not zero has at most one
    solution. *)
Lemma upper_injective (A : matrix F) (x x' : vec F) :
  (forall i, i < n -> get A i i <> zero) ->
  (forall t, t < n ->
     sum_range t n (fun c => get A t c * vget x c) =
     sum_range t n (fun c => get A t c * vget x' c)) ->
  forall t, t < n -> vget x t = vget x' t.
Proof.
  intros Hdiag Heq.
  assert (Hdown : forall m t, n - m <= t < n -> vget x t = vget x' t).
  { induction m as [|m IH]; intros t Ht; [lia|].
    destruct (Nat.eq_dec t (n - S m)) as [E|E]; [|apply IH; lia].
    assert (Htn : t < n) by lia. generalize (Heq t Htn).
    rewrite (@sum_range_first _ _ Fth t n (fun c => get A t c * vget x c)) by lia.
    rewrite (@sum_range_first _ _ Fth t n (fun c => get A t c * vget x' c)) by lia.
    rewrite (@sum_range_ext _ _ (S t) n (fun c => get A t c * vget x c)
               (fun c => get A t c * vget x' c))
      by (intros c Hc; rewrite (IH c) by lia; reflexivity).
    intros H.
    assert (Hd : get A t t <> zero) by now apply Hdiag.
    assert (E1 : vget x t =
                 (get A t t * vget x t +
                  sum_range (S t) n (fun c => get A t c * vget x' c) -
                  sum_range (S t) n (fun c => get A t c * vget x' c)) / get A t t)
      by (field; exact Hd).
    rewrite E1, H. field. exact Hd. }
  intros t Ht. apply (Hdown n). lia.
Qed.

(** X5. When no pivot of gauss_solve_in_place is zero the system has at most one
    solution: two vectors with the same image under the original matrix are
    the same vector.  (With C1: what the kernel leaves in [b] is the only
    solution.) *)
Theorem gauss_pivots_give_unique_solution (A0 : matrix F) (b0 z z' : vec F) :
  square n A0 -> length b0 = n -> length z = n -> length z' = n ->
  (forall k, k < n -> gauss_pivot n A0 b0 k <> zero) ->
  mat_vec n A0 z = mat_vec n A0 z' ->
  z = z'.
Proof.
  intros HA0 Hb0 Hz Hz' Hpiv Himg.
  destruct (@gauss_state_inv F SF Fth n A0 b0 n HA0 Hb0) as ([HG Hrel] & _ & Hdiag);
    [lia|intros; apply Hpiv; lia|].
  set (G := fst (gauss_state n A0 b0 n)) in *.
  assert (HrelG : forall r c, r < n -> c < n -> lu_rel (get A0) G r c).
  { intros r c Hr Hc. specialize (Hrel r c Hr Hc).
    now replace (min r c <? n) with true in Hrel by index_cases. }
  assert (Hrows : forall r, r < n ->
            sum_range 0 n (fun c => get A0 r c * vget z c) =
            sum_range 0 n (fun c => get A0 r c * vget z' c)).
  { intros r Hr. rewrite <- !vget_mat_vec by lia. now rewrite Himg. }
  apply (@vec_ext _ _ n); [exact Hz|exact Hz'|].
  apply (@upper_injective G).
  - intros i Hi. rewrite Hdiag by lia. now apply Hpiv.
  - apply (@unit_lower_injective G
             (fun t => sum_range t n (fun c => get G t c * vget z c))
             (fun t => sum_range t n (fun c => get G t c * vget z' c))).
    intros r Hr.
    rewrite <- !(@mat_vec_through_factors (get A0) G _ r Hr)
      by (intros c Hc; now apply HrelG).
    now apply Hrows.
Qed.

End SolutionUnique.

(** ** What is stored stays: entries no later iteration writes *)

Section StoredEntries.

Context {F : Type} {SF : Scalar F}.
Local Open Scope scalar_scope.

Variable n : nat.

Lemma gauss_state_shape (A : matrix F) (b : vec F) (m : nat) :
  square n A -> length b = n -> m <= n ->
  square n (fst (gauss_state n A b m)) /\ length (snd (gauss_state n A b m)) = n.
Proof.
  intros HA Hb. induction m as [|m IH]; intros Hm.
  - unfold gauss_state. rewrite for_up_nil by lia. now split.
  - destruct IH as [Hsq Hlen]; [lia|]. rewrite gauss_state_succ.
    destruct (gauss_state n A b m) as [B c]. cbn [fst snd] in *.
    destruct (@gauss_eliminate_step_effect F SF n B c m Hsq Hlen) as (H1 & H2 & _);
      [lia|].
    split; [|exact H2]. rewrite H1. apply plu_eliminate_effect; [exact Hsq|lia].
Qed.

(** Iteration [k] of the loop of line 14 acts on [A] as the elimination of
    pivot [k]. *)
Lemma gauss_state_step (A : matrix F) (b : vec F) (k r c : nat) :
  square n A -> length b = n -> k < n -> r < n -> c < n ->
  get (fst (gauss_state n A b (S k))) r c =
  eliminated (fst (gauss_state n A b k)) k r c.
Proof.
  intros HA Hb Hk Hr Hc.
  destruct (@gauss_state_shape A b k HA Hb) as [Hsq Hlen]; [lia|].
  rewrite gauss_state_succ.
  destruct (gauss_state n A b k) as [B d]. cbn [fst snd] in *.
  destruct (@gauss_eliminate_step_effect F SF n B d k Hsq Hlen) as (H1 & _); [lia|].
  rewrite H1. now apply plu_eliminate_effect.
Qed.

(** From iteration [m] on, the rows up to [m] and the columns before [m] are
    not written. *)
Lemma gauss_state_stable (A : matrix F) (b : vec F) (m m' r c : nat) :
  square n A -> length b = n -> m <= m' <= n -> r < n -> c < n ->
  r <= m \/ c < m ->
  get (fst (gauss_state n A b m')) r c = get (fst (gauss_state n A b m)) r c.
Proof.
  intros HA Hb [Hm Hm'] Hr Hc Hrc. induction m' as [|m' IH].
  - now replace m with 0 by lia.
  - destruct (Nat.eq_dec m (S m')) as [->|Hne]; [reflexivity|].
    rewrite gauss_state_step by (auto; lia).
    rewrite eliminated_frame by lia. apply IH; lia.
Qed.

Lemma gauss_solve_in_place_buffer (A : matrix F) (b : vec F) :
  fst (gauss_solve_in_place n A b) = fst (gauss_state n A b n).
Proof.
  unfold gauss_solve_in_place. rewrite gauss_forward_state.
  now destruct (gauss_state n A b n).
Qed.

(** Row [k] of the final buffer is row [k] as iteration [k] found it. *)
Lemma gauss_stored_row (A : matrix F) (b : vec F) (k c : nat) :
  square n A -> length b = n -> k < n -> c < n ->
  get (fst (gauss_solve_in_place n A b)) k c =
  get (fst (gauss_state n A b k)) k c.
Proof.
  intros HA Hb Hk Hc. rewrite gauss_solve_in_place_buffer.
  apply gauss_state_stable; auto; lia.
Qed.

(** The entry [(i, k)] below the diagonal of the final buffer is the
    multiplier iteration [k] stored. *)
Lemma gauss_stored_multiplier (A : matrix F) (b : vec F) (k i : nat) :
  square n A -> length b = n -> k < i < n ->
  get (fst (gauss_solve_in_place n A b)) i k =
  get (fst (gauss_state n A b k)) i k / gauss_pivot n A b k.
Proof.
  intros HA Hb Hi. rewrite gauss_solve_in_place_buffer.
  rewrite (@gauss_state_stable A b (S k) n i k) by (auto; lia).
  rewrite gauss_state_step by (auto; lia). unfold eliminated, gauss_pivot.
  replace (k <? i) with true by index_cases. now rewrite Nat.eqb_refl.
Qed.

(** X6. In every arithmetic, gauss_solve_in_place never writes an entry again
    once its pivot is done: row [k] of the final buffer is row [k] as
    iteration [k] found it, and the entry [(i, k)] below the diagonal is the
    multiplier that iteration stored, the entry it found there divided by the
    pivot. *)
Theorem gauss_solve_in_place_stored_entries (A : matrix F) (b : vec F) (k : nat) :
  square n A -> length b = n -> k < n ->
  (forall c, c < n ->
     get (fst (gauss_solve_in_place n A b)) k c =
     get (fst (gauss_state n A b k)) k c) /\
  (forall i, k < i < n ->
     get (fst (gauss_solve_in_place n A b)) i k =
     get (fst (gauss_state n A b k)) i k / gauss_pivot n A b k).
Proof.
  intros HA Hb Hk. split.
  - intros c Hc. now apply gauss_stored_row.
  - intros i Hi. now apply gauss_stored_multiplier.
Qed.

(** Step [k] of lu_in_place writes only the entries whose smaller index is
    [k]. *)
Lemma lu_step_frame (A : matrix F) (k r c : nat) :
  square n A -> k < n -> r < n -> c < n -> min r c <> k ->
  get (lu_step n k A) r c = get A r c.
Proof.
  intros HA Hk Hr Hc Hne. unfold lu_step.
  destruct (@lu_row_phase_effect F SF n A k HA Hk) as [H1 Hget1].
  destruct (@lu_col_phase_effect F SF n _ k H1 Hk) as [_ Hget2].
  rewrite Hget2 by lia.
  replace ((c =? k) && (k <? r)) with false by index_cases.
  rewrite Hget1 by lia.
  now replace ((r =? k) && (k <=? c)) with false by index_cases.
Qed.

Lemma lu_state_shape (A : matrix F) (m : nat) :
  square n A -> square n (lu_state n A m).
Proof.
  intros HA. unfold lu_state, lu_step, lu_col_phase, lu_row_phase,
    lu_col_entry, lu_row_entry.
  repeat first [ assumption
               | apply square_set
               | apply for_up_preserves; [|intros ? ? _ ?] ].
Qed.

(** lu_in_place is left-looking: when step [m] starts, the entries with both
    indices from [m] on still hold what the caller passed. *)
Lemma lu_state_untouched (A : matrix F) (m r c : nat) :
  square n A -> m <= n -> r < n -> c < n -> m <= min r c ->
  get (lu_state n A m) r c = get A r c.
Proof.
  intros HA Hm Hr Hc Hmin. induction m as [|m IH].
  - unfold lu_state. now rewrite for_up_nil by lia.
  - rewrite lu_state_succ.
    rewrite lu_step_frame by (auto using lu_state_shape; lia).
    apply IH; lia.
Qed.

(** From step [m] on, the entries whose smaller index is below [m] are not
    written. *)
Lemma lu_state_stable (A : matrix F) (m m' r c : nat) :
  square n A -> m <= m' <= n -> r < n -> c < n -> min r c < m ->
  get (lu_state n A m') r c = get (lu_state n A m) r c.
Proof.
  intros HA [Hm Hm'] Hr Hc Hmin. induction m' as [|m' IH].
  - now replace m with 0 by lia.
  - destruct (Nat.eq_dec m (S m')) as [->|Hne]; [reflexivity|].
    rewrite lu_state_succ.
    rewrite lu_step_frame by (auto using lu_state_shape; lia).
    apply IH; lia.
Qed.

(** Row [k] of the final buffer, from the diagonal on, is what lines 36-41
    of step [k] leave. *)
Lemma lu_stored_row (A : matrix F) (k c : nat) :
  square n A -> k < n -> k <= c < n ->
  get (lu_in_place n A) k c = get (lu_row_phase n k (lu_state n A k)) k c.
Proof.
  intros HA Hk Hc.
  pose proof (@lu_state_shape A k HA) as Hsq.
  destruct (@lu_row_phase_effect F SF n _ k Hsq Hk) as [H1 _].
  destruct (@lu_col_phase_effect F SF n _ k H1 Hk) as [_ Hget2].
  rewrite lu_in_place_state.
  rewrite (@lu_state_stable A (S k) n k c) by (auto; lia).
  rewrite lu_state_succ. unfold lu_step. rewrite Hget2 by lia.
  now replace ((c =? k) && (k <? k)) with false by index_cases.
Qed.

(** The entry [(i, k)] below the diagonal of the final buffer is what lines
    43-48 of step [k] store. *)
Lemma lu_stored_multiplier (A : matrix F) (k i : nat) :
  square n A -> k < i < n ->
  get (lu_in_place n A) i k =
  sub_loop 0 k
    (fun j => get (lu_state n A k) i j * get (lu_state n A k) j k)
    (get (lu_state n A k) i k) / lu_divisor n A k.
Proof.
  intros HA Hi. assert (Hk : k < n) by lia.
  pose proof (@lu_state_shape A k HA) as Hsq.
  destruct (@lu_row_phase_effect F SF n _ k Hsq Hk) as [H1 Hget1].
  destruct (@lu_col_phase_effect F SF n _ k H1 Hk) as [_ Hget2].
  rewrite lu_in_place_state.
  rewrite (@lu_state_stable A (S k) n i k) by (auto; lia).
  rewrite lu_state_succ. unfold lu_step. rewrite Hget2 by lia.
  replace ((k =? k) && (k <? i)) with true by index_cases.
  unfold lu_divisor. f_equal. rewrite (Hget1 i k) by lia.
  replace ((i =? k) && (k <=? k)) with false by index_cases.
  unfold sub_loop. apply for_up_ext. intros j x Hj.
  rewrite !Hget1 by lia.
  replace ((i =? k) && (k <=? j)) with false by index_cases.
  now replace ((j =? k) && (k <=? k)) with false by index_cases.
Qed.

(** X7. In every arithmetic, lu_in_place works on untouched data and never
    writes an entry twice over: when step [k] starts the entries with both
    indices from [k] on are the caller's; row [k] of the final buffer, from
    the diagonal on, is what lines 36-41 of step [k] leave; and the entry
    [(i, k)] below the diagonal is what lines 43-48 of step [k] store, a
    quotient by the [A[k][k]] those lines just computed. *)
Theorem lu_in_place_stored_entries (A : matrix F) (k : nat) :
  square n A -> k < n ->
  (forall r c, r < n -> c < n -> k <= min r c ->
     get (lu_state n A k) r c = get A r c) /\
  (forall c, k <= c < n ->
     get (lu_in_place n A) k c = get (lu_row_phase n k (lu_state n A k)) k c) /\
  (forall i, k < i < n ->
     get (lu_in_place n A) i k =
     sub_loop 0 k
       (fun j => get (lu_state n A k) i j * get (lu_state n A k) j k)
       (get (lu_state n A k) i k) / lu_divisor n A k).
Proof.
  intros HA Hk. split; [|split].
  - intros r c Hr Hc Hmin. apply lu_state_untouched; auto; lia.
  - intros c Hc. now apply lu_stored_row.
  - intros i Hi. now apply lu_stored_multiplier.
Qed.

(** In plu the rows below [k] may still change places after iteration [k],
    so a property of the entries of column [k] below the diagonal is kept
    when it holds for all of them. *)
Lemma plu_state_column_keeps (Q : F -> Prop) (A : matrix F) (P : list nat)
    (k m : nat) :
  square n A -> length P = n -> k < m <= n ->
  (forall r, k < r < n -> Q (get (fst (plu_state n A P (S k))) r k)) ->
  forall r, k < r < n -> Q (get (fst (plu_state n A P m)) r k).
Proof.
  intros HA HP Hm Hk1. induction m as [|m IH]; [lia|].
  destruct (Nat.eq_dec k m) as [->|Hne]; [exact Hk1|].
  specialize (IH ltac:(lia)). intros r Hr.
  destruct (@plu_state_shape F SF n A P m HA HP) as [Hsq Hlen]; [lia|].
  rewrite plu_state_succ, plu_step_eq. cbn [fst].
  destruct (plu_state n A P m) as [B Q0]. cbn [fst snd] in *.
  destruct (@plu_pivot_effect F SF n m B Q0 Hsq Hlen) as (H1 & _ & H3 & _); [lia|].
  pose proof (@plu_max_row_range F SF n m B ltac:(lia)) as Hmax.
  destruct (@plu_eliminate_effect F SF n (fst (plu_pivot n m (B, Q0))) m H1)
    as [_ H6]; [lia|].
  rewrite H6 by lia. rewrite eliminated_frame by lia. rewrite H3 by lia.
  apply IH. unfold swap_index. index_cases.
Qed.

(** In every arithmetic, every entry of column [k] below the diagonal of the
    buffer plu leaves is a multiplier of iteration [k]: an entry of that
    column, as it stood after the swap of iteration [k], divided by the
    pivot of that iteration. *)
Lemma plu_stored_multipliers (A : matrix F) (P : list nat) (k i : nat) :
  square n A -> length P = n -> k < i < n ->
  exists r, k < r < n /\
    get (fst (plu n A P)) i k =
    get (fst (plu_pivot n k (plu_state n A P k))) r k / plu_divisor n A P k.
Proof.
  intros HA HP Hi. change (plu n A P) with (plu_state n A P n).
  apply (@plu_state_column_keeps
           (fun v => exists r, k < r < n /\
              v = get (fst (plu_pivot n k (plu_state n A P k))) r k /
                  plu_divisor n A P k) A P k n); auto; try lia.
  intros r Hr. exists r. split; [exact Hr|].
  destruct (@plu_state_shape F SF n A P k HA HP) as [Hsq Hlen]; [lia|].
  rewrite plu_state_succ, plu_step_eq. cbn [fst]. unfold plu_divisor.
  destruct (plu_state n A P k) as [B Q0]. cbn [fst snd] in *.
  destruct (@plu_pivot_effect F SF n k B Q0 Hsq Hlen) as (H1 & _); [lia|].
  destruct (@plu_eliminate_effect F SF n (fst (plu_pivot n k (B, Q0))) k H1)
    as [_ H6]; [lia|].
  rewrite H6 by lia. unfold eliminated.
  replace (k <? r) with true by index_cases. now rewrite Nat.eqb_refl.
Qed.

End StoredEntries.

Section LastUnknown.

Context {F : Type} {SF : Scalar F}.
Local Open Scope scalar_scope.

(** In every arithmetic, the first division of the back-substitution is
    final: the last entry of the result is the last entry of the
    right-hand side divided by the last diagonal entry, whatever the other
    rows do. *)
Lemma back_substitute_last (m : nat) (A : matrix F) (b : vec F) :
  length b = S m ->
  vget (back_substitute (S m) A b) m = vget b m / get A m m.
Proof.
  intros Hb. unfold back_substitute. cbn [for_down].
  destruct (@back_substitute_row_effect F SF (S m) A b m Hb) as [Hlen Hget]; [lia|].
  assert (Hfirst : vget (back_substitute_row (S m) A m b) m = vget b m / get A m m).
  { rewrite Hget by lia. rewrite Nat.eqb_refl. unfold sub_loop.
    now rewrite for_up_nil by lia. }
  apply (for_down_preserves (back_substitute_row (S m) A)
           (fun b' => length b' = S m /\ vget b' m = vget b m / get A m m));
    [now split|].
  intros i b' Hi [Hb' Hm].
  destruct (@back_substitute_row_effect F SF (S m) A b' i Hb') as [Hlen' Hget'];
    [lia|].
  split; [exact Hlen'|]. rewrite Hget' by lia.
  now replace (m =? i) with false by index_cases.
Qed.

End LastUnknown.

(** ** Zero pivots in binary64 *)

(** Dividing by a zero of either sign never gives a finite number: it gives
    an infinity, or NaN when the dividend is a zero or NaN. *)
Lemma float_div_zero_non_finite (x y : float) :
  float_zero y -> non_finite (x / y)%sc = true.
Proof.
  intros Hy. unfold non_finite, PrimFloat.is_nan, PrimFloat.is_infinity.
  change (x / y)%sc with (PrimFloat.div x y).
  rewrite !FloatAxioms.eqb_spec, FloatAxioms.abs_spec, FloatAxioms.div_spec.
  assert (Hc : FloatOps.Prim2SF y = SpecFloat.S754_zero false \/
               FloatOps.Prim2SF y = SpecFloat.S754_zero true).
  { destruct Hy as [-> | ->]; [left|right]; reflexivity. }
  destruct (FloatOps.Prim2SF x) as [s| s| |s m e]; destruct Hc as [-> | ->];
    try destruct s; reflexivity.
Qed.

(** X8. In binary64 a zero pivot of gauss_solve_in_place always shows in what
    the kernel returns: a pivot [A[k][k]] that is a zero when iteration [k]
    starts makes every entry of column [k] below the diagonal of [A]
    non-finite, and when it is the last pivot it makes the last unknown in
    [b] non-finite. *)
Theorem gauss_solve_in_place_zero_pivot (n : nat) (A : matrix float) (b : vec float)
    (k : nat) :
  square n A -> length b = n -> k < n ->
  float_zero (gauss_pivot n A b k) ->
  (forall i, k < i < n ->
     non_finite (get (fst (gauss_solve_in_place n A b)) i k) = true) /\
  (S k = n -> non_finite (vget (snd (gauss_solve_in_place n A b)) k) = true).
Proof.
  intros HA Hb Hk Hz.
  split.
  - intros i Hi. rewrite gauss_stored_multiplier by auto.
    now apply float_div_zero_non_finite.
  - intros Hlast. symmetry in Hlast.
    revert HA Hb Hk Hz. rewrite Hlast. intros HA Hb Hk Hz.
    assert (Hpiv : get (fst (gauss_solve_in_place (S k) A b)) k k =
                   gauss_pivot (S k) A b k) by (apply gauss_stored_row; auto).
    revert Hpiv. unfold gauss_solve_in_place. rewrite gauss_forward_state.
    destruct (@gauss_state_shape float _ (S k) A b (S k) HA Hb) as [_ Hlen]; [lia|].
    destruct (gauss_state (S k) A b (S k)) as [A' y]. cbn [fst snd] in *.
    intros Hpiv. rewrite back_substitute_last by exact Hlen. rewrite Hpiv.
    now apply float_div_zero_non_finite.
Qed.

(** X9. In binary64 a zero divisor of lu_in_place always shows in the buffer:
    when the [A[k][k]] that line 48 divides by in step [k] is a zero, every
    entry of column [k] below the diagonal of the result is non-finite. *)
Theorem lu_in_place_zero_divisor (n : nat) (A : matrix float) (k : nat) :
  square n A -> k < n ->
  float_zero (lu_divisor n A k) ->
  forall i, k < i < n -> non_finite (get (lu_in_place n A) i k) = true.
Proof.
  intros HA Hk Hz i Hi.
  rewrite lu_stored_multiplier by auto. now apply float_div_zero_non_finite.
Qed.

(** X10. In binary64 a zero pivot of plu always shows in the buffer: when the
    pivot that iteration [k] divides by (after its swap) is a zero, every
    entry of column [k] below the diagonal of the result is non-finite. *)
Theorem plu_zero_divisor (n : nat) (A : matrix float) (P : list nat) (k : nat) :
  square n A -> length P = n ->
  float_zero (plu_divisor n A P k) ->
  forall i, k < i < n -> non_finite (get (fst (plu n A P)) i k) = true.
Proof.
  intros HA HP Hz i Hi.
  destruct (@plu_stored_multipliers float _ n A P k i HA HP Hi) as (r & _ & E).
  rewrite E. now apply float_div_zero_non_finite.
Qed.

(** ** Partial pivoting, in exact rational arithmetic *)

(** X11. Lines 79-84 keep the earlier row on a tie: every row of the scan before
    the selected one is strictly smaller in magnitude in column [k] (the
    test of line 81 is a strict [>]). *)
Theorem plu_max_row_is_first_largest (n k : nat) (A : matrix Qc) (i : nat) :
  k <= i < plu_max_row n k A ->
  (Qcabs (get A i k) < Qcabs (get A (plu_max_row n k A) k))%Qc.
Proof.
  unfold plu_max_row.
  pose (Inv := fun (hi m : nat) =>
    k <= m /\ (k < hi -> m < hi) /\
    (forall j, k <= j < m ->
       (Qcabs (get A j k) < Qcabs (get A m k))%Qc) /\
    (forall j, m <= j < hi ->
       (Qcabs (get A j k) <= Qcabs (get A m k))%Qc)).
  destruct (Nat.le_gt_cases (S k) n) as [Hle|Hgt].
  2:{ rewrite for_up_nil by lia. lia. }
  assert (Hinv : Inv n (for_up (S k) n
    (fun i max_row =>
       if fgt (fabs (get A i k)) (fabs (get A max_row k)) then i else max_row)
    k)).
  { apply for_up_ind; [lia| |]; unfold Inv.
    - split; [lia|]. split; [lia|]. split; [intros; lia|].
      intros j Hj. replace j with k by lia. apply Qcle_refl.
    - intros i' m Hi' (Hkm & Hm & Hbefore & Hafter).
      destruct (fgt (fabs (get A i' k)) (fabs (get A m k))) eqn:E.
      + apply Qc_fgt_lt in E. split; [lia|]. split; [lia|]. split.
        * intros j Hj. destruct (Nat.lt_ge_cases j m) as [Hjm|Hjm].
          -- apply (Qclt_trans _ (Qcabs (get A m k))); [apply Hbefore; lia|exact E].
          -- apply (Qcle_lt_trans _ (Qcabs (get A m k))); [apply Hafter; lia|exact E].
        * intros j Hj. replace j with i' by lia. apply Qcle_refl.
      + apply Qc_fgt_false in E. split; [lia|]. split; [lia|]. split.
        * exact Hbefore.
        * intros j Hj. destruct (Nat.eq_dec j i') as [->|Hne]; [exact E|].
          apply Hafter. lia. }
  destruct Hinv as (_ & _ & Hbefore & _). exact (Hbefore i).
Qed.

Lemma Qc_abs_quotient_le_1 (x d : Qc) :
  d <> 0%Qc -> (Qcabs x <= Qcabs d)%Qc -> (Qcabs (x / d) <= 1)%Qc.
Proof.
  intros Hd Hle.
  assert (Hpos : (0 < Qcabs d)%Qc).
  { destruct (Qcle_lt_or_eq _ _ (Qcabs_nonneg d)) as [H|H]; [exact H|].
    exfalso. apply Hd. apply Qcabs_null. now symmetry. }
  apply (Qcmult_lt_0_le_reg_r _ _ (Qcabs d) Hpos).
  rewrite <- Qcabs_Qcmult, Qcmult_1_l.
  replace (x / d * d)%Qc with x; [exact Hle|].
  rewrite Qcmult_comm. symmetry. now apply Qcmult_div_r.
Qed.

(** The pivot that iteration [k] divides by, in terms of the buffer the
    iteration starts with: the entry of the selected row. *)
Lemma plu_divisor_selected (F : Type) (SF : Scalar F) (n : nat) (A0 : matrix F)
    (P0 : list nat) (k : nat) :
  square n A0 -> length P0 = n -> k < n ->
  plu_divisor n A0 P0 k =
  get (fst (plu_state n A0 P0 k))
    (plu_max_row n k (fst (plu_state n A0 P0 k))) k.
Proof.
  intros HA0 HP0 Hk. unfold plu_divisor.
  destruct (@plu_state_shape F SF n A0 P0 k HA0 HP0) as [Hsq Hlen]; [lia|].
  destruct (plu_state n A0 P0 k) as [A P]. cbn [fst snd] in *.
  destruct (@plu_pivot_effect F SF n k A P Hsq Hlen Hk) as (_ & _ & H3 & _).
  rewrite H3 by lia. unfold swap_index. now rewrite Nat.eqb_refl.
Qed.

(** X12. plu divides by zero only when it cannot avoid it: the pivot of
    iteration [k] is zero exactly when the whole column [k], from the
    diagonal down, is zero when the iteration starts. *)
Theorem plu_zero_pivot_iff_zero_column (n : nat) (A0 : matrix Qc) (P0 : list nat)
    (k : nat) :
  square n A0 -> length P0 = n -> k < n ->
  plu_divisor n A0 P0 k = 0%Qc <->
  forall i, k <= i < n -> get (fst (plu_state n A0 P0 k)) i k = 0%Qc.
Proof.
  intros HA0 HP0 Hk. rewrite (@plu_divisor_selected Qc _ n A0 P0 k HA0 HP0 Hk).
  set (A := fst (plu_state n A0 P0 k)).
  pose proof (@plu_max_row_range Qc _ n k A Hk) as Hm. split.
  - intros Hzero i Hi. apply Qcabs_null. apply Qcle_antisym; [|apply Qcabs_nonneg].
    assert (E0 : Qcabs (get A (plu_max_row n k A) k) = 0%Qc)
      by (rewrite Hzero; apply Qcabs_pos, Qcle_refl).
    rewrite <- E0.
    apply Qc_fgt_false.
    exact (@plu_max_row_maximal Qc _ Qc_fgt_irrefl Qc_fgt_trans n k A i Hi).
  - intros Hcol. apply Hcol. lia.
Qed.

(** X13. With partial pivoting no multiplier exceeds 1 in magnitude: every entry
    of column [k] below the diagonal of the buffer plu leaves has magnitude
    at most 1, when the pivot of iteration [k] is not zero. *)
Theorem plu_multipliers_bounded (n : nat) (A0 : matrix Qc) (P0 : list nat)
    (k i : nat) :
  square n A0 -> length P0 = n -> k < i < n ->
  plu_divisor n A0 P0 k <> 0%Qc ->
  (Qcabs (get (fst (plu n A0 P0)) i k) <= 1)%Qc.
Proof.
  intros HA0 HP0 Hi Hd.
  destruct (@plu_stored_multipliers Qc _ n A0 P0 k i HA0 HP0 Hi) as (r & Hr & E).
  rewrite E. apply Qc_abs_quotient_le_1; [exact Hd|].
  rewrite (@plu_divisor_selected Qc _ n A0 P0 k HA0 HP0) by lia.
  destruct (@plu_state_shape Qc _ n A0 P0 k HA0 HP0) as [Hsq Hlen]; [lia|].
  destruct (plu_state n A0 P0 k) as [A P]. cbn [fst snd] in *.
  destruct (@plu_pivot_effect Qc _ n k A P Hsq Hlen) as (_ & _ & H3 & _); [lia|].
  pose proof (@plu_max_row_range Qc _ n k A ltac:(lia)) as Hm.
  rewrite H3 by lia. apply Qc_fgt_false.
  apply (@plu_max_row_maximal Qc _ Qc_fgt_irrefl Qc_fgt_trans n k A).
  unfold swap_index. index_cases.
Qed.

(** ** plu beside the other kernels and the driver *)

Section PluComposition.

Context {F : Type} {SF : Scalar F}.
Local Open Scope scalar_scope.

Variable n : nat.

(** X14. In every arithmetic, when the pivot search never selects another row
    than [k], plu does what the forward elimination of gauss_solve_in_place
    does: it leaves the same buffer [A], and the identity in [P]. *)
Theorem plu_without_swap_is_gauss (A : matrix F) (b : vec F) (P : list nat) :
  square n A -> length b = n -> length P = n ->
  (forall k, k < n -> plu_max_row n k (fst (gauss_state n A b k)) = k) ->
  plu n A P = (fst (gauss_solve_in_place n A b), seq 0 n).
Proof.
  intros HA Hb HP Hsel. rewrite gauss_solve_in_place_buffer.
  change (plu n A P) with (plu_state n A P n).
  assert (Hstate : forall k, k <= n ->
            plu_state n A P k = (fst (gauss_state n A b k), seq 0 n)).
  { induction k as [|k IH]; intros Hk.
    - unfold plu_state, gauss_state. rewrite !for_up_nil by lia.
      now rewrite plu_init_seq by exact HP.
    - rewrite plu_state_succ, IH by lia. rewrite plu_step_eq.
      assert (Hpiv : plu_pivot n k (fst (gauss_state n A b k), seq 0 n) =
                     (fst (gauss_state n A b k), seq 0 n)).
      { unfold plu_pivot. rewrite Hsel by lia. now rewrite Nat.eqb_refl. }
      rewrite Hpiv. cbn [fst snd]. f_equal.
      destruct (@gauss_state_shape F SF n A b k HA Hb) as [Hsq Hlen]; [lia|].
      rewrite gauss_state_succ.
      destruct (gauss_state n A b k) as [B c]. cbn [fst snd] in *.
      destruct (@gauss_eliminate_step_effect F SF n B c k Hsq Hlen) as (H1 & _);
        [lia|].
      now rewrite H1. }
  apply Hstate. lia.
Qed.

(** [permute_matrix] with an array of row indices below [n] lists the rows
    of [A] in the order of the array. *)
Lemma permute_matrix_rows (P : list nat) (A : matrix F) :
  square n A -> length P = n -> (forall i, i < n -> nth i P 0 < n) ->
  permute_matrix n P A = map (fun p => nth p A []) P.
Proof.
  intros HA HP Hlt.
  assert (Hrow : forall r, r < n ->
            nth r (map (fun p => nth p A []) P) [] = nth (nth r P 0) A []).
  { intros r Hr.
    rewrite (nth_indep _ [] ((fun p => nth p A []) 0))
      by (rewrite length_map; lia).
    apply (map_nth (fun p => nth p A [])). }
  apply (@matrix_ext _ _ n).
  - apply square_build.
  - split; [now rewrite length_map|]. apply Forall_forall.
    intros row Hin. apply in_map_iff in Hin. destruct Hin as (p & <- & Hp).
    apply (In_nth _ _ 0) in Hp. destruct Hp as (i & Hi & <-).
    apply (square_rows HA). apply Hlt. lia.
  - intros r c Hr Hc. unfold permute_matrix. rewrite get_build by lia.
    unfold get. now rewrite Hrow.
Qed.

(** X15. In every arithmetic and for every square matrix, the driver's
    [permute_matrix] applied with the [P] that plu leaves rearranges the
    rows of the matrix: every row occurs in the result as often as in the
    matrix. *)
Theorem plu_permutes_rows (A0 : matrix F) (P0 : list nat) :
  square n A0 -> length P0 = n ->
  Permutation (permute_matrix n (snd (plu n A0 P0)) A0) A0.
Proof.
  intros HA0 HP0.
  pose proof (@plu_state_injection F SF n A0 P0 n HP0 (Nat.le_refl n)) as Hinj.
  change (plu_state n A0 P0 n) with (plu n A0 P0) in Hinj.
  pose proof (injection_on_Permutation Hinj) as Hperm.
  destruct Hinj as (Hlen & Hlt & _).
  rewrite permute_matrix_rows by auto.
  assert (Hid : map (fun p => nth p A0 []) (seq 0 n) = A0).
  { apply (@nth_ext_eq _ []).
    - rewrite length_map, length_seq. destruct HA0. congruence.
    - intros i Hi. rewrite length_map, length_seq in Hi.
      rewrite (nth_indep _ [] ((fun p => nth p A0 []) 0))
        by (rewrite length_map, length_seq; lia).
      rewrite (map_nth (fun p => nth p A0 [])). now rewrite seq_nth by lia. }
  rewrite <- Hid at 2. now apply Permutation_map.
Qed.

End PluComposition.

(** ** The comparison loop of the plu driver *)

Section DriverCompare.

Context {F : Type} {SF : Scalar F}.
Local Open Scope scalar_scope.

Variable n : nat.
Variable tol : F.
Variables PL AU : matrix F.

(** One row: the flag survives exactly when it was set and no entry of the
    row differs by more than [tol]. *)
Lemma driver_compare_row_spec (i : nat) (is_equal : bool) :
  driver_compare_row n tol PL AU i is_equal = true <->
  is_equal = true /\
  forall j, j < n -> fgt (fabs (get PL i j - get AU i j)) tol = false.
Proof.
  unfold driver_compare_row.
  pose (Inv := fun (m : nat) (st : bool * bool) =>
    (snd st = false ->
       fst st = is_equal /\
       forall j, j < m -> fgt (fabs (get PL i j - get AU i j)) tol = false) /\
    (snd st = true ->
       fst st = false /\
       exists j, j < m /\ fgt (fabs (get PL i j - get AU i j)) tol = true)).
  assert (Hinv : Inv n (for_up 0 n
            (fun j (st : bool * bool) =>
               if snd st then st
               else if fgt (fabs (get PL i j - get AU i j)) tol then (false, true)
               else st)
            (is_equal, false))).
  { apply for_up_ind; [lia| |]; unfold Inv.
    - cbn [fst snd]. split; [|discriminate]. intros _. split; [reflexivity|].
      intros j Hj. lia.
    - intros j [e left] Hj [H0 H1]. cbn [fst snd] in *.
      destruct left; cbn [fst snd].
      + split; [discriminate|]. intros _. destruct (H1 eq_refl) as (He & j' & Hj' & Ht).
        split; [exact He|]. exists j'. split; [lia|exact Ht].
      + destruct (H0 eq_refl) as [He Hall].
        destruct (fgt (fabs (get PL i j - get AU i j)) tol) eqn:E; cbn [fst snd].
        * split; [discriminate|]. intros _. split; [reflexivity|].
          exists j. split; [lia|exact E].
        * split; [|discriminate]. intros _. split; [exact He|].
          intros j' Hj'. destruct (Nat.eq_dec j' j) as [->|Hne]; [exact E|].
          apply Hall. lia. }
  destruct Hinv as [H0 H1].
  destruct (for_up 0 n _ (is_equal, false)) as [e left]. cbn [fst snd] in *.
  destruct left.
  - destruct (H1 eq_refl) as (-> & j & Hj & Ht). split; [discriminate|].
    intros [_ Hall]. rewrite Hall in Ht by exact Hj. discriminate.
  - destruct (H0 eq_refl) as [-> Hall]. split.
    + intros He. split; [exact He|exact Hall].
    + intros [He _]. exact He.
Qed.

(** X16. In every arithmetic, the driver's comparison answers 1 exactly when no
    entry of the two matrices differs by more than the tolerance: the
    [break], which only leaves the inner loop, never turns a failure into a
    success, and a row after a failed one cannot set the flag again. *)
Theorem driver_compare_spec :
  driver_compare n tol PL AU = true <->
  forall i j, i < n -> j < n ->
    fgt (fabs (get PL i j - get AU i j)) tol = false.
Proof.
  unfold driver_compare.
  pose (Inv := fun (m : nat) (e : bool) =>
    e = true <->
    forall i j, i < m -> j < n ->
      fgt (fabs (get PL i j - get AU i j)) tol = false).
  change (Inv n (for_up 0 n (driver_compare_row n tol PL AU) true)).
  apply for_up_ind; [lia| |]; unfold Inv.
  - split; [intros _ i j Hi; lia|reflexivity].
  - intros i e Hi He. rewrite driver_compare_row_spec, He. split.
    + intros [Hbefore Hrow] i' j Hi' Hj.
      destruct (Nat.eq_dec i' i) as [->|Hne]; [now apply Hrow|].
      apply Hbefore; lia.
    + intros Hall. split.
      * intros i' j Hi' Hj. apply Hall; lia.
      * intros j Hj. apply Hall; lia.
Qed.

End DriverCompare.

(** On its own matrix the plu driver answers 0 in binary64: it compares the
    permuted buffer with the square of the buffer, not the permuted original
    with the product of the factors. *)
Example plu_driver_on_its_matrix :
  plu_driver_verdict 3 eps A_plu_driver_float [0; 0; 0] = false.
Proof. vm_compute. reflexivity. Qed.

(** ** The further properties at the driver's inputs *)

Lemma lu_in_place_reconstruct_multiplies_witness :
  lu_in_place_reconstruct 3 A_driver =
  mat_mul 3 (unit_lower 3 A_driver) (upper 3 A_driver).
Proof.
  apply (@lu_in_place_reconstruct_multiplies Qc Qc_scalar Qcft 3 A_driver).
  square_literal.
Defined.

Lemma lu_in_place_after_reconstruct_witness :
  lu_in_place 3 (lu_in_place_reconstruct 3 A_driver) = A_driver.
Proof.
  apply (@lu_in_place_after_reconstruct Qc Qc_scalar Qcft 3 A_driver).
  - square_literal.
  - intros k Hk. destruct k as [|[|k]]; [Qc_nonzero|Qc_nonzero|lia].
Defined.

Lemma gauss_solve_in_place_packs_factors_witness :
  mat_mul 3 (unit_lower 3 (fst (gauss_solve_in_place 3 A_driver b_driver)))
            (upper 3 (fst (gauss_solve_in_place 3 A_driver b_driver))) = A_driver.
Proof.
  apply (@gauss_solve_in_place_packs_factors Qc Qc_scalar Qcft 3 A_driver b_driver).
  - square_literal.
  - reflexivity.
  - intros k Hk. destruct k as [|[|k]]; [Qc_nonzero|Qc_nonzero|lia].
Defined.

Lemma reconstruct_after_gauss_solve_witness :
  lu_in_place_reconstruct 3 (fst (gauss_solve_in_place 3 A_driver b_driver)) =
  A_driver.
Proof.
  apply (@reconstruct_after_gauss_solve Qc Qc_scalar Qcft 3 A_driver b_driver).
  - square_literal.
  - reflexivity.
  - intros k Hk. destruct k as [|[|k]]; [Qc_nonzero|Qc_nonzero|lia].
Defined.

Lemma gauss_pivots_give_unique_solution_witness :
  snd (gauss_solve_in_place 3 A_driver b_driver) =
  snd (gauss_solve_in_place 3 A_driver b_driver).
Proof.
  apply (@gauss_pivots_give_unique_solution Qc Qc_scalar Qcft 3 A_driver b_driver).
  - square_literal.
  - reflexivity.
  - reflexivity.
  - reflexivity.
  - intros k Hk. destruct k as [|[|[|k]]]; [Qc_nonzero|Qc_nonzero|Qc_nonzero|lia].
  - reflexivity.
Defined.

Lemma gauss_solve_in_place_stored_entries_witness :
  (forall c, c < 3 ->
     get (fst (gauss_solve_in_place 3 A_singular_float b_driver_float)) 0 c =
     get (fst (gauss_state 3 A_singular_float b_driver_float 0)) 0 c) /\
  (forall i, 0 < i < 3 ->
     get (fst (gauss_solve_in_place 3 A_singular_float b_driver_float)) i 0 =
     (get (fst (gauss_state 3 A_singular_float b_driver_float 0)) i 0 /
      gauss_pivot 3 A_singular_float b_driver_float 0)%sc).
Proof.
  apply (@gauss_solve_in_place_stored_entries float float_scalar 3
           A_singular_float b_driver_float 0).
  - square_literal.
  - reflexivity.
  - lia.
Defined.

Lemma lu_in_place_stored_entries_witness :
  (forall r c, r < 3 -> c < 3 -> 1 <= min r c ->
     get (lu_state 3 A_driver 1) r c = get A_driver r c) /\
  (forall c, 1 <= c < 3 ->
     get (lu_in_place 3 A_driver) 1 c =
     get (lu_row_phase 3 1 (lu_state 3 A_driver 1)) 1 c) /\
  (forall i, 1 < i < 3 ->
     get (lu_in_place 3 A_driver) i 1 =
     (sub_loop 0 1
        (fun j => get (lu_state 3 A_driver 1) i j * get (lu_state 3 A_driver 1) j 1)
        (get (lu_state 3 A_driver 1) i 1) / lu_divisor 3 A_driver 1)%sc).
Proof.
  apply (@lu_in_place_stored_entries Qc Qc_scalar 3 A_driver 1).
  - square_literal.
  - lia.
Defined.

Lemma gauss_solve_in_place_zero_pivot_witness :
  (forall i, 0 < i < 3 ->
     non_finite
       (get (fst (gauss_solve_in_place 3 A_singular_float b_driver_float)) i 0) =
     true) /\
  (1 = 3 ->
   non_finite (vget (snd (gauss_solve_in_place 3 A_singular_float b_driver_float)) 0) =
   true).
Proof.
  apply (@gauss_solve_in_place_zero_pivot 3 A_singular_float b_driver_float 0).
  - square_literal.
  - reflexivity.
  - lia.
  - left. reflexivity.
Defined.

Lemma lu_in_place_zero_divisor_witness :
  non_finite (get (lu_in_place 3 A_singular_float) 1 0) = true /\
  non_finite (get (lu_in_place 3 A_singular_float) 2 0) = true.
Proof.
  split.
  - apply (@lu_in_place_zero_divisor 3 A_singular_float 0).
    + square_literal.
    + lia.
    + left. reflexivity.
    + lia.
  - apply (@lu_in_place_zero_divisor 3 A_singular_float 0).
    + square_literal.
    + lia.
    + left. reflexivity.
    + lia.
Defined.

Lemma plu_zero_divisor_witness :
  non_finite (get (fst (plu 3 A_zero_column [0; 0; 0])) 1 0) = true /\
  non_finite (get (fst (plu 3 A_zero_column [0; 0; 0])) 2 0) = true.
Proof.
  split.
  - apply (@plu_zero_divisor 3 A_zero_column [0; 0; 0] 0).
    + square_literal.
    + reflexivity.
    + left. reflexivity.
    + lia.
  - apply (@plu_zero_divisor 3 A_zero_column [0; 0; 0] 0).
    + square_literal.
    + reflexivity.
    + left. reflexivity.
    + lia.
Defined.

Lemma plu_max_row_is_first_largest_witness :
  Qclt (Qcabs (get A_zero_pivot 0 0))
       (Qcabs (get A_zero_pivot (plu_max_row 2 0 A_zero_pivot) 0)).
Proof.
  apply (@plu_max_row_is_first_largest 2 0 A_zero_pivot 0).
  vm_compute. lia.
Defined.

Lemma plu_zero_pivot_iff_zero_column_witness :
  plu_divisor 2 A_zero_pivot [0; 0] 0 = 0%Qc <->
  forall i, 0 <= i < 2 -> get (fst (plu_state 2 A_zero_pivot [0; 0] 0)) i 0 = 0%Qc.
Proof.
  apply (@plu_zero_pivot_iff_zero_column 2 A_zero_pivot [0; 0] 0).
  - square_literal.
  - reflexivity.
  - lia.
Defined.

Lemma plu_multipliers_bounded_witness :
  Qcle (Qcabs (get (fst (plu 3 A_plu_driver [0; 0; 0])) 1 0)) 1%Qc.
Proof.
  apply (@plu_multipliers_bounded 3 A_plu_driver [0; 0; 0] 0 1).
  - square_literal.
  - reflexivity.
  - lia.
  - Qc_nonzero.
Defined.

Lemma plu_without_swap_is_gauss_witness :
  plu 2 A_dominant [0; 0] =
  (fst (gauss_solve_in_place 2 A_dominant (map Qc_of_Z [1; 2]%Z)), seq 0 2).
Proof.
  apply (@plu_without_swap_is_gauss Qc Qc_scalar 2 A_dominant
           (map Qc_of_Z [1; 2]%Z) [0; 0]).
  - square_literal.
  - reflexivity.
  - reflexivity.
  - intros k Hk. destruct k as [|[|k]]; [vm_compute; reflexivity|vm_compute; reflexivity|lia].
Defined.

Lemma plu_permutes_rows_witness :
  Permutation
    (permute_matrix 3 (snd (plu 3 A_plu_driver [0; 0; 0])) A_plu_driver)
    A_plu_driver.
Proof.
  apply (@plu_permutes_rows Qc Qc_scalar 3 A_plu_driver [0; 0; 0]).
  - square_literal.
  - reflexivity.
Defined.
